(** * Wi-SUN router (wsrd): 6LoWPAN reassembly, ETX estimator, RPL MRHOF
      parent selection and supplicant storage

    A shallow embedding of the C sources
      - [6lowpan_frag.c]         (RFC 815 hole list reassembly),
      - [common/mathutils.h]     (saturating additions),
      - [supplicant_storage.c]   (restoring the key storage),
      - [common/ws/ws_ewma.h], [common/ws/ws_etx.c] (ETX estimator),
      - [app_wsrd/ipv6/rpl_mrhof.c] (RFC 6719 objective function),
    followed by the properties proved about them.

    Conventions.
      - [uintN_t] values are [Z] with the wrap-around written out ([u8],
        [u16], [u32]).
      - A C call either returns, terminates the process ([BUG_ON], [FATAL])
        or has undefined behaviour; see [outcome].
      - Singly linked lists ([SLIST]) are Rocq lists in list order; a pointer
        to a node is its position in the list. *)

From Stdlib Require Import ZArith QArith Qround Qabs Qpower Lia Lqa String Ascii.
From Stdlib.Strings Require Import Byte.
From stdpp Require Import base list.

Open Scope Z_scope.

(* ================================================================= *)
(** ** Machine integers and call outcomes *)

Definition u8  (x : Z) : Z := x mod 2 ^ 8.
Definition u16 (x : Z) : Z := x mod 2 ^ 16.
Definition u32 (x : Z) : Z := x mod 2 ^ 32.

Definition UINT16_MAX : Z := 65535.
Definition UINT32_MAX : Z := 4294967295.
Definition INT_MIN : Z := - 2 ^ 31.
Definition INT_MAX : Z := 2 ^ 31 - 1.

Definition EAGAIN  : Z := 11.
Definition EINVAL  : Z := 22.
Definition ENOTSUP : Z := 95.

(** What a C call does: it returns a value, it terminates the process
    ([BUG_ON], [FATAL]), or its behaviour is undefined. *)
Inductive outcome (A : Type) : Type :=
| Ret (a : A)
| Abort (msg : string)
| Undef.
Arguments Ret {A} a.
Arguments Abort {A} msg.
Arguments Undef {A}.

#[global] Instance outcome_bind : MBind outcome := fun A B k m =>
  match m with
  | Ret a => k a
  | Abort msg => Abort msg
  | Undef => Undef
  end.

#[global] Instance outcome_ret : MRet outcome := fun A a => Ret a.

#[global] Instance byte_eq_dec : EqDecision byte := Byte.byte_eq_dec.

(* ================================================================= *)
(** ** common/mathutils.h *)

(** [static inline uint32_t add32sat(uint32_t a, uint32_t b)] *)
Definition add32sat (a b : Z) : Z :=
  let sum := u32 (a + b) in
  if sum <? a then UINT32_MAX else sum.

(** [static inline uint16_t add16sat(uint16_t a, uint16_t b)] *)
Definition add16sat (a b : Z) : Z :=
  let sum := u16 (a + b) in
  if sum <? a then UINT16_MAX else sum.

(* ================================================================= *)
(** ** 6lowpan_frag.c: RFC 815 reassembly *)

(** [struct lowpan_hole]: the octets [hole_first .. hole_end - 1] are
    missing. *)
Record lowpan_hole : Type := mk_hole {
  hole_first : Z;
  hole_end   : Z
}.

(** [struct lowpan_reasm]. [timer] is [Some d] while the expiry timer is
    armed with delay [d]. *)
Record lowpan_reasm : Type := mk_reasm {
  reasm_src   : Z;
  reasm_dst   : Z;
  reasm_len   : Z;
  reasm_tag   : Z;
  reasm_timer : option Z;
  reasm_holes : list lowpan_hole;
  reasm_buf   : list byte
}.

Definition set_holes (reasm : lowpan_reasm) (hs : list lowpan_hole) : lowpan_reasm :=
  mk_reasm (reasm_src reasm) (reasm_dst reasm) (reasm_len reasm) (reasm_tag reasm)
           (reasm_timer reasm) hs (reasm_buf reasm).

Definition set_buf (reasm : lowpan_reasm) (b : list byte) : lowpan_reasm :=
  mk_reasm (reasm_src reasm) (reasm_dst reasm) (reasm_len reasm) (reasm_tag reasm)
           (reasm_timer reasm) (reasm_holes reasm) b.

(** [lowpan_hole_add]: always inserts at the head of the hole list. *)
Definition lowpan_hole_add (reasm : lowpan_reasm) (first end_ : Z) : lowpan_reasm :=
  set_holes reasm (mk_hole first end_ :: reasm_holes reasm).

(** The overlap test of the loop, negated: [continue] is taken when
    [frag_first >= hole_end || frag_end <= hole_first]. *)
Definition hole_skipped (frag_first frag_end : Z) (hole : lowpan_hole) : bool :=
  (frag_first >=? hole_end hole) || (frag_end <=? hole_first hole).

(** "Split hole": the nodes pushed on the head of the list for one removed
    hole, the most recently inserted first. *)
Definition hole_split (frag_first frag_end : Z) (hole : lowpan_hole)
  : list lowpan_hole :=
  (if frag_end <? hole_end hole then [mk_hole frag_end (hole_end hole)] else []) ++
  (if frag_first >? hole_first hole then [mk_hole (hole_first hole) frag_first] else []).

(** The [for (prev = NULL, hole = SLIST_FIRST ...; prev = hole, hole = next)]
    loop of [lowpan_reasm_update]. The list is [head ++ kept ++ todo]:
    [head] holds the nodes inserted by this call, [kept] the visited nodes
    left in place, [todo] the nodes not visited yet. After a removal the
    loop increment stores the freed node in [prev] ([prev_freed = true]); a
    removal in the very next iteration then writes [SLIST_NEXT(prev, link)]
    through that dangling pointer, which is undefined ([None]). *)
Fixpoint reasm_punch (frag_first frag_end : Z) (prev_freed : bool)
    (head kept todo : list lowpan_hole) : option (list lowpan_hole) :=
  match todo with
  | [] => Some (head ++ kept)
  | hole :: next =>
      if hole_skipped frag_first frag_end hole
      then reasm_punch frag_first frag_end false head (kept ++ [hole]) next
      else if prev_freed then None
      else reasm_punch frag_first frag_end true
             (hole_split frag_first frag_end hole ++ head) kept next
  end.

(** [memcpy(dst + off, src, n)] into an array of [length dst] bytes; writing
    past the end of the array is undefined. *)
Definition memcpy_at (dst : list byte) (off : Z) (src : list byte) : option (list byte) :=
  if (0 <=? off) && (off + Z.of_nat (length src) <=? Z.of_nat (length dst))
  then Some (take (Z.to_nat off) dst ++ src ++
             drop (Z.to_nat off + length src) dst)
  else None.

(** [static int lowpan_reasm_update(struct lowpan_reasm *reasm,
       const void *buf, size_t buf_len, uint8_t offset)].
    Returns the [int] result together with the context as the call leaves
    it. [frag_first] and [frag_end] are [uint16_t]. *)
Definition lowpan_reasm_update (reasm : lowpan_reasm) (buf : list byte) (offset : Z)
  : outcome (Z * lowpan_reasm) :=
  let buf_len := Z.of_nat (length buf) in
  let frag_first := u16 (u8 offset * 8) in
  let frag_end := u16 (frag_first + buf_len) in
  if frag_end >? reasm_len reasm then Ret (- EINVAL, reasm)
  else if negb (frag_end =? reasm_len reasm) && negb (buf_len mod 8 =? 0)
  then Ret (- EINVAL, reasm)
  else
    match reasm_punch frag_first frag_end false [] [] (reasm_holes reasm) with
    | None => Undef
    | Some hs =>
        match memcpy_at (reasm_buf reasm) frag_first buf with
        | None => Undef
        | Some b => Ret (0, set_buf (set_holes reasm hs) b)
        end
    end.

(** [struct lowpan_frag_ctx]. *)
Record lowpan_frag_ctx : Type := mk_frag_ctx {
  reasm_timeout_ms : Z;
  reasm_list : list lowpan_reasm
}.

(** The object built by [lowpan_reasm_new] before it is linked: [zalloc]
    gives [len] zero bytes, one hole spans the whole datagram, and the
    expiry timer is started. [len] is a [uint16_t] parameter. *)
Definition lowpan_reasm_init (ctx : lowpan_frag_ctx) (src dst tag len : Z)
  : lowpan_reasm :=
  let reasm := mk_reasm src dst (u16 len) (u16 tag) None []
                        (replicate (Z.to_nat (u16 len)) x00) in
  let reasm := lowpan_hole_add reasm 0 (u16 len) in
  mk_reasm (reasm_src reasm) (reasm_dst reasm) (reasm_len reasm) (reasm_tag reasm)
           (Some (reasm_timeout_ms ctx)) (reasm_holes reasm) (reasm_buf reasm).

(** [lowpan_reasm_new]: the new context is inserted at the head of
    [ctx->reasm_list]; the returned pointer is position 0. *)
Definition lowpan_reasm_new (ctx : lowpan_frag_ctx) (src dst tag len : Z)
  : lowpan_frag_ctx :=
  mk_frag_ctx (reasm_timeout_ms ctx)
              (lowpan_reasm_init ctx src dst tag len :: reasm_list ctx).

(** [lowpan_reasm_get]: position of the first context matching
    (src, dst, tag, len). *)
Definition reasm_matches (src dst tag len : Z) (reasm : lowpan_reasm) : bool :=
  (reasm_src reasm =? src) && (reasm_dst reasm =? dst) &&
  (reasm_tag reasm =? tag) && (reasm_len reasm =? len).

Fixpoint lowpan_reasm_get_from (i : nat) (l : list lowpan_reasm)
    (src dst tag len : Z) : option nat :=
  match l with
  | [] => None
  | reasm :: l' =>
      if reasm_matches src dst tag len reasm then Some i
      else lowpan_reasm_get_from (S i) l' src dst tag len
  end.

Definition lowpan_reasm_get (ctx : lowpan_frag_ctx) (src dst tag len : Z) : option nat :=
  lowpan_reasm_get_from 0%nat (reasm_list ctx) src dst tag len.

(** [lowpan_reasm_del]: frees the holes, unlinks the context, stops its
    timer. *)
Definition lowpan_reasm_del (ctx : lowpan_frag_ctx) (i : nat) : lowpan_frag_ctx :=
  mk_frag_ctx (reasm_timeout_ms ctx) (delete i (reasm_list ctx)).

(** [struct pktbuf], as far as [lowpan_frag_recv] uses it after the
    fragment header has been popped: the remaining bytes and the error
    flag. *)
Record pktbuf : Type := mk_pktbuf {
  pkt_data : list byte;
  pkt_err  : bool
}.

(** The fields [lowpan_frag_recv] pops from the head of the frame
    ([pktbuf_pop_head_be16], [pktbuf_pop_head_u8]): whether the dispatch is
    FRAG1, the datagram size and tag, and the offset byte of a FRAGN. *)
Record frag_header : Type := mk_frag_header {
  hdr_is_frag1 : bool;
  hdr_len      : Z;
  hdr_tag      : Z;
  hdr_offset   : Z
}.

Section LowpanFragRecv.
(** External collaborators of [lowpan_frag_recv] (6lowpan_iphc.c):
    whether a dispatch byte is a LOWPAN_IPHC dispatch, header
    decompression of the first fragment (the new packet buffer), and the
    final pass over the reassembled datagram ([int] result and buffer). *)
Variable LOWPAN_DISPATCH_IS_IPHC : byte -> bool.
Variable lowpan_iphc_decmpr : pktbuf -> Z -> Z -> pktbuf.
Variable lowpan_iphc_decmpr_finish : list byte -> Z -> Z * list byte.

(** [reasm = lowpan_reasm_get(...); if (!reasm) reasm = lowpan_reasm_new(...)]:
    the fragment context and the position of [reasm] in its list. *)
Definition frag_recv_reasm (ctx : lowpan_frag_ctx) (src dst tag len : Z)
  : lowpan_frag_ctx * nat :=
  match lowpan_reasm_get ctx src dst tag len with
  | Some i => (ctx, i)
  | None => (lowpan_reasm_new ctx src dst tag len, 0%nat)
  end.

(** The [if (LOWPAN_DISPATCH_IS_FRAG1(dispatch))] block: a negative value
    when the function returns from it, and the packet buffer. *)
Definition frag_recv_decmpr (hdr : frag_header) (pkt : pktbuf) (src dst : Z)
  : Z * pktbuf :=
  if hdr_is_frag1 hdr then
    match pkt_data pkt with
    | [] => (- EINVAL, pkt)
    | dispatch :: _ =>
        if negb (LOWPAN_DISPATCH_IS_IPHC dispatch)
        then (- ENOTSUP, mk_pktbuf (pkt_data pkt) true)
        else (0, lowpan_iphc_decmpr pkt src dst)
    end
  else (0, pkt).

(** [int lowpan_frag_recv(ctx, pktbuf, src, dst)] from the point where
    the fragment header has been popped. Returns the [int] result, the
    fragment context and the packet buffer. *)
Definition lowpan_frag_recv (ctx : lowpan_frag_ctx) (hdr : frag_header)
    (pkt : pktbuf) (src dst : Z) : outcome (Z * lowpan_frag_ctx * pktbuf) :=
  let len := hdr_len hdr in
  let tag := hdr_tag hdr in
  let offset := if hdr_is_frag1 hdr then 0 else hdr_offset hdr in
  if pkt_err pkt then Ret (- EINVAL, ctx, pkt) else
  let '(ctx, i) := frag_recv_reasm ctx src dst tag len in
  let '(early, pkt) := frag_recv_decmpr hdr pkt src dst in
  if early <? 0 then Ret (early, ctx, pkt) else
  if pkt_err pkt then Ret (- EINVAL, ctx, pkt) else
  match reasm_list ctx !! i with
  | None => Undef
  | Some reasm =>
      '(ret, reasm') ← lowpan_reasm_update reasm (pkt_data pkt) offset;
      let ctx := mk_frag_ctx (reasm_timeout_ms ctx) (<[i := reasm']> (reasm_list ctx)) in
      if ret <? 0 then Ret (ret, ctx, mk_pktbuf (pkt_data pkt) true)
      else
        match reasm_holes reasm' with
        | _ :: _ => Ret (- EAGAIN, ctx, pkt)
        | [] =>
            let '(ret, full) :=
              lowpan_iphc_decmpr_finish (reasm_buf reasm') (reasm_len reasm') in
            Ret (ret, lowpan_reasm_del ctx i, mk_pktbuf full (ret <? 0))
        end
  end.
End LowpanFragRecv.

(** Feeding fragments [(offset, payload)] one after the other; [None] as
    soon as one call does not return 0. *)
Fixpoint reasm_feed (reasm : lowpan_reasm) (frags : list (Z * list byte))
  : option lowpan_reasm :=
  match frags with
  | [] => Some reasm
  | (offset, payload) :: frags' =>
      match lowpan_reasm_update reasm payload offset with
      | Ret (0, reasm') => reasm_feed reasm' frags'
      | _ => None
      end
  end.

(** Splitting a datagram at 8-byte aligned offsets: [sizes] gives the
    length of every fragment but the last in units of 8 bytes, the last
    fragment takes what is left. [off] is the offset of the first fragment
    in units of 8 bytes. *)
Fixpoint dgram_split (off : Z) (data : list byte) (sizes : list nat)
  : list (Z * list byte) :=
  match sizes with
  | [] => [(off, data)]
  | n :: sizes' =>
      (off, take (8 * n) data) ::
      dgram_split (off + Z.of_nat n) (drop (8 * n) data) sizes'
  end.

(** Octet [i] is missing according to the hole list. *)
Definition in_hole (i : Z) (hole : lowpan_hole) : bool :=
  (hole_first hole <=? i) && (i <? hole_end hole).

Definition missing (hs : list lowpan_hole) (i : Z) : bool :=
  existsb (in_hole i) hs.

(** Contexts that [lowpan_frag_recv] can hold: created by
    [lowpan_reasm_new] and updated by calls that returned. *)
Inductive reasm_reachable : lowpan_reasm -> Prop :=
| reach_new ctx src dst tag len :
    reasm_reachable (lowpan_reasm_init ctx src dst tag len)
| reach_update reasm buf offset ret reasm' :
    reasm_reachable reasm ->
    lowpan_reasm_update reasm buf offset = Ret (ret, reasm') ->
    reasm_reachable reasm'.

(** How many holes of the list contain octet [i]. *)
Fixpoint cover (hs : list lowpan_hole) (i : Z) : nat :=
  match hs with
  | [] => 0
  | hole :: hs' => ((if in_hole i hole then 1 else 0) + cover hs' i)%nat
  end.

(** Octet [i] lies in the range of a fragment. *)
Definition in_frag (frag_first frag_end i : Z) : bool :=
  (frag_first <=? i) && (i <? frag_end).

(** The range of octets of a fragment [(offset, payload)]. *)
Definition frag_lo (f : Z * list byte) : Z := fst f * 8.
Definition frag_hi (f : Z * list byte) : Z := fst f * 8 + Z.of_nat (length (snd f)).

Definition covered (frags : list (Z * list byte)) (i : Z) : bool :=
  existsb (fun f => in_frag (frag_lo f) (frag_hi f) i) frags.

(** The two format checks at the head of [lowpan_reasm_update]. *)
Definition frag_rejected (reasm : lowpan_reasm) (buf : list byte) (offset : Z) : bool :=
  let frag_first := u16 (u8 offset * 8) in
  let frag_end := u16 (frag_first + Z.of_nat (length buf)) in
  (frag_end >? reasm_len reasm) ||
  (negb (frag_end =? reasm_len reasm) && negb (Z.of_nat (length buf) mod 8 =? 0)).

(** The invariant of reassembly contexts: the buffer has [len] bytes, no
    octet is in two holes, every hole lies inside the datagram and is not
    empty (but for the hole of an empty datagram). *)
Record reasm_wf (r : lowpan_reasm) : Prop := mk_reasm_wf {
  wf_len : 0 <= reasm_len r < 2 ^ 16;
  wf_buf : Z.of_nat (length (reasm_buf r)) = reasm_len r;
  wf_disjoint : forall i, (cover (reasm_holes r) i <= 1)%nat;
  wf_range : Forall (fun h => 0 <= hole_first h /\ hole_end h <= reasm_len r)
                    (reasm_holes r);
  wf_nonempty : Forall (fun h => hole_first h < hole_end h \/ reasm_len r = 0)
                       (reasm_holes r)
}.

(* ================================================================= *)
(** ** supplicant_storage.c: restoring the key storage *)

(** [fnmatch(pattern, string, 0)] for the patterns used here: a backslash
    quotes the next character, [*] matches any run of characters, every
    other character (a lone closing bracket included) matches itself. *)
Inductive glob_token : Type :=
| GLit (c : ascii)
| GStar.

Fixpoint glob_tokens (pattern : string) (quoted : bool) : list glob_token :=
  match pattern with
  | EmptyString => []
  | String c p =>
      if quoted then GLit c :: glob_tokens p false
      else if Ascii.eqb c "\"%char then glob_tokens p true
      else if Ascii.eqb c "*"%char then GStar :: glob_tokens p false
      else GLit c :: glob_tokens p false
  end.

Fixpoint glob_match (toks : list glob_token) (s : string) : bool :=
  match toks with
  | [] => match s with EmptyString => true | _ => false end
  | GLit c :: toks' =>
      match s with
      | String c' s' => Ascii.eqb c c' && glob_match toks' s'
      | EmptyString => false
      end
  | GStar :: toks' =>
      (fix skip (s : string) : bool :=
         glob_match toks' s ||
         match s with
         | String _ s' => skip s'
         | EmptyString => false
         end) s
  end.

Definition FNM_NOMATCH : Z := 1.

Definition fnmatch (pattern s : string) : Z :=
  if glob_match (glob_tokens pattern false) s then 0 else FNM_NOMATCH.

(** Reading a decimal number, for the examples: the digits at the head of
    the string. *)
Fixpoint decimal_value (s : string) (acc : Z) : Z :=
  match s with
  | EmptyString => acc
  | String c s' =>
      let d := Z.of_nat (nat_of_ascii c) - 48 in
      if (0 <=? d) && (d <=? 9) then decimal_value s' (10 * acc + d) else acc
  end.

(** One line as [storage_parse_line] leaves it in
    [struct storage_parse_info]; [line_ret] is its return value (0 for a
    well formed [key = value] line). *)
Record storage_parse_info : Type := mk_line {
  line_ret        : Z;
  line_key        : string;
  key_array_index : Z;
  line_value      : string
}.

(** [struct ws_gtk]: [expiration_timer] is [Some t] while the timer is
    armed to expire at [t]. *)
Record ws_gtk : Type := mk_gtk {
  gtk_key          : list byte;
  frame_counter    : Z;
  expiration_timer : option Z
}.

Definition set_gtk_key (g : ws_gtk) (k : list byte) : ws_gtk :=
  mk_gtk k (frame_counter g) (expiration_timer g).
Definition set_frame_counter (g : ws_gtk) (fc : Z) : ws_gtk :=
  mk_gtk (gtk_key g) fc (expiration_timer g).
Definition set_expiration_timer (g : ws_gtk) (t : option Z) : ws_gtk :=
  mk_gtk (gtk_key g) (frame_counter g) t.

(** The part of [struct supp_ctx] the storage touches. [gtk_changes]
    records the calls of [supp->on_gtk_change] (key, frame counter, index),
    the latest first. *)
Record supp_ctx : Type := mk_supp {
  cfg_eui64          : list byte;
  pmk_key            : list byte;
  pmk_installation_s : Z;
  pmk_replay_counter : Z;
  ptk_key            : list byte;
  ptk_installation_s : Z;
  gtks               : list ws_gtk;
  gtk_changes        : list (list byte * Z * Z)
}.

Definition set_pmk (supp : supp_ctx) (k : list byte) (now_s : Z) : supp_ctx :=
  mk_supp (cfg_eui64 supp) k now_s (pmk_replay_counter supp)
          (ptk_key supp) (ptk_installation_s supp) (gtks supp) (gtk_changes supp).
Definition set_pmk_replay_counter (supp : supp_ctx) (c : Z) : supp_ctx :=
  mk_supp (cfg_eui64 supp) (pmk_key supp) (pmk_installation_s supp) c
          (ptk_key supp) (ptk_installation_s supp) (gtks supp) (gtk_changes supp).
Definition set_ptk (supp : supp_ctx) (k : list byte) (now_s : Z) : supp_ctx :=
  mk_supp (cfg_eui64 supp) (pmk_key supp) (pmk_installation_s supp)
          (pmk_replay_counter supp) k now_s (gtks supp) (gtk_changes supp).
Definition set_gtks (supp : supp_ctx) (l : list ws_gtk) : supp_ctx :=
  mk_supp (cfg_eui64 supp) (pmk_key supp) (pmk_installation_s supp)
          (pmk_replay_counter supp) (ptk_key supp) (ptk_installation_s supp)
          l (gtk_changes supp).
Definition add_gtk_change (supp : supp_ctx) (c : list byte * Z * Z) : supp_ctx :=
  mk_supp (cfg_eui64 supp) (pmk_key supp) (pmk_installation_s supp)
          (pmk_replay_counter supp) (ptk_key supp) (ptk_installation_s supp)
          (gtks supp) (c :: gtk_changes supp).

Definition FRAME_COUNTER_OFFSET : Z := 200000.

(** The branch of the [if / else if] chain of [supp_storage_load] a key
    takes; the patterns are tried in the order of the source. *)
Inductive storage_key : Type :=
| KEui64 | KPmk | KPmkReplayCounter | KPtk
| KGtk | KGtkExpiration | KGtkFrameCounter
| KLgtk | KLgtkExpiration | KLgtkFrameCounter
| KInvalid.

Definition storage_key_of (key : string) : storage_key :=
  if fnmatch "eui64" key =? 0 then KEui64
  else if fnmatch "pmk" key =? 0 then KPmk
  else if fnmatch "pmk.replay_counter" key =? 0 then KPmkReplayCounter
  else if fnmatch "ptk" key =? 0 then KPtk
  else if fnmatch "gtk\[*]" key =? 0 then KGtk
  else if fnmatch "gtk\[*].expiration_timestamp_ms" key =? 0 then KGtkExpiration
  else if fnmatch "gtk\[*].frame_counter" key =? 0 then KGtkFrameCounter
  else if fnmatch "lgtk\[*]" key =? 0 then KLgtk
  else if fnmatch "lgtk\[*].expiration_timestamp_ms" key =? 0 then KLgtkExpiration
  else if fnmatch "lgtk\[*].frame_counter" key =? 0 then KLgtkFrameCounter
  else KInvalid.

(** Writing element [i] of a C array of [length l] elements; an index
    outside the array is undefined. *)
Definition array_set {A : Type} (l : list A) (i : Z) (f : A -> A) : outcome (list A) :=
  if (0 <=? i) && (i <? Z.of_nat (length l))
  then match l !! Z.to_nat i with
       | Some x => Ret (<[Z.to_nat i := f x]> l)
       | None => Undef
       end
  else Undef.

Section SuppStorage.
(** Not part of these sources: the array sizes of [common/specs/ws.h],
    the parsers ([parse_byte_array] gives [None] when it returns
    non-zero), the C library conversions, the clocks read at the start of
    the load, and [ws_gtk_clear]. *)
Variables WS_GTK_COUNT WS_LGTK_COUNT : Z.
Variable parse_byte_array : Z -> string -> option (list byte).
Variables strtoul strtoull strtoll : string -> Z.
Variables storage_offset_ms now_ms now_s : Z.
Variable ws_gtk_clear : ws_gtk -> ws_gtk.

(** [eui64_eq]: the two identifiers have the same bytes. *)
Definition eui64_eq (a b : list byte) : bool := bool_decide (a = b).

Definition parse_gtk_key (supp : supp_ctx) (idx : Z) (value : string)
  : outcome supp_ctx :=
  l ← array_set (gtks supp) idx (fun g => g);
  match parse_byte_array 16 value with
  | None => Abort "invalid key"
  | Some k =>
      l ← array_set (gtks supp) idx (fun g => set_gtk_key g k);
      Ret (set_gtks supp l)
  end.

Definition load_frame_counter (supp : supp_ctx) (idx : Z) (value : string)
  : outcome supp_ctx :=
  l ← array_set (gtks supp) idx
        (fun g => set_frame_counter g
                    (add32sat (u32 (strtoul value)) FRAME_COUNTER_OFFSET));
  Ret (set_gtks supp l).

(** The body of the [while (true)] loop for one line. [exp] is the local
    array [gtks_expiration_ts_ms]. *)
Definition supp_storage_load_line (st : supp_ctx * list Z)
    (info : storage_parse_info) : outcome (supp_ctx * list Z) :=
  let '(supp, exp) := st in
  if negb (line_ret info =? 0) then Ret st
  else
    match storage_key_of (line_key info) with
    | KEui64 =>
        match parse_byte_array 8 (line_value info) with
        | None => Abort "invalid eui64"
        | Some eui64 =>
            if eui64_eq eui64 (cfg_eui64 supp) then Ret st
            else Abort "eui64 mismatch between current and previous state loaded from storage"
        end
    | KPmk =>
        match parse_byte_array 32 (line_value info) with
        | None => Abort "invalid pmk"
        | Some k => Ret (set_pmk supp k now_s, exp)
        end
    | KPmkReplayCounter =>
        Ret (set_pmk_replay_counter supp (strtoll (line_value info)), exp)
    | KPtk =>
        match parse_byte_array 48 (line_value info) with
        | None => Abort "invalid ptk"
        | Some k => Ret (set_ptk supp k now_s, exp)
        end
    | KGtk =>
        supp ← parse_gtk_key supp (key_array_index info) (line_value info);
        Ret (supp, exp)
    | KGtkExpiration =>
        exp ← array_set exp (key_array_index info)
                (fun _ => strtoull (line_value info));
        Ret (supp, exp)
    | KGtkFrameCounter =>
        supp ← load_frame_counter supp (key_array_index info) (line_value info);
        Ret (supp, exp)
    | KLgtk =>
        supp ← parse_gtk_key supp (key_array_index info + WS_GTK_COUNT)
                 (line_value info);
        Ret (supp, exp)
    | KLgtkExpiration =>
        exp ← array_set exp (key_array_index info + WS_GTK_COUNT)
                (fun _ => strtoull (line_value info));
        Ret (supp, exp)
    | KLgtkFrameCounter =>
        supp ← load_frame_counter supp (key_array_index info + WS_GTK_COUNT)
                 (line_value info);
        Ret (supp, exp)
    | KInvalid => Ret st
    end.

(** The [while (true)] loop, until [storage_parse_line] returns [EOF]. *)
Fixpoint supp_storage_load_lines (st : supp_ctx * list Z)
    (lines : list storage_parse_info) : outcome (supp_ctx * list Z) :=
  match lines with
  | [] => Ret st
  | info :: lines' =>
      st ← supp_storage_load_line st info;
      supp_storage_load_lines st lines'
  end.

(** The slot a frame counter line writes, if it is one. *)
Definition frame_counter_slot (info : storage_parse_info) : option Z :=
  if negb (line_ret info =? 0) then None
  else match storage_key_of (line_key info) with
       | KGtkFrameCounter => Some (key_array_index info)
       | KLgtkFrameCounter => Some (key_array_index info + WS_GTK_COUNT)
       | _ => None
       end.

(** The counter written in the file, as the load reads it:
    [(uint32_t)strtoul(info->value, NULL, 0)]. *)
Definition stored_counter (info : storage_parse_info) : Z :=
  u32 (strtoul (line_value info)).

(** The body of the final [for] loop for slot [i]. *)
Definition supp_storage_install (supp : supp_ctx) (exp : list Z) (i : nat)
  : supp_ctx :=
  match exp !! i, gtks supp !! i with
  | Some ts, Some g =>
      if ts =? 0 then supp
      else if (storage_offset_ms >? ts) || (now_ms >? ts - storage_offset_ms)
      then set_gtks supp (<[i := ws_gtk_clear g]> (gtks supp))
      else
        let g := set_expiration_timer g (Some (ts - storage_offset_ms)) in
        add_gtk_change (set_gtks supp (<[i := g]> (gtks supp)))
                       (gtk_key g, frame_counter g, Z.of_nat i + 1)
  | _, _ => supp
  end.

(** [bool supp_storage_load(struct supp_ctx *supp)]. [file] is what
    [storage_open_prefix("network-keys", "r")] gives: [None] when the
    file cannot be opened, else its lines. *)
Definition supp_storage_load (supp : supp_ctx)
    (file : option (list storage_parse_info)) : outcome (bool * supp_ctx) :=
  match file with
  | None => Ret (false, supp)
  | Some lines =>
      let exp := replicate (Z.to_nat (WS_GTK_COUNT + WS_LGTK_COUNT)) 0 in
      '(supp, exp) ← supp_storage_load_lines (supp, exp) lines;
      Ret (true, foldl (fun supp i => supp_storage_install supp exp i) supp
                       (seq 0 (Z.to_nat (WS_GTK_COUNT + WS_LGTK_COUNT))))
  end.
End SuppStorage.

(* ================================================================= *)
(** ** The C type [float]: IEEE 754 binary32

    A [float] is a NaN, an infinity or a finite rational value. Every
    operation computes the exact result and rounds it to the nearest
    binary32 number, ties to even ([f32_round]), as IEEE 754 prescribes for
    [+], [-], [*], [/] and the conversion from [int]. The sign of zero is
    not kept: comparisons do not see it and a zero divisor is taken as
    [+0]. *)

Inductive float : Type :=
| FNaN
| FInf (neg : bool)
| FFin (q : Q).

Definition pow2 (e : Z) : Q := (2 ^ e)%Q.

(** [ilog2 q] is the integer [k] with [2^k <= q < 2^(k+1)], for [q > 0]. *)
Definition ilog2 (q : Q) : Z :=
  let k := Z.log2 (Qnum q) - Z.log2 (Z.pos (Qden q)) in
  if Qle_bool (pow2 k) q then k else k - 1.

(** Rounding to the nearest integer, ties to even. *)
Definition rne (x : Q) : Z :=
  let f := Qfloor x in
  match (x - inject_Z f ?= 1 # 2)%Q with
  | Lt => f
  | Gt => f + 1
  | Eq => if Z.even f then f else f + 1
  end.

(** The exponent of the last place of binary32 numbers near [q]: 24 bits of
    precision, smallest exponent -149. *)
Definition f32_exp (q : Q) : Z := Z.max (ilog2 (Qabs q) - 23) (- 149).

Definition f32_round (q : Q) : float :=
  if Qeq_bool q 0 then FFin 0
  else
    let e := f32_exp q in
    let v := (inject_Z (rne (q / pow2 e)) * pow2 e)%Q in
    if Qle_bool (pow2 128) (Qabs v)
    then FInf (if Qle_bool 0 q then false else true)
    else FFin (Qred v).

(** The exact value [f32_round] gives to [q] before the overflow test. *)
Definition f32_val (q : Q) : Q :=
  (inject_Z (rne (q / pow2 (f32_exp q))) * pow2 (f32_exp q))%Q.

Definition isnan (x : float) : bool :=
  match x with FNaN => true | _ => false end.

(** Conversion of an [int] to [float]. *)
Definition f32_of_int (z : Z) : float := f32_round (inject_Z z).

Definition fneg (x : float) : float :=
  match x with
  | FNaN => FNaN
  | FInf s => FInf (negb s)
  | FFin q => FFin (- q)
  end.

Definition fadd (x y : float) : float :=
  match x, y with
  | FNaN, _ | _, FNaN => FNaN
  | FInf sx, FInf sy => if Bool.eqb sx sy then x else FNaN
  | FInf _, FFin _ => x
  | FFin _, FInf _ => y
  | FFin a, FFin b => f32_round (a + b)
  end.

Definition fsub (x y : float) : float :=
  match x, y with
  | FNaN, _ | _, FNaN => FNaN
  | FInf sx, FInf sy => if Bool.eqb sx sy then FNaN else x
  | FInf _, FFin _ => x
  | FFin _, FInf sy => FInf (negb sy)
  | FFin a, FFin b => f32_round (a - b)
  end.

Definition Qneg (q : Q) : bool := if Qle_bool 0 q then false else true.

Definition fmul (x y : float) : float :=
  match x, y with
  | FNaN, _ | _, FNaN => FNaN
  | FInf sx, FInf sy => FInf (xorb sx sy)
  | FInf s, FFin q | FFin q, FInf s =>
      if Qeq_bool q 0 then FNaN else FInf (xorb s (Qneg q))
  | FFin a, FFin b => f32_round (a * b)
  end.

Definition fdiv (x y : float) : float :=
  match x, y with
  | FNaN, _ | _, FNaN => FNaN
  | FInf _, FInf _ => FNaN
  | FInf s, FFin q => FInf (xorb s (Qneg q))
  | FFin _, FInf _ => FFin 0
  | FFin a, FFin b =>
      if Qeq_bool b 0
      then if Qeq_bool a 0 then FNaN else FInf (Qneg a)
      else f32_round (a / b)
  end.

(** [x < y]; false as soon as one operand is a NaN. *)
Definition flt (x y : float) : bool :=
  match x, y with
  | FNaN, _ | _, FNaN => false
  | FInf sx, FInf sy => sx && negb sy
  | FInf sx, FFin _ => sx
  | FFin _, FInf sy => negb sy
  | FFin a, FFin b => negb (Qle_bool b a)
  end.

(** [x <= y]; false as soon as one operand is a NaN. *)
Definition fle (x y : float) : bool :=
  match x, y with
  | FNaN, _ | _, FNaN => false
  | FInf sx, FInf sy => sx || negb sy
  | FInf sx, FFin _ => sx
  | FFin _, FInf sy => negb sy
  | FFin a, FFin b => Qle_bool a b
  end.

Definition fgt (x y : float) : bool := flt y x.
Definition fge (x y : float) : bool := fle y x.

(** The macros [MIN] and [MAX] of mathutils.h on [float] operands:
    [_x < _y ? _x : _y] and [_x > _y ? _x : _y]. *)
Definition MIN_f (x y : float) : float := if flt x y then x else y.
Definition MAX_f (x y : float) : float := if fgt x y then x else y.

(** Conversion of a [float] to [uint16_t]: the fraction is discarded; the
    conversion is undefined when the result does not fit. *)
Definition f32_to_u16 (x : float) : outcome Z :=
  match x with
  | FFin q =>
      let t := if Qle_bool 0 q then Qfloor q else - Qfloor (- q) in
      if (0 <=? t) && (t <=? UINT16_MAX) then Ret t else Undef
  | _ => Undef
  end.

(* ================================================================= *)
(** ** Timers (common/timer.h), as far as these modules use them

    Modelled from the spec: the timer facility is not part of these
    sources. A [timer_entry] is stopped ([None]) or running with the delay
    it was started with; a timer that fires without a period is stopped
    before its callback runs. *)

Definition timer_entry : Type := option Z.

Definition timer_stopped (t : timer_entry) : bool :=
  match t with None => true | Some _ => false end.

Definition timer_start_rel (delay_ms : Z) : timer_entry := Some delay_ms.
Definition timer_stop : timer_entry := None.

(* ================================================================= *)
(** ** common/ws/ws_ewma.h and common/ws/ws_etx.c *)

(** [static inline float ws_ewma_next(float cur, float val, float smoothing_factor)] *)
Definition ws_ewma_next (cur val smoothing_factor : float) : float :=
  if isnan cur then val
  else fadd (fmul smoothing_factor (fsub val cur)) cur.

(** [struct ws_etx]; the counters are C [int]s. *)
Record ws_etx : Type := mk_etx {
  etx            : float;
  tx_cnt         : Z;
  ack_cnt        : Z;
  tx_req_cnt     : Z;
  compute_cnt    : Z;
  timer_compute  : timer_entry;
  timer_outdated : timer_entry
}.

(** [struct ws_etx_ctx]; a callback field says whether the function
    pointer is set. *)
Record ws_etx_ctx : Type := mk_etx_ctx {
  on_etx_outdated       : bool;
  on_etx_update         : bool;
  update_min_tx_req_cnt : Z;
  update_min_delay_ms   : Z;
  refresh_period_ms     : Z
}.

(** The calls made through the callbacks of [struct ws_etx_ctx]. *)
Inductive etx_callback : Type :=
| OnEtxOutdated
| OnEtxUpdate.

Definition WS_ETX_MAX : Z := 1024.

Definition int_in_range (z : Z) : bool := (INT_MIN <=? z) && (z <=? INT_MAX).

(** [static void ws_etx_timeout_compute(group, timer)]: the new estimator
    state and the callbacks invoked, in order. *)
Definition ws_etx_timeout_compute (ctx : ws_etx_ctx) (e : ws_etx)
  : ws_etx * list etx_callback :=
  if negb ((tx_req_cnt e >=? update_min_tx_req_cnt ctx) || isnan (etx e))
  then
    if timer_stopped (timer_outdated e) && on_etx_outdated ctx
    then (e, [OnEtxOutdated])
    else (e, [])
  else
    let raw :=
      if negb (ack_cnt e =? 0)
      then MIN_f (fmul (fdiv (f32_of_int (tx_cnt e)) (f32_of_int (ack_cnt e)))
                       (f32_of_int 128))
                 (f32_of_int WS_ETX_MAX)
      else f32_of_int WS_ETX_MAX in
    let compute_cnt' :=
      if compute_cnt e <? 8 then compute_cnt e + 1 else compute_cnt e in
    let new_etx :=
      ws_ewma_next (etx e) raw (fdiv (f32_of_int 1) (f32_of_int compute_cnt')) in
    (mk_etx new_etx 0 0 0 compute_cnt'
            (timer_start_rel (update_min_delay_ms ctx))
            (timer_start_rel (refresh_period_ms ctx)),
     if on_etx_update ctx then [OnEtxUpdate] else []).

(** [static void ws_etx_timeout_outdated(group, timer)] *)
Definition ws_etx_timeout_outdated (ctx : ws_etx_ctx) (e : ws_etx)
  : ws_etx * list etx_callback :=
  (e, if on_etx_outdated ctx then [OnEtxOutdated] else []).

(** [void ws_etx_init(struct ws_etx *ws_etx)]: the timers are left as they
    are, only their callbacks are set. *)
Definition ws_etx_init (e : ws_etx) : ws_etx :=
  mk_etx FNaN 0 0 0 0 (timer_compute e) (timer_outdated e).

(** [void ws_etx_reset(ctx, ws_etx)] *)
Definition ws_etx_reset (ctx : ws_etx_ctx) (e : ws_etx) : ws_etx :=
  ws_etx_init (mk_etx (etx e) (tx_cnt e) (ack_cnt e) (tx_req_cnt e)
                      (compute_cnt e) timer_stop timer_stop).

(** [void ws_etx_update(ctx, ws_etx, int tx_count, bool ack)]; overflow of
    an [int] counter is undefined. *)
Definition ws_etx_update (ctx : ws_etx_ctx) (e : ws_etx) (tx_count : Z) (ack : bool)
  : outcome ws_etx :=
  let tx_req_cnt' := tx_req_cnt e + 1 in
  let tx_cnt' := tx_cnt e + tx_count in
  let ack_cnt' := ack_cnt e + (if ack then 1 else 0) in
  if int_in_range tx_req_cnt' && int_in_range tx_cnt' && int_in_range ack_cnt'
  then Ret (mk_etx (etx e) tx_cnt' ack_cnt' tx_req_cnt' (compute_cnt e)
                   (if timer_stopped (timer_compute e)
                    then timer_start_rel 0 else timer_compute e)
                   (timer_outdated e))
  else Undef.

(** What happens to an estimator: a TX confirmation, one of its two timers
    firing, or a reset. *)
Inductive etx_event : Type :=
| EvUpdate (tx_count : Z) (ack : bool)
| EvComputeTimer
| EvOutdatedTimer
| EvReset.

Definition stop_compute (e : ws_etx) : ws_etx :=
  mk_etx (etx e) (tx_cnt e) (ack_cnt e) (tx_req_cnt e) (compute_cnt e)
         timer_stop (timer_outdated e).

Definition stop_outdated (e : ws_etx) : ws_etx :=
  mk_etx (etx e) (tx_cnt e) (ack_cnt e) (tx_req_cnt e) (compute_cnt e)
         (timer_compute e) timer_stop.

Definition etx_step (ctx : ws_etx_ctx) (e : ws_etx) (ev : etx_event)
  : outcome ws_etx :=
  match ev with
  | EvUpdate tx_count ack => ws_etx_update ctx e tx_count ack
  | EvComputeTimer => Ret (fst (ws_etx_timeout_compute ctx (stop_compute e)))
  | EvOutdatedTimer => Ret (fst (ws_etx_timeout_outdated ctx (stop_outdated e)))
  | EvReset => Ret (ws_etx_reset ctx e)
  end.

(** The epoch condition of [ws_etx_timeout_compute]: when it holds the
    handler computes a new ETX value. *)
Definition etx_epoch (ctx : ws_etx_ctx) (e : ws_etx) : bool :=
  (tx_req_cnt e >=? update_min_tx_req_cnt ctx) || isnan (etx e).

(** Whether a computation has occurred since the estimator was last
    (re)initialised, after one more event. *)
Definition etx_computed (ctx : ws_etx_ctx) (e : ws_etx) (computed : bool)
    (ev : etx_event) : bool :=
  match ev with
  | EvReset => false
  | EvComputeTimer => computed || etx_epoch ctx e
  | _ => computed
  end.

(** A run of events; the boolean tells whether a computation has occurred
    since the last (re)initialisation. *)
Fixpoint etx_run (ctx : ws_etx_ctx) (st : ws_etx * bool) (evs : list etx_event)
  : outcome (ws_etx * bool) :=
  match evs with
  | [] => Ret st
  | ev :: evs' =>
      e' ← etx_step ctx (fst st) ev;
      etx_run ctx (e', etx_computed ctx (fst st) (snd st) ev) evs'
  end.

(** *** Vocabulary for the properties of the estimator *)

(** A value of the range [[128, 1024]]. *)
Definition etx_in_range (x : float) : Prop :=
  exists q, x = FFin q /\ (128 <= q)%Q /\ (q <= 1024)%Q.

(** A TX confirmation counts at least the transmission that was
    acknowledged. *)
Definition etx_event_ok (ev : etx_event) : Prop :=
  match ev with
  | EvUpdate tx_count ack => (if ack then 1 else 0) <= tx_count
  | _ => True
  end.

(** What holds of an estimator between events; [computed] tells whether a
    computation has occurred since the last (re)initialisation. *)
Definition etx_inv (e : ws_etx) (computed : bool) : Prop :=
  0 <= ack_cnt e /\ ack_cnt e <= tx_cnt e /\ tx_cnt e <= INT_MAX /\
  if computed
  then etx_in_range (etx e) /\ 1 <= compute_cnt e /\ compute_cnt e <= 8
  else etx e = FNaN /\ compute_cnt e = 0.

(* ================================================================= *)
(** ** app_wsrd/ipv6/rpl_mrhof.c *)

(** Neighbor unreachability detection states (RFC 4861). *)
Inductive ipv6_nud_state : Type :=
| IPV6_NUD_INCOMPLETE
| IPV6_NUD_REACHABLE
| IPV6_NUD_STALE
| IPV6_NUD_DELAY
| IPV6_NUD_PROBE.

(** [struct rpl_neigh]: the fields of the last DIO are kept in host byte
    order (the source stores them in network order and reads them through
    [ntohs]); they are [uint16_t]. *)
Record rpl_neigh : Type := mk_rpl {
  dio_rank         : Z;
  min_hop_rank_inc : Z;
  max_rank_inc     : Z;
  is_parent        : bool;
  rsl_valid        : bool;
  deny_timer       : timer_entry
}.

(** [struct ipv6_neigh]: [rpl] is [None] for a NULL pointer. *)
Record ipv6_neigh : Type := mk_nce {
  nce_eui64 : Z;
  nud_state : ipv6_nud_state;
  rpl       : option rpl_neigh
}.

(** [struct ws_neigh] *)
Record ws_neigh : Type := mk_ws_neigh {
  ws_eui64             : Z;
  neigh_ws_etx         : ws_etx;
  rsl_in_dbm_unsecured : float;
  rsl_out_dbm          : float
}.

(** [struct rpl_mrhof] *)
Record rpl_mrhof : Type := mk_mrhof {
  max_link_metric         : float;
  max_path_cost           : float;
  parent_switch_threshold : float;
  device_min_sens_dbm     : Z;
  lowest_advertised_rank  : Z;
  ws_neigh_table          : list ws_neigh
}.

(** [struct ipv6_ctx]: the neighbor cache and [rpl.mrhof]. *)
Record ipv6_ctx : Type := mk_ipv6 {
  neigh_cache : list ipv6_neigh;
  mrhof       : rpl_mrhof
}.

Definition with_cache (ipv6 : ipv6_ctx) (l : list ipv6_neigh) : ipv6_ctx :=
  mk_ipv6 l (mrhof ipv6).

Definition set_rpl (nce : ipv6_neigh) (r : rpl_neigh) : ipv6_neigh :=
  mk_nce (nce_eui64 nce) (nud_state nce) (Some r).

Definition set_rsl_valid (r : rpl_neigh) (v : bool) : rpl_neigh :=
  mk_rpl (dio_rank r) (min_hop_rank_inc r) (max_rank_inc r) (is_parent r) v
         (deny_timer r).

Definition set_is_parent (r : rpl_neigh) (v : bool) : rpl_neigh :=
  mk_rpl (dio_rank r) (min_hop_rank_inc r) (max_rank_inc r) v (rsl_valid r)
         (deny_timer r).

Definition RPL_RANK_INFINITE : Z := 65535.

(** [ntohs] gives a [uint16_t]; the fields it reads are kept in host
    order here. *)
Definition ntohs (x : Z) : Z := u16 x.

(** [ws_neigh_get]: the first entry of the table with this EUI-64. *)
Definition ws_neigh_get (table : list ws_neigh) (eui64 : Z) : option ws_neigh :=
  List.find (fun neigh => ws_eui64 neigh =? eui64) table.

(** Modelled from the spec: [rpl_neigh_pref_parent] (rpl.c) is not part of
    these sources. The preferred parent is the neighbor whose [is_parent]
    flag is set; the cache is searched in list order and the result is the
    position of the entry. *)
Definition nce_is_parent (nce : ipv6_neigh) : bool :=
  match rpl nce with
  | Some r => is_parent r
  | None => false
  end.

Fixpoint find_index {A : Type} (p : A -> bool) (l : list A) : option nat :=
  match l with
  | [] => None
  | x :: l' => if p x then Some 0%nat else S <$> find_index p l'
  end.

Definition rpl_neigh_pref_parent (ipv6 : ipv6_ctx) : option nat :=
  find_index nce_is_parent (neigh_cache ipv6).

(** Modelled from the spec: [ipv6_nud_set_state] (ipv6_neigh.c) is not part
    of these sources. It moves the entry to the given state; entering
    PROBE is what starts the unicast neighbor solicitations. *)
Definition ipv6_nud_set_state (nce : ipv6_neigh) (st : ipv6_nud_state) : ipv6_neigh :=
  mk_nce (nce_eui64 nce) st (rpl nce).

(** Modelled from the spec: [rpl_dag_rank] (rpl.h) is not part of these
    sources. DAGRank(rank) = floor(rank / MinHopRankIncrease), RFC 6550
    3.5.1; dividing by zero is undefined. *)
Definition rpl_dag_rank (min_hop_rank_inc rank : Z) : outcome Z :=
  if min_hop_rank_inc =? 0 then Undef else Ret (u16 (rank / min_hop_rank_inc)).

(** [float rpl_mrhof_etx(ipv6, nce)] *)
Definition rpl_mrhof_etx (ipv6 : ipv6_ctx) (nce : ipv6_neigh) : float :=
  match ws_neigh_get (ws_neigh_table (mrhof ipv6)) (nce_eui64 nce) with
  | Some neigh => etx (neigh_ws_etx neigh)
  | None => FNaN
  end.

(** Reading [nce->rpl->...]: undefined through a NULL [rpl]. *)
Definition nce_rpl (nce : ipv6_neigh) : outcome rpl_neigh :=
  match rpl nce with
  | Some r => Ret r
  | None => Undef
  end.

(** [static float rpl_mrhof_path_cost(ipv6, nce)] *)
Definition rpl_mrhof_path_cost (ipv6 : ipv6_ctx) (nce : ipv6_neigh) : outcome float :=
  let etx := rpl_mrhof_etx ipv6 nce in
  if isnan etx then Ret (max_path_cost (mrhof ipv6))
  else r ← nce_rpl nce; Ret (fadd etx (f32_of_int (ntohs (dio_rank r)))).

(** [static uint16_t rpl_mrhof_path_rank(ipv6, nce)] *)
Definition rpl_mrhof_path_rank (ipv6 : ipv6_ctx) (nce : ipv6_neigh) : outcome Z :=
  path_cost ← rpl_mrhof_path_cost ipv6 nce;
  f32_to_u16 (MIN_f path_cost (f32_of_int UINT16_MAX)).

(** The first [SLIST_FOREACH] of [rpl_mrhof_rank]: the highest advertised
    rank in the parent set. *)
Fixpoint worst_advertised_rank (l : list ipv6_neigh) (worst_rank : Z) : Z :=
  match l with
  | [] => worst_rank
  | nce :: l' =>
      match rpl nce with
      | Some r =>
          if negb (is_parent r) then worst_advertised_rank l' worst_rank
          else if worst_rank >=? ntohs (dio_rank r)
          then worst_advertised_rank l' worst_rank
          else worst_advertised_rank l' (ntohs (dio_rank r))
      | None => worst_advertised_rank l' worst_rank
      end
  end.

(** The second [SLIST_FOREACH] of [rpl_mrhof_rank]: the highest path rank
    in the parent set. *)
Fixpoint worst_path_rank (ipv6 : ipv6_ctx) (l : list ipv6_neigh) (worst_rank : Z)
  : outcome Z :=
  match l with
  | [] => Ret worst_rank
  | nce :: l' =>
      if nce_is_parent nce
      then r ← rpl_mrhof_path_rank ipv6 nce;
           worst_path_rank ipv6 l' (Z.max worst_rank r)
      else worst_path_rank ipv6 l' worst_rank
  end.

(** [uint16_t rpl_mrhof_rank(ipv6, single_parent)]. The operands of the two
    [MAX] are promoted to [int]; the result is stored in a [uint16_t]. *)
Definition rpl_mrhof_rank (ipv6 : ipv6_ctx) (single_parent : option ipv6_neigh)
  : outcome Z :=
  let nce :=
    match single_parent with
    | Some nce => Some nce
    | None => i ← rpl_neigh_pref_parent ipv6; neigh_cache ipv6 !! i
    end in
  match nce with
  | None => Ret RPL_RANK_INFINITE
  | Some nce =>
      rank ← rpl_mrhof_path_rank ipv6 nce;
      r ← nce_rpl nce;
      let min_hop_rank_inc := ntohs (min_hop_rank_inc r) in
      let max_rank_inc := ntohs (max_rank_inc r) in
      let worst_rank :=
        match single_parent with
        | None => worst_advertised_rank (neigh_cache ipv6) 0
        | Some _ => ntohs (dio_rank r)
        end in
      if min_hop_rank_inc =? 0 then Undef else
      let rank :=
        u16 (Z.max rank (min_hop_rank_inc * (worst_rank / min_hop_rank_inc + 1))) in
      worst_rank ←
        (match single_parent with
         | None => worst_path_rank ipv6 (neigh_cache ipv6) 0
         | Some sp => rpl_mrhof_path_rank ipv6 sp
         end);
      Ret (u16 (Z.max rank (worst_rank - max_rank_inc)))
  end.

Section RplMrhof.
(** Constants of [common/specs/ws.h], which is not part of these
    sources. *)
Variables WS_CAND_PARENT_THRESHOLD_DB WS_CAND_PARENT_HYSTERESIS_DB : Z.

(** [static bool rpl_mrhof_candidate_rsl_is_valid(ipv6, nce)] *)
Definition rpl_mrhof_candidate_rsl_is_valid (ipv6 : ipv6_ctx) (nce : ipv6_neigh)
  : outcome bool :=
  match ws_neigh_get (ws_neigh_table (mrhof ipv6)) (nce_eui64 nce) with
  | None => Ret false
  | Some neigh =>
      if isnan (rsl_out_dbm neigh) then Ret false
      else if isnan (rsl_in_dbm_unsecured neigh)
      then Abort "BUG_ON(isnan(neigh->rsl_in_dbm_unsecured))"
      else
        r ← nce_rpl nce;
        if negb (rsl_valid r) then
          let threshold := f32_of_int
            (device_min_sens_dbm (mrhof ipv6) + WS_CAND_PARENT_THRESHOLD_DB
             + WS_CAND_PARENT_HYSTERESIS_DB) in
          Ret (fgt (rsl_in_dbm_unsecured neigh) threshold &&
               fgt (rsl_out_dbm neigh) threshold)
        else
          let threshold := f32_of_int
            (device_min_sens_dbm (mrhof ipv6) + WS_CAND_PARENT_THRESHOLD_DB
             - WS_CAND_PARENT_HYSTERESIS_DB) in
          Ret (negb (flt (rsl_in_dbm_unsecured neigh) threshold &&
                     flt (rsl_out_dbm neigh) threshold))
  end.

(** [static uint16_t rpl_mrhof_get_rank_limit(mrhof, max_rank_inc,
    min_hop_rank_inc)]; [rank_limit] is a [uint32_t]. *)
Definition rpl_mrhof_get_rank_limit (m : rpl_mrhof)
    (max_rank_inc min_hop_rank_inc : Z) : outcome Z :=
  max_dag_rank ← rpl_dag_rank min_hop_rank_inc
                   (add16sat (lowest_advertised_rank m) max_rank_inc);
  let rank_limit := u32 ((max_dag_rank + 1) * min_hop_rank_inc) in
  if rank_limit >=? UINT16_MAX then Ret RPL_RANK_INFINITE
  else Ret (u16 (rank_limit - 1)).

(** [const char *rpl_mrhof_check_candidate(ipv6, nce, rank_limit)]: the
    returned string ([None] for NULL) and the neighbor entry as the call
    leaves it. *)
Definition rpl_mrhof_check_candidate (ipv6 : ipv6_ctx) (nce : ipv6_neigh)
    (rank_limit : Z) : outcome (option string * ipv6_neigh) :=
  match rpl nce with
  | None => Abort "BUG_ON(!nce->rpl)"
  | Some r =>
      new_rank ← rpl_mrhof_rank ipv6 (Some nce);
      let etx := rpl_mrhof_etx ipv6 nce in
      if isnan etx then
        Ret (Some "etx"%string,
             match nud_state nce with
             | IPV6_NUD_PROBE => nce
             | _ => ipv6_nud_set_state nce IPV6_NUD_PROBE
             end)
      else
        v ← rpl_mrhof_candidate_rsl_is_valid ipv6 nce;
        let nce := set_rpl nce (set_rsl_valid r v) in
        if negb v then Ret (Some "rsl"%string, nce)
        else if fgt etx (max_link_metric (mrhof ipv6)) then Ret (Some "etx"%string, nce)
        else if negb (timer_stopped (deny_timer r)) then Ret (Some "denied"%string, nce)
        else if new_rank >? rank_limit then Ret (Some "rank"%string, nce)
        else Ret (None, nce)
  end.

(** The [SLIST_FOREACH] of [rpl_mrhof_select_parent]. The cache is
    [done ++ todo]: [done] are the entries visited so far, as the calls
    left them. The result is the cache, [pref_path_cost] and
    [pref_parent_new]. *)
Fixpoint select_scan (ipv6 : ipv6_ctx) (rank_limit : Z)
    (done todo : list ipv6_neigh) (pref_path_cost : float)
    (pref_parent_new : option nat)
  : outcome (list ipv6_neigh * float * option nat) :=
  match todo with
  | [] => Ret (done, pref_path_cost, pref_parent_new)
  | nce :: todo' =>
      match rpl nce with
      | None =>
          select_scan ipv6 rank_limit (done ++ [nce]) todo'
                      pref_path_cost pref_parent_new
      | Some _ =>
          let ipv6_now := with_cache ipv6 (done ++ todo) in
          path_cost ← rpl_mrhof_path_cost ipv6_now nce;
          new_rank ← rpl_mrhof_rank ipv6_now (Some nce);
          '(discard, nce') ← rpl_mrhof_check_candidate ipv6_now nce rank_limit;
          match discard with
          | Some _ =>
              select_scan ipv6 rank_limit (done ++ [nce']) todo'
                          pref_path_cost pref_parent_new
          | None =>
              if fge path_cost pref_path_cost
              then select_scan ipv6 rank_limit (done ++ [nce']) todo'
                               pref_path_cost pref_parent_new
              else select_scan ipv6 rank_limit (done ++ [nce']) todo'
                               path_cost (Some (length done))
          end
      end
  end.

Definition set_parent_flag (l : list ipv6_neigh) (i : nat) (v : bool)
  : list ipv6_neigh :=
  match l !! i with
  | Some nce =>
      match rpl nce with
      | Some r => <[i := set_rpl nce (set_is_parent r v)]> l
      | None => l
      end
  | None => l
  end.

(** The first lines of [rpl_mrhof_select_parent]: [cur_min_path_cost]. *)
Definition select_cur_min_path_cost (ipv6 : ipv6_ctx) (pref_parent_cur : option nat)
  : outcome float :=
  match pref_parent_cur with
  | Some i =>
      match neigh_cache ipv6 !! i with
      | Some cur =>
          r ← nce_rpl cur;
          if timer_stopped (deny_timer r) then rpl_mrhof_path_cost ipv6 cur
          else Ret (max_path_cost (mrhof ipv6))
      | None => Undef
      end
  | None => Ret (max_path_cost (mrhof ipv6))
  end.

(** [rank_limit] as [rpl_mrhof_select_parent] computes it. *)
Definition select_rank_limit (ipv6 : ipv6_ctx) (pref_parent_cur : option nat)
  : outcome Z :=
  match pref_parent_cur with
  | Some i =>
      match neigh_cache ipv6 !! i with
      | Some cur =>
          r ← nce_rpl cur;
          rpl_mrhof_get_rank_limit (mrhof ipv6) (ntohs (max_rank_inc r))
                                   (ntohs (min_hop_rank_inc r))
      | None => Undef
      end
  | None => Ret RPL_RANK_INFINITE
  end.

(** [struct ipv6_neigh *rpl_mrhof_select_parent(struct ipv6_ctx *ipv6)]:
    the position of the returned neighbor ([None] for NULL) and the
    context as the call leaves it. *)
Definition rpl_mrhof_select_parent (ipv6 : ipv6_ctx)
  : outcome (option nat * ipv6_ctx) :=
  let pref_parent_cur := rpl_neigh_pref_parent ipv6 in
  let m := mrhof ipv6 in
  cur_min_path_cost ← select_cur_min_path_cost ipv6 pref_parent_cur;
  rank_limit ← select_rank_limit ipv6 pref_parent_cur;
  '(cache, pref_path_cost, pref_parent_new) ←
    select_scan ipv6 rank_limit [] (neigh_cache ipv6) (max_path_cost m) None;
  let ipv6 := with_cache ipv6 cache in
  if bool_decide (pref_parent_new = pref_parent_cur) &&
     flt cur_min_path_cost (max_path_cost m)
  then Ret (pref_parent_cur, ipv6)
  else if flt cur_min_path_cost (max_path_cost m) &&
          flt pref_path_cost (max_path_cost m) &&
          fgt (fadd pref_path_cost (parent_switch_threshold m)) cur_min_path_cost
  then
    match pref_parent_cur with
    | None => Abort "BUG_ON(!pref_parent_cur)"
    | Some _ => Ret (pref_parent_cur, ipv6)
    end
  else
    let cache :=
      match pref_parent_cur with
      | Some i => set_parent_flag cache i false
      | None => cache
      end in
    let cache :=
      match pref_parent_new with
      | Some i => set_parent_flag cache i true
      | None => cache
      end in
    Ret (pref_parent_new, with_cache ipv6 cache).

(** *** Vocabulary for the properties of the objective function *)

(** The five exclusion conditions in the order the specification lists
    them. *)
Inductive exclusion : Type :=
| ExEtxUnknown
| ExRsl
| ExEtxAboveMax
| ExDenied
| ExRank.

(** The string [rpl_mrhof_check_candidate] returns for each reason. *)
Definition exclusion_diag (x : exclusion) : string :=
  match x with
  | ExEtxUnknown => "etx"
  | ExRsl => "rsl"
  | ExEtxAboveMax => "etx"
  | ExDenied => "denied"
  | ExRank => "rank"
  end.

(** The first condition that fails, taking them in order. *)
Fixpoint first_failing (conds : list (exclusion * bool)) : option exclusion :=
  match conds with
  | [] => None
  | (x, fails) :: conds' => if fails then Some x else first_failing conds'
  end.

(** The five conditions for a candidate: [rsl_ok] is the result of the
    RSL hysteresis check, [new_rank] the rank the node would take. *)
Definition exclusion_conds (ipv6 : ipv6_ctx) (nce : ipv6_neigh) (r : rpl_neigh)
    (rsl_ok : bool) (new_rank rank_limit : Z) : list (exclusion * bool) :=
  let etx := rpl_mrhof_etx ipv6 nce in
  [ (ExEtxUnknown, isnan etx);
    (ExRsl, negb rsl_ok);
    (ExEtxAboveMax, fgt etx (max_link_metric (mrhof ipv6)));
    (ExDenied, negb (timer_stopped (deny_timer r)));
    (ExRank, new_rank >? rank_limit) ].

(** A neighbor is admissible when [rpl_mrhof_check_candidate] returns
    NULL for it. *)
Definition admissible (ipv6 : ipv6_ctx) (rank_limit : Z) (nce : ipv6_neigh) : bool :=
  match rpl_mrhof_check_candidate ipv6 nce rank_limit with
  | Ret (None, _) => true
  | _ => false
  end.

(** The evaluation of a neighbor in the scan is defined: neither a
    [BUG_ON] nor undefined behaviour. *)
Definition evaluates (ipv6 : ipv6_ctx) (nce : ipv6_neigh) : bool :=
  match rpl_mrhof_check_candidate ipv6 nce 0 with
  | Ret _ => true
  | _ => false
  end.

Definition cache_evaluates (ipv6 : ipv6_ctx) : Prop :=
  Forall (fun nce => is_Some (rpl nce) -> evaluates ipv6 nce = true)
         (neigh_cache ipv6).

(** The path cost of a neighbor ([NaN] when it is not defined). *)
Definition path_cost_of (ipv6 : ipv6_ctx) (nce : ipv6_neigh) : float :=
  match rpl_mrhof_path_cost ipv6 nce with
  | Ret c => c
  | _ => FNaN
  end.

(** Position [a] holds the minimum-path-cost admissible candidate, of
    cost [c]: it is admissible, its cost is below [max_path_cost], no
    admissible neighbor is cheaper and those before it in the cache cost
    more. *)
Definition best_candidate (ipv6 : ipv6_ctx) (rank_limit : Z) (a : nat) (c : float)
  : Prop :=
  exists nce,
    neigh_cache ipv6 !! a = Some nce /\
    is_Some (rpl nce) /\
    admissible ipv6 rank_limit nce = true /\
    path_cost_of ipv6 nce = c /\
    flt c (max_path_cost (mrhof ipv6)) = true /\
    (forall j nce_j, neigh_cache ipv6 !! j = Some nce_j -> is_Some (rpl nce_j) ->
       admissible ipv6 rank_limit nce_j = true ->
       fle c (path_cost_of ipv6 nce_j) = true) /\
    (forall j nce_j, (j < a)%nat -> neigh_cache ipv6 !! j = Some nce_j ->
       is_Some (rpl nce_j) -> admissible ipv6 rank_limit nce_j = true ->
       flt c (path_cost_of ipv6 nce_j) = true).

(** What a selection run may not change on an entry other than by
    switching parents: the [is_parent] flag and the presence of RPL
    data. *)
Definition nce_flags (nce : ipv6_neigh) : bool * bool :=
  (nce_is_parent nce, bool_decide (is_Some (rpl nce))).

(** The number of neighbors whose [is_parent] flag is set. *)
Definition parent_count (l : list ipv6_neigh) : nat :=
  length (List.filter nce_is_parent l).
End RplMrhof.

(* ================================================================= *)
(** ** Values used in the examples *)

Definition ex_frag_ctx : lowpan_frag_ctx := mk_frag_ctx 60000 [].

(** The 40-byte datagram of the three-fragment scenario and its fragments
    [0,16), [16,32) and [32,40) delivered in the order 2, 1, 3. *)
Definition ex_dgram40 : list byte :=
  replicate 16 x01 ++ replicate 16 x02 ++ replicate 8 x03.

Definition ex_frags_213 : list (Z * list byte) :=
  [(2, replicate 16 x02); (0, replicate 16 x01); (4, replicate 8 x03)].

Definition ex_reasm24 : lowpan_reasm := lowpan_reasm_init ex_frag_ctx 1 2 7 24.

(** A stored session: the device identity and seven key slots. *)
Definition ex_eui64 : list byte := [x00; x0d; x6f; x00; x00; x12; x34; x56].

Definition ex_supp : supp_ctx :=
  mk_supp ex_eui64 [] 0 0 [] 0 (replicate 7 (mk_gtk (replicate 16 x00) 0 None)) [].

Definition ex_parse_byte_array (n : Z) (s : string) : option (list byte) :=
  if String.eqb s "00:0d:6f:00:00:12:34:56" then Some ex_eui64
  else if String.eqb s "00:0d:6f:00:00:12:34:57"
  then Some [x00; x0d; x6f; x00; x00; x12; x34; x57]
  else None.

Definition ex_strtoul (s : string) : Z := decimal_value s 0.

Definition ex_lines_fc : list storage_parse_info :=
  [mk_line 0 "gtk[1].frame_counter" 1 "4294900000";
   mk_line 0 "lgtk[0].frame_counter" 0 "1000"].

Definition ex_st_fc : supp_ctx * list Z :=
  Eval vm_compute in
    match supp_storage_load_lines 4 ex_parse_byte_array ex_strtoul ex_strtoul
            ex_strtoul 0 (ex_supp, replicate 7 0) ex_lines_fc with
    | Ret st => st
    | _ => (ex_supp, [])
    end.

(** An estimator with a previous computation whose outdated timer is still
    running, and one whose outdated timer has fired. *)
Definition ex_etx_ctx : ws_etx_ctx := mk_etx_ctx true true 4 60000 1800000.
Definition ex_etx_fresh : ws_etx := mk_etx (FFin 256) 1 1 1 1 None (Some 1800000).
Definition ex_etx_stale : ws_etx := mk_etx (FFin 256) 1 1 1 1 None None.

(** A run of an estimator: three transmissions for the first frame, then
    four more frames, one of them lost; the compute timer fires after the
    first frame and after the last. *)
Definition ex_etx_events : list etx_event :=
  [EvUpdate 3 true; EvComputeTimer;
   EvUpdate 1 false; EvUpdate 2 true; EvUpdate 1 true; EvUpdate 1 true; EvComputeTimer].

Definition ex_etx_run : ws_etx * bool :=
  Eval vm_compute in
    match etx_run ex_etx_ctx (ws_etx_init ex_etx_stale, false) ex_etx_events with
    | Ret st => st
    | _ => (ex_etx_stale, false)
    end.

(** Neighbors for the objective function: [ex_nb id rank parent] with RPL
    data, [ex_wn id etx] its link-layer entry. The MRHOF parameters are the
    ones of the Wi-SUN profile. *)
Definition ex_wn (id : Z) (x : float) : ws_neigh :=
  mk_ws_neigh id (mk_etx x 0 0 0 1 None (Some 1800000)) (FFin (-60)) (FFin (-60)).

Definition ex_nb (id rank : Z) (parent : bool) : ipv6_neigh :=
  mk_nce id IPV6_NUD_REACHABLE (Some (mk_rpl rank 128 0 parent true None)).

Definition ex_mrhof (table : list ws_neigh) : rpl_mrhof :=
  mk_mrhof (FFin 512) (FFin 32768) (FFin 192) (-93) 65535 table.

Definition ex_ipv6_unknown : ipv6_ctx :=
  mk_ipv6 [ex_nb 1 1000 false] (ex_mrhof []).

Definition ex_ipv6_lossy : ipv6_ctx :=
  mk_ipv6 [ex_nb 1 1000 false] (ex_mrhof [ex_wn 1 (FFin 600)]).

(** Two neighbors, the first one the preferred parent: path costs 2256 and
    1128 (a switch), 1228 and 1128 (within the threshold), 40256 and 33128
    (both above [max_path_cost]). *)
Definition ex_ipv6_switch : ipv6_ctx :=
  mk_ipv6 [ex_nb 1 2000 true; ex_nb 2 1000 false]
          (ex_mrhof [ex_wn 1 (FFin 256); ex_wn 2 (FFin 128)]).

Definition ex_ipv6_close : ipv6_ctx :=
  mk_ipv6 [ex_nb 1 1100 true; ex_nb 2 1000 false]
          (ex_mrhof [ex_wn 1 (FFin 128); ex_wn 2 (FFin 128)]).

Definition ex_ipv6_far : ipv6_ctx :=
  mk_ipv6 [ex_nb 1 40000 true; ex_nb 2 33000 false]
          (ex_mrhof [ex_wn 1 (FFin 256); ex_wn 2 (FFin 128)]).
(* ================================================================= *)
(** * Properties *)

(** ** Machine integers *)

Lemma u16_small x : 0 <= x < 2 ^ 16 -> u16 x = x.
Proof. intros. unfold u16. apply Z.mod_small. lia. Qed.

Lemma u8_small x : 0 <= x < 2 ^ 8 -> u8 x = x.
Proof. intros. unfold u8. apply Z.mod_small. lia. Qed.

Ltac zbool :=
  repeat match goal with
  | |- context [?a <=? ?b] => destruct (Z.leb_spec a b)
  | |- context [?a <? ?b] => destruct (Z.ltb_spec a b)
  | |- context [?a >=? ?b] => rewrite (Z.geb_leb a b)
  | |- context [?a >? ?b] => rewrite (Z.gtb_ltb a b)
  | |- context [?a =? ?b] => destruct (Z.eqb_spec a b)
  | H : context [?a <=? ?b] |- _ => destruct (Z.leb_spec a b)
  | H : context [?a <? ?b] |- _ => destruct (Z.ltb_spec a b)
  | H : context [?a >=? ?b] |- _ => rewrite (Z.geb_leb a b) in H
  | H : context [?a >? ?b] |- _ => rewrite (Z.gtb_ltb a b) in H
  | H : context [?a =? ?b] |- _ => destruct (Z.eqb_spec a b)
  end.

Lemma cover_app hs1 hs2 i : cover (hs1 ++ hs2) i = (cover hs1 i + cover hs2 i)%nat.
Proof. induction hs1 as [| h hs1 IH]; simpl; [done | rewrite IH; lia]. Qed.

Lemma cover_missing hs i : missing hs i = true <-> (0 < cover hs i)%nat.
Proof.
  unfold missing. induction hs as [| h hs IH]; simpl.
  - split; [discriminate | lia].
  - destruct (in_hole i h); simpl; [split; [lia | done] |]. rewrite IH. lia.
Qed.

Lemma cover_zero hs i : cover hs i = 0%nat <-> missing hs i = false.
Proof.
  destruct (missing hs i) eqn:E.
  - apply cover_missing in E. split; [lia | discriminate].
  - split; [done |]. intros _. destruct (cover hs i) eqn:Ec; [done |].
    assert (missing hs i = true) by (apply cover_missing; lia). congruence.
Qed.

Lemma skipped_cover ff fe h i :
  hole_skipped ff fe h = true -> in_frag ff fe i = true -> in_hole i h = false.
Proof. unfold hole_skipped, in_frag, in_hole. intros H1 H2. zbool; simpl in *; try done; lia. Qed.

Lemma split_cover ff fe h i :
  ff <= fe -> hole_skipped ff fe h = false ->
  cover (hole_split ff fe h) i =
    if in_frag ff fe i then 0%nat else if in_hole i h then 1%nat else 0%nat.
Proof.
  unfold hole_skipped, hole_split, in_frag, in_hole. intros Hle H.
  zbool; simpl in *; unfold in_hole; simpl; zbool; simpl; try done; lia.
Qed.

Lemma punch_cover ff fe i : ff <= fe -> forall todo pf head kept hs,
  reasm_punch ff fe pf head kept todo = Some hs ->
  cover hs i = (cover head i + cover kept i +
                if in_frag ff fe i then 0 else cover todo i)%nat.
Proof.
  intros Hle. induction todo as [| h todo IH]; intros pf head kept hs H; simpl in H.
  - injection H as <-. rewrite cover_app. simpl. destruct (in_frag ff fe i); lia.
  - destruct (hole_skipped ff fe h) eqn:Hs.
    + apply IH in H. rewrite H, cover_app. simpl.
      destruct (in_frag ff fe i) eqn:Hin; [| lia].
      rewrite (skipped_cover _ _ _ _ Hs Hin). lia.
    + destruct pf; [discriminate |]. apply IH in H.
      rewrite H, cover_app, split_cover by done. simpl.
      destruct (in_frag ff fe i); lia.
Qed.

Lemma punch_spec ff fe : forall todo pf head kept hs,
  reasm_punch ff fe pf head kept todo = Some hs ->
  hs = flat_map (hole_split ff fe)
         (rev (List.filter (fun h => negb (hole_skipped ff fe h)) todo)) ++
       head ++ kept ++ List.filter (hole_skipped ff fe) todo.
Proof.
  induction todo as [| h todo IH]; intros pf head kept hs H; simpl in H.
  - injection H as <-. simpl. by rewrite app_nil_r.
  - simpl. destruct (hole_skipped ff fe h) eqn:Hs; simpl.
    + apply IH in H. rewrite H. by rewrite <- !app_assoc.
    + destruct pf; [discriminate |]. apply IH in H. rewrite H.
      rewrite flat_map_app. simpl. rewrite app_nil_r. by rewrite <- !app_assoc.
Qed.

Lemma punch_all_skipped ff fe : forall todo pf head kept,
  Forall (fun h => hole_skipped ff fe h = true) todo ->
  reasm_punch ff fe pf head kept todo = Some (head ++ kept ++ todo).
Proof.
  induction todo as [| h todo IH]; intros pf head kept Hall; simpl.
  - by rewrite app_nil_r.
  - inversion Hall as [| ? ? Hh Ht]; subst. rewrite Hh, IH by done.
    by rewrite <- !app_assoc.
Qed.

(** The loop is defined as soon as the fragment overlaps at most one hole. *)
Lemma punch_defined ff fe : forall todo head kept,
  (forall h1 h2 l1 l2 l3, todo = l1 ++ h1 :: l2 ++ h2 :: l3 ->
     hole_skipped ff fe h1 = true \/ hole_skipped ff fe h2 = true) ->
  exists hs, reasm_punch ff fe false head kept todo = Some hs.
Proof.
  induction todo as [| h todo IH]; intros head kept Hone; simpl; [eauto |].
  destruct (hole_skipped ff fe h) eqn:Hs.
  - apply IH. intros h1 h2 l1 l2 l3 ->.
    apply (Hone h1 h2 (h :: l1) l2 l3). done.
  - rewrite punch_all_skipped; [eauto |].
    apply Forall_forall. intros h2 Hin.
    apply list_elem_of_split in Hin as (l2 & l3 & ->).
    destruct (Hone h h2 [] l2 l3 eq_refl); congruence.
Qed.


Lemma memcpy_at_some dst off src b :
  memcpy_at dst off src = Some b ->
  0 <= off /\ off + Z.of_nat (length src) <= Z.of_nat (length dst) /\
  length b = length dst /\
  (forall i, (i < Z.to_nat off)%nat -> b !! i = dst !! i) /\
  (forall i, (i < length src)%nat -> b !! (Z.to_nat off + i)%nat = src !! i) /\
  (forall i, (Z.to_nat off + length src <= i)%nat -> b !! i = dst !! i).
Proof.
  unfold memcpy_at. intros H.
  destruct (Z.leb_spec 0 off); [| discriminate].
  destruct (Z.leb_spec (off + Z.of_nat (length src)) (Z.of_nat (length dst)));
    [| discriminate]. simpl in H. injection H as <-.
  assert (Hlt : (Z.to_nat off + length src <= length dst)%nat) by lia.
  assert (Htake : length (take (Z.to_nat off) dst) = Z.to_nat off)
    by (rewrite length_take; lia).
  split; [done |]. split; [done |]. split; [| split; [| split]].
  - rewrite !length_app, Htake, length_drop. lia.
  - intros i Hi. rewrite lookup_app_l by lia. by rewrite lookup_take_lt.
  - intros i Hi. rewrite lookup_app_r by lia.
    rewrite Htake. replace (Z.to_nat off + i - Z.to_nat off)%nat with i by lia.
    by rewrite lookup_app_l.
  - intros i Hi. rewrite lookup_app_r by lia. rewrite Htake.
    rewrite lookup_app_r by lia. rewrite lookup_drop. f_equal. lia.
Qed.

Lemma memcpy_at_defined dst off src :
  0 <= off -> off + Z.of_nat (length src) <= Z.of_nat (length dst) ->
  exists b, memcpy_at dst off src = Some b.
Proof.
  intros H1 H2. unfold memcpy_at.
  destruct (Z.leb_spec 0 off); [| lia].
  destruct (Z.leb_spec (off + Z.of_nat (length src)) (Z.of_nat (length dst))); [| lia].
  simpl. eauto.
Qed.

Lemma update_rejected reasm buf offset :
  frag_rejected reasm buf offset = true ->
  lowpan_reasm_update reasm buf offset = Ret (- EINVAL, reasm).
Proof.
  unfold frag_rejected, lowpan_reasm_update. cbv zeta.
  destruct (_ >? _); [done |]. simpl. by intros ->.
Qed.

Lemma update_accepted reasm buf offset :
  frag_rejected reasm buf offset = false ->
  lowpan_reasm_update reasm buf offset =
    match reasm_punch (u16 (u8 offset * 8))
            (u16 (u16 (u8 offset * 8) + Z.of_nat (length buf))) false [] []
            (reasm_holes reasm) with
    | None => Undef
    | Some hs =>
        match memcpy_at (reasm_buf reasm) (u16 (u8 offset * 8)) buf with
        | None => Undef
        | Some b => Ret (0, set_buf (set_holes reasm hs) b)
        end
    end.
Proof.
  unfold frag_rejected, lowpan_reasm_update. cbv zeta.
  destruct (_ >? _); [done |]. simpl. by intros ->.
Qed.

Lemma update_ret reasm buf offset ret reasm' :
  lowpan_reasm_update reasm buf offset = Ret (ret, reasm') ->
  (frag_rejected reasm buf offset = true /\ ret = - EINVAL /\ reasm' = reasm) \/
  (frag_rejected reasm buf offset = false /\ ret = 0 /\
   exists hs b,
     reasm_punch (u16 (u8 offset * 8))
       (u16 (u16 (u8 offset * 8) + Z.of_nat (length buf))) false [] []
       (reasm_holes reasm) = Some hs /\
     memcpy_at (reasm_buf reasm) (u16 (u8 offset * 8)) buf = Some b /\
     reasm' = set_buf (set_holes reasm hs) b).
Proof.
  destruct (frag_rejected reasm buf offset) eqn:E.
  - rewrite update_rejected by done. intros [= <- <-]. by left.
  - rewrite update_accepted by done. intros H. right.
    destruct (reasm_punch _ _ _ _ _ _) as [hs |]; [| discriminate].
    destruct (memcpy_at _ _ _) as [b |]; [| discriminate].
    injection H as <- <-. eauto 10.
Qed.

Lemma u16_range x : 0 <= u16 x < 2 ^ 16.
Proof. unfold u16. apply Z.mod_pos_bound. lia. Qed.

(** A fragment that is applied does not wrap: its end is [frag_first +
    buf_len], at most [len]. *)
Lemma update_ok_bounds reasm buf offset reasm' :
  reasm_wf reasm ->
  lowpan_reasm_update reasm buf offset = Ret (0, reasm') ->
  let ff := u16 (u8 offset * 8) in
  u16 (ff + Z.of_nat (length buf)) = ff + Z.of_nat (length buf) /\
  0 <= ff /\ ff + Z.of_nat (length buf) <= reasm_len reasm.
Proof.
  intros Hwf H. apply update_ret in H as [(_ & H & _) | (_ & _ & hs & b & _ & Hm & _)].
  { unfold EINVAL in H. lia. }
  apply memcpy_at_some in Hm as (H0 & Hle & _).
  rewrite (wf_buf _ Hwf) in Hle. destruct (wf_len _ Hwf).
  cbv zeta. split; [| lia]. apply u16_small. lia.
Qed.

Lemma Forall_punch (P : lowpan_hole -> Prop) ff fe : forall todo pf head kept hs,
  (forall h, P h -> hole_skipped ff fe h = false -> Forall P (hole_split ff fe h)) ->
  Forall P head -> Forall P kept -> Forall P todo ->
  reasm_punch ff fe pf head kept todo = Some hs -> Forall P hs.
Proof.
  induction todo as [| h todo IH]; intros pf head kept hs Hsplit Hh Hk Ht H; simpl in H.
  - injection H as <-. by apply Forall_app.
  - inversion Ht as [| ? ? Hph Htl]; subst. destruct (hole_skipped ff fe h) eqn:Hs.
    + refine (IH _ _ _ _ Hsplit Hh _ Htl H).
      apply Forall_app. split; [done | by constructor].
    + destruct pf; [discriminate |].
      refine (IH _ _ _ _ Hsplit _ Hk Htl H).
      apply Forall_app. split; [| done]. by apply Hsplit.
Qed.

(** [lowpan_reasm_update] preserves the invariant, punches the range of the
    fragment out of the holes and writes the payload there. *)
Lemma update_ok_wf reasm buf offset reasm' :
  reasm_wf reasm ->
  lowpan_reasm_update reasm buf offset = Ret (0, reasm') ->
  let ff := u16 (u8 offset * 8) in
  let fe := ff + Z.of_nat (length buf) in
  reasm_wf reasm' /\
  reasm_len reasm' = reasm_len reasm /\
  (forall i, cover (reasm_holes reasm') i =
             if in_frag ff fe i then 0%nat else cover (reasm_holes reasm) i) /\
  (forall i, (i < length buf)%nat ->
             reasm_buf reasm' !! (Z.to_nat ff + i)%nat = buf !! i) /\
  (forall i, in_frag ff fe (Z.of_nat i) = false ->
             reasm_buf reasm' !! i = reasm_buf reasm !! i).
Proof.
  intros Hwf H. destruct (update_ok_bounds _ _ _ _ Hwf H) as (Hfe & Hff & Hle).
  apply update_ret in H as [(_ & H & _) | (_ & _ & hs & b & Hp & Hm & ->)].
  { unfold EINVAL in H. lia. }
  cbv zeta in *. rewrite Hfe in Hp. set (ff := u16 (u8 offset * 8)) in *.
  set (fe := ff + Z.of_nat (length buf)) in *.
  apply memcpy_at_some in Hm as (_ & _ & Hlen & Hlo & Hmid & Hhi).
  assert (Hcov : forall i, cover hs i =
            if in_frag ff fe i then 0%nat else cover (reasm_holes reasm) i).
  { intros i. rewrite (punch_cover ff fe i ltac:(lia) _ _ _ _ _ Hp). simpl.
    destruct (in_frag ff fe i); lia. }
  split; [| split; [done | split; [done | split; [done |]]]].
  - destruct Hwf as [Hl Hb Hd Hr Hn]. constructor; simpl.
    + done.
    + lia.
    + intros i. rewrite Hcov. destruct (in_frag ff fe i); [lia | apply Hd].
    + eapply Forall_punch; [| | | apply Hr | apply Hp]; try by constructor.
      intros h [Hh1 Hh2] Hs. unfold hole_split, hole_skipped in *.
      zbool; simpl in *; try discriminate;
        repeat constructor; simpl; lia.
    + eapply Forall_punch; [| | | apply Hn | apply Hp]; try by constructor.
      intros h Hh Hs. unfold hole_split, hole_skipped in *.
      zbool; simpl in *; try discriminate;
        repeat constructor; simpl; lia.
  - intros i Hin. simpl. unfold in_frag in Hin.
    destruct (Z.leb_spec ff (Z.of_nat i)); simpl in Hin.
    + destruct (Z.ltb_spec (Z.of_nat i) fe); [discriminate |].
      apply Hhi. lia.
    + apply Hlo. lia.
Qed.

Lemma reasm_init_wf ctx src dst tag len :
  reasm_wf (lowpan_reasm_init ctx src dst tag len).
Proof.
  assert (Hr := u16_range len).
  constructor; simpl.
  - done.
  - rewrite length_replicate. lia.
  - intros i. destruct (in_hole i _); simpl; lia.
  - repeat constructor; simpl; lia.
  - constructor; [simpl; lia | constructor].
Qed.

Lemma reasm_reachable_wf reasm : reasm_reachable reasm -> reasm_wf reasm.
Proof.
  induction 1 as [| reasm buf offset ret reasm' _ IH H].
  - apply reasm_init_wf.
  - destruct (update_ret _ _ _ _ _ H) as [(_ & _ & ->) | (_ & -> & _)]; [done |].
    by apply (update_ok_wf _ _ _ _ IH H).
Qed.

(** ** Zero-length fragments *)

Lemma cover_two hs h1 h2 l1 l2 l3 i :
  hs = l1 ++ h1 :: l2 ++ h2 :: l3 ->
  in_hole i h1 = true -> in_hole i h2 = true -> (2 <= cover hs i)%nat.
Proof.
  intros -> H1 H2. rewrite cover_app. simpl. rewrite cover_app. simpl.
  rewrite H1, H2. lia.
Qed.

(** With disjoint holes, a fragment whose every overlapped hole contains
    octet [i] overlaps at most one hole: the loop is defined. *)
Lemma punch_defined_disjoint ff fe hs i :
  (cover hs i <= 1)%nat ->
  (forall h, h ∈ hs -> hole_skipped ff fe h = false -> in_hole i h = true) ->
  exists hs', reasm_punch ff fe false [] [] hs = Some hs'.
Proof.
  intros Hd Hin. apply punch_defined. intros h1 h2 l1 l2 l3 ->.
  destruct (hole_skipped ff fe h1) eqn:E1; [by left |].
  destruct (hole_skipped ff fe h2) eqn:E2; [by right |].
  assert (2 <= cover (l1 ++ h1 :: l2 ++ h2 :: l3) i)%nat; [| lia].
  eapply cover_two; [done | |]; apply Hin; try done.
  - apply elem_of_app. right. apply list_elem_of_here.
  - apply elem_of_app. right. apply list_elem_of_further, elem_of_app. right.
    apply list_elem_of_here.
Qed.

Lemma frag_rejected_false reasm buf offset :
  0 <= offset < 256 ->
  offset * 8 + Z.of_nat (length buf) <= reasm_len reasm ->
  reasm_len reasm < 2 ^ 16 ->
  (Z.of_nat (length buf) mod 8 = 0 \/
   offset * 8 + Z.of_nat (length buf) = reasm_len reasm) ->
  u16 (u8 offset * 8) = offset * 8 /\
  u16 (offset * 8 + Z.of_nat (length buf)) = offset * 8 + Z.of_nat (length buf) /\
  frag_rejected reasm buf offset = false.
Proof.
  intros Ho Hle Hlen Hm.
  assert (H1 : u16 (u8 offset * 8) = offset * 8).
  { rewrite u8_small by lia. apply u16_small. lia. }
  assert (H2 : u16 (offset * 8 + Z.of_nat (length buf)) =
               offset * 8 + Z.of_nat (length buf)) by (apply u16_small; lia).
  split; [done |]. split; [done |].
  unfold frag_rejected. cbv zeta. rewrite H1, H2.
  destruct (Z.gtb_spec (offset * 8 + Z.of_nat (length buf)) (reasm_len reasm)); [lia |].
  simpl. destruct Hm as [Hm | Hm]; rewrite Hm; [apply andb_false_r | by rewrite Z.eqb_refl].
Qed.

(** C10: a zero-length fragment at an offset inside the datagram is
    accepted, leaves the buffer and the set of missing octets as they are
    and never empties the hole list. *)
Theorem lowpan_reasm_update_zero_length reasm offset :
  reasm_reachable reasm ->
  0 <= offset < 256 ->
  offset * 8 <= reasm_len reasm ->
  exists reasm',
    lowpan_reasm_update reasm [] offset = Ret (0, reasm') /\
    reasm_buf reasm' = reasm_buf reasm /\
    (forall i, missing (reasm_holes reasm') i = missing (reasm_holes reasm) i) /\
    (reasm_holes reasm' = [] -> reasm_holes reasm = []).
Proof.
  intros Hreach Ho Hle. assert (Hwf := reasm_reachable_wf _ Hreach).
  destruct (frag_rejected_false reasm [] offset) as (Hff & Hfe & Hrej);
    [done | simpl; lia | apply (wf_len _ Hwf) | by left |].
  simpl in Hfe. rewrite Z.add_0_r in Hfe.
  destruct (punch_defined_disjoint (offset * 8) (offset * 8) (reasm_holes reasm)
              (offset * 8)) as [hs Hp].
  { apply (wf_disjoint _ Hwf). }
  { intros h _. unfold hole_skipped, in_hole. intros H. zbool; simpl in *; try done; lia. }
  destruct (memcpy_at_defined (reasm_buf reasm) (offset * 8) []) as [b Hb];
    [lia | rewrite (wf_buf _ Hwf); simpl; lia |].
  assert (Hupd : lowpan_reasm_update reasm [] offset =
                 Ret (0, set_buf (set_holes reasm hs) b)).
  { rewrite update_accepted by done. change (Z.of_nat (length (@nil byte))) with 0.
    rewrite Hff, Z.add_0_r, Hfe, Hp, Hb. done. }
  destruct (update_ok_wf _ _ _ _ Hwf Hupd) as (_ & _ & Hcov & _ & Hbuf).
  cbv zeta in Hcov, Hbuf. rewrite Hff in Hcov, Hbuf. simpl in Hcov, Hbuf.
  rewrite Z.add_0_r in Hcov, Hbuf.
  assert (Hnone : forall i, in_frag (offset * 8) (offset * 8) i = false).
  { intros i. unfold in_frag. zbool; simpl; try done; lia. }
  eexists. split; [exact Hupd |]. simpl. split; [| split].
  - apply list_eq. intros i. apply Hbuf, Hnone.
  - intros i. specialize (Hcov i). rewrite Hnone in Hcov.
    apply Bool.eq_iff_eq_true. rewrite !cover_missing, Hcov. done.
  - intros ->. apply punch_spec in Hp. simpl in Hp.
    destruct (reasm_holes reasm) as [| h t]; [done |]. exfalso.
    simpl in Hp. destruct (hole_skipped (offset * 8) (offset * 8) h) eqn:Hs; simpl in Hp.
    + symmetry in Hp. apply app_eq_nil in Hp as [_ Hp]. discriminate.
    + rewrite flat_map_app in Hp. simpl in Hp.
      symmetry in Hp. apply app_eq_nil in Hp as [Hp _].
      apply app_eq_nil in Hp as [_ Hp]. rewrite app_nil_r in Hp.
      unfold hole_split, hole_skipped in *. zbool; simpl in *; try discriminate; lia.
Qed.

(** ** Rejected fragments *)

Section FragRecvFacts.
Variable LOWPAN_DISPATCH_IS_IPHC : byte -> bool.
Variable lowpan_iphc_decmpr : pktbuf -> Z -> Z -> pktbuf.
Variable lowpan_iphc_decmpr_finish : list byte -> Z -> Z * list byte.

(** C7: a fragment is rejected with [-EINVAL] exactly when it reaches past
    the end of the datagram or has a length that is not a multiple of 8
    without ending the datagram; the context is then left as it was, and
    [lowpan_frag_recv] returns the error with the packet marked. *)
Theorem lowpan_reasm_update_rejects reasm buf offset :
  0 <= offset < 256 ->
  offset * 8 + Z.of_nat (length buf) < 2 ^ 16 ->
  let frag_end := offset * 8 + Z.of_nat (length buf) in
  (lowpan_reasm_update reasm buf offset = Ret (- EINVAL, reasm) <->
     reasm_len reasm < frag_end \/
     (Z.of_nat (length buf) mod 8 <> 0 /\ frag_end <> reasm_len reasm)) /\
  (forall ret reasm',
     lowpan_reasm_update reasm buf offset = Ret (ret, reasm') ->
     ret <> 0 -> ret = - EINVAL /\ reasm' = reasm) /\
  (forall ctx hdr pkt src dst ctx1 i pkt1,
     pkt_err pkt = false ->
     frag_recv_reasm ctx src dst (hdr_tag hdr) (hdr_len hdr) = (ctx1, i) ->
     frag_recv_decmpr LOWPAN_DISPATCH_IS_IPHC lowpan_iphc_decmpr hdr pkt src dst
       = (0, pkt1) ->
     pkt_err pkt1 = false ->
     reasm_list ctx1 !! i = Some reasm ->
     buf = pkt_data pkt1 ->
     offset = (if hdr_is_frag1 hdr then 0 else hdr_offset hdr) ->
     lowpan_reasm_update reasm buf offset = Ret (- EINVAL, reasm) ->
     lowpan_frag_recv LOWPAN_DISPATCH_IS_IPHC lowpan_iphc_decmpr
       lowpan_iphc_decmpr_finish ctx hdr pkt src dst
       = Ret (- EINVAL, ctx1, mk_pktbuf (pkt_data pkt1) true)).
Proof.
  intros Ho Hw. cbv zeta.
  assert (Hff : u16 (u8 offset * 8) = offset * 8).
  { rewrite u8_small by lia. apply u16_small. lia. }
  assert (Hfe : u16 (offset * 8 + Z.of_nat (length buf)) =
                offset * 8 + Z.of_nat (length buf)) by (apply u16_small; lia).
  assert (Hrej : frag_rejected reasm buf offset = true <->
            reasm_len reasm < offset * 8 + Z.of_nat (length buf) \/
            (Z.of_nat (length buf) mod 8 <> 0 /\
             offset * 8 + Z.of_nat (length buf) <> reasm_len reasm)).
  { unfold frag_rejected. cbv zeta. rewrite Hff, Hfe.
    rewrite orb_true_iff, andb_true_iff, !negb_true_iff.
    rewrite Z.gtb_ltb, Z.ltb_lt, !Z.eqb_neq. tauto. }
  split; [| split].
  - rewrite <- Hrej. split.
    + intros H. destruct (frag_rejected reasm buf offset) eqn:E; [done |].
      apply update_ret in H as [(? & _) | (_ & H & _)]; [congruence |].
      unfold EINVAL in H. lia.
    + apply update_rejected.
  - intros ret reasm' H Hret.
    apply update_ret in H as [(_ & -> & ->) | (_ & -> & _)]; [done | lia].
  - intros ctx hdr pkt src dst ctx1 i pkt1 Herr Hre Hde Herr1 Hi -> -> Hupd.
    unfold lowpan_frag_recv. rewrite Herr, Hre, Hde. simpl.
    rewrite Herr1, Hi, Hupd. simpl.
    rewrite list_insert_id by done. by destruct ctx1.
Qed.
End FragRecvFacts.

(** ** Reassembly of a split datagram *)

Lemma dgram_split_cons off data n sizes :
  dgram_split off data (n :: sizes) =
  (off, take (8 * n) data) ::
  dgram_split (off + Z.of_nat n) (drop (8 * n) data) sizes.
Proof. reflexivity. Qed.

Lemma sum_list_cons n (sizes : list nat) :
  sum_list (n :: sizes) = (n + sum_list sizes)%nat.
Proof. reflexivity. Qed.

Lemma split_facts sizes : forall off data f,
  (8 * sum_list sizes <= length data)%nat ->
  f ∈ dgram_split off data sizes ->
  off <= fst f <= off + Z.of_nat (sum_list sizes) /\
  off * 8 <= frag_lo f /\
  frag_hi f <= off * 8 + Z.of_nat (length data) /\
  (Z.of_nat (length (snd f)) mod 8 = 0 \/
   frag_hi f = off * 8 + Z.of_nat (length data)) /\
  (forall k, (k < length (snd f))%nat ->
     snd f !! k = data !! (Z.to_nat (frag_lo f - off * 8) + k)%nat).
Proof.
  induction sizes as [| n sizes IH]; intros off data f Hsum Hin.
  - apply list_elem_of_singleton in Hin as ->. unfold frag_lo, frag_hi.
    cbn [fst snd sum_list sum_list_with].
    split; [lia |]. split; [lia |]. split; [lia |]. split; [right; lia |].
    intros k Hk. f_equal. lia.
  - rewrite dgram_split_cons in Hin. rewrite sum_list_cons in Hsum |- *.
    apply elem_of_cons in Hin as [-> | Hin].
    + unfold frag_lo, frag_hi. cbn [fst snd].
      assert (Hl : length (take (8 * n) data) = (8 * n)%nat)
        by (rewrite length_take; lia).
      rewrite Hl.
      split; [lia |]. split; [lia |]. split; [lia |]. split.
      * left. replace (Z.of_nat (8 * n)) with (Z.of_nat n * 8) by lia.
        apply Z.mod_mul. lia.
      * intros k Hk. rewrite lookup_take_lt by lia. f_equal. lia.
    + apply IH in Hin as (H1 & H2 & H3 & H4 & H5); [| rewrite length_drop; lia].
      rewrite length_drop in H3, H4.
      split; [lia |]. split; [lia |]. split; [lia |]. split.
      * destruct H4 as [H4 | H4]; [by left | right; lia].
      * intros k Hk. rewrite H5 by done. rewrite lookup_drop. f_equal. lia.
Qed.

(** Two fragments of a split are the same fragment or lie one after the
    other. *)
Lemma split_sep sizes : forall off data f1 f2,
  (8 * sum_list sizes <= length data)%nat ->
  f1 ∈ dgram_split off data sizes -> f2 ∈ dgram_split off data sizes ->
  f1 = f2 \/ frag_hi f1 <= frag_lo f2 \/ frag_hi f2 <= frag_lo f1.
Proof.
  induction sizes as [| n sizes IH]; intros off data f1 f2 Hsum H1 H2.
  - apply list_elem_of_singleton in H1, H2. left. congruence.
  - rewrite dgram_split_cons in H1, H2. rewrite sum_list_cons in Hsum.
    assert (Hhd : forall f, f ∈ dgram_split (off + Z.of_nat n) (drop (8 * n) data) sizes ->
             frag_hi (off, take (8 * n) data) <= frag_lo f).
    { intros f Hf. apply split_facts in Hf as (_ & Hf & _); [| rewrite length_drop; lia].
      unfold frag_hi. cbn [fst snd]. rewrite length_take. lia. }
    apply elem_of_cons in H1 as [-> | H1]; apply elem_of_cons in H2 as [-> | H2].
    + by left.
    + right. left. by apply Hhd.
    + right. right. by apply Hhd.
    + eapply IH; [| done | done]. rewrite length_drop. lia.
Qed.

Lemma covered_cons f frags i :
  covered (f :: frags) i = in_frag (frag_lo f) (frag_hi f) i || covered frags i.
Proof. reflexivity. Qed.

Lemma split_covers sizes : forall off data i,
  (8 * sum_list sizes <= length data)%nat ->
  off * 8 <= i < off * 8 + Z.of_nat (length data) ->
  covered (dgram_split off data sizes) i = true.
Proof.
  induction sizes as [| n sizes IH]; intros off data i Hsum Hi.
  - unfold covered, in_frag, frag_lo, frag_hi. simpl. zbool; simpl; try done; lia.
  - rewrite dgram_split_cons, covered_cons. rewrite sum_list_cons in Hsum.
    destruct (in_frag _ _ i) eqn:E; [done |]. cbn [orb].
    apply IH; [rewrite length_drop; lia |].
    rewrite length_drop. unfold in_frag, frag_lo, frag_hi in E. cbn [fst snd] in E.
    rewrite length_take in E. zbool; simpl in *; try discriminate; lia.
Qed.

Lemma covered_elem frags f i :
  f ∈ frags -> in_frag (frag_lo f) (frag_hi f) i = true -> covered frags i = true.
Proof.
  unfold covered. intros Hin Hf. apply existsb_exists. exists f.
  split; [by apply list_elem_of_In | done].
Qed.

Lemma covered_inv frags i :
  covered frags i = true ->
  exists f, f ∈ frags /\ in_frag (frag_lo f) (frag_hi f) i = true.
Proof.
  unfold covered. intros H. apply existsb_exists in H as (f & Hin & Hf).
  exists f. split; [by apply list_elem_of_In | done].
Qed.

Section Roundtrip.
Variable data : list byte.
Variable sizes : list nat.
Hypothesis Hlen : Z.of_nat (length data) < 2 ^ 16.
Hypothesis Hsum : (8 * sum_list sizes <= length data)%nat.
Hypothesis Hoff : (sum_list sizes < 256)%nat.

Let S := dgram_split 0 data sizes.

(** No fragment of the split has [x] strictly inside its range. *)
Let bnd (x : Z) : Prop := forall f, f ∈ S -> x <= frag_lo f \/ frag_hi f <= x.

(** The state of a context that has received the fragments [F]. *)
Let inv (r : lowpan_reasm) (F : list (Z * list byte)) : Prop :=
  reasm_wf r /\
  reasm_len r = Z.of_nat (length data) /\
  (forall i, 0 <= i < Z.of_nat (length data) ->
     cover (reasm_holes r) i = if covered F i then 0%nat else 1%nat) /\
  (forall i, covered F (Z.of_nat i) = true -> reasm_buf r !! i = data !! i) /\
  Forall (fun h => bnd (hole_first h) /\ bnd (hole_end h)) (reasm_holes r).

Lemma inv_step r F f :
  inv r F -> f ∈ S ->
  exists r', lowpan_reasm_update r (snd f) (fst f) = Ret (0, r') /\ inv r' (f :: F).
Proof.
  intros (Hwf & Hl & Hcov & Hbuf & Hbnd) Hf.
  destruct (split_facts sizes 0 data f Hsum Hf) as (Ho & Hlo & Hhi & Hmod & Hdat).
  unfold frag_lo, frag_hi in Hlo, Hhi, Hmod, Hdat. simpl in Hlo, Hhi, Hmod.
  destruct (frag_rejected_false r (snd f) (fst f)) as (Hff & Hfe & Hrej);
    [lia | lia | lia | destruct Hmod; [by left | right; lia] |].
  set (ff := fst f * 8) in *. set (fe := ff + Z.of_nat (length (snd f))) in *.
  assert (Hbf : bnd ff /\ bnd fe).
  { subst ff fe. split; intros f' Hf';
      destruct (split_sep sizes 0 data f f' Hsum Hf Hf') as [<- | [H | H]];
      unfold frag_lo, frag_hi in *; lia. }
  destruct (punch_defined_disjoint ff fe (reasm_holes r) ff) as [hs Hp].
  { apply (wf_disjoint _ Hwf). }
  { intros h Hh Hs. destruct (proj1 (Forall_forall _ _) Hbnd h Hh) as [Hb1 Hb2].
    specialize (Hb1 f Hf). specialize (Hb2 f Hf).
    unfold frag_lo, frag_hi in Hb1, Hb2. fold ff in Hb1, Hb2. fold fe in Hb1, Hb2.
    unfold hole_skipped in Hs. unfold in_hole.
    zbool; simpl in *; try discriminate; try done; lia. }
  destruct (memcpy_at_defined (reasm_buf r) ff (snd f)) as [b Hb];
    [lia | rewrite (wf_buf _ Hwf); lia |].
  assert (Hupd : lowpan_reasm_update r (snd f) (fst f) =
                 Ret (0, set_buf (set_holes r hs) b)).
  { rewrite update_accepted by done. rewrite Hff. fold ff. fold fe.
    rewrite Hfe, Hp, Hb. done. }
  destruct (update_ok_wf _ _ _ _ Hwf Hupd) as (Hwf' & Hl' & Hcov' & Hin' & Hout').
  cbv zeta in Hcov', Hin', Hout'. rewrite Hff in Hcov', Hin', Hout'.
  fold fe in Hcov', Hout'.
  eexists. split; [exact Hupd |].
  assert (Hc : forall i, covered (f :: F) i = in_frag ff fe i || covered F i) by done.
  split; [done |]. split; [lia |]. split; [| split].
  - intros i Hi. rewrite Hcov', Hc. destruct (in_frag ff fe i); [done |].
    simpl. by apply Hcov.
  - intros i. rewrite Hc. destruct (in_frag ff fe (Z.of_nat i)) eqn:E; simpl.
    + intros _. unfold in_frag in E. apply andb_true_iff in E as [E1 E2].
      apply Z.leb_le in E1. apply Z.ltb_lt in E2.
      replace i with (Z.to_nat ff + (i - Z.to_nat ff))%nat by lia.
      rewrite Hin' by lia. rewrite Hdat by lia. f_equal.
      unfold frag_lo. fold ff. lia.
    + intros Hi. rewrite Hout' by done. by apply Hbuf.
  - simpl. eapply Forall_punch; [| | | apply Hbnd | apply Hp]; try by constructor.
    intros h [Hh1 Hh2] _. unfold hole_split.
    apply Forall_app. split.
    + destruct (fe <? hole_end h); constructor;
        [split; [apply Hbf | apply Hh2] | constructor].
    + destruct (ff >? hole_first h); constructor;
        [split; [apply Hh1 | apply Hbf] | constructor].
Qed.

Lemma inv_feed frags : forall r F,
  inv r F -> (forall f, f ∈ frags -> f ∈ S) ->
  exists r', reasm_feed r frags = Some r' /\ inv r' (rev frags ++ F).
Proof.
  induction frags as [| f frags IH]; intros r F Hinv Hsub; simpl.
  - eauto.
  - destruct (inv_step r F f Hinv) as (r1 & Hupd & Hinv1);
      [apply Hsub, list_elem_of_here |].
    destruct f as [o p]. simpl in Hupd. rewrite Hupd.
    destruct (IH r1 ((o, p) :: F) Hinv1) as (r' & Hfeed & Hinv');
      [intros f' Hf'; by apply Hsub, list_elem_of_further |].
    exists r'. split; [done |]. by rewrite <- app_assoc.
Qed.

Lemma inv_init ctx src dst tag :
  inv (lowpan_reasm_init ctx src dst tag (Z.of_nat (length data))) [].
Proof.
  assert (Hu : u16 (Z.of_nat (length data)) = Z.of_nat (length data))
    by (apply u16_small; lia).
  split; [apply reasm_init_wf |]. simpl. rewrite Hu.
  split; [done |]. split; [| split].
  - intros i Hi. unfold in_hole. simpl. zbool; simpl; try done; lia.
  - discriminate.
  - constructor; [| constructor].
    split; intros f Hf;
      apply (split_facts sizes 0 data f Hsum) in Hf as (_ & H1 & H2 & _);
      simpl; lia.
Qed.

Lemma inv_complete r F :
  (0 < length data)%nat -> inv r F -> (forall f, f ∈ S -> f ∈ F) ->
  reasm_holes r = [] /\ reasm_buf r = data.
Proof.
  intros Hpos (Hwf & Hl & Hcov & Hbuf & _) Hall.
  assert (Hc : forall i, 0 <= i < Z.of_nat (length data) -> covered F i = true).
  { intros i Hi.
    destruct (covered_inv S i) as (f & Hf & Hin);
      [apply split_covers; [done | lia] |].
    eapply covered_elem; [by apply Hall | done]. }
  split.
  - destruct (reasm_holes r) as [| h t] eqn:E; [done |]. exfalso.
    assert (Hr := wf_range _ Hwf). assert (Hn := wf_nonempty _ Hwf).
    rewrite E in Hr, Hn. inversion Hr as [| ? ? [Hr1 Hr2] _]; subst.
    inversion Hn as [| ? ? Hn1 _]; subst.
    assert (Hi : 0 <= hole_first h < Z.of_nat (length data)) by lia.
    specialize (Hcov _ Hi). rewrite (Hc _ Hi) in Hcov. simpl in Hcov.
    unfold in_hole in Hcov. destruct (Z.leb_spec (hole_first h) (hole_first h)); [| lia].
    destruct (Z.ltb_spec (hole_first h) (hole_end h)); [| lia]. simpl in Hcov. lia.
  - apply list_eq. intros i.
    destruct (decide (i < length data)%nat) as [Hi | Hi].
    + apply Hbuf, Hc. lia.
    + rewrite !lookup_ge_None_2; [done | lia |].
      assert (Hb := wf_buf _ Hwf). lia.
Qed.
End Roundtrip.

(** C5 (as amended): feeding the fragments of a split, non-empty datagram
    in any order completes the datagram and rebuilds it; a call of
    [lowpan_reasm_update] that returns leaves every byte outside the range
    of its fragment as it was. *)
Theorem lowpan_reasm_roundtrip ctx src dst tag data sizes frags :
  (0 < length data)%nat ->
  Z.of_nat (length data) < 2 ^ 16 ->
  (8 * sum_list sizes <= length data)%nat ->
  (sum_list sizes < 256)%nat ->
  frags ≡ₚ dgram_split 0 data sizes ->
  (exists reasm',
     reasm_feed (lowpan_reasm_init ctx src dst tag (Z.of_nat (length data))) frags
       = Some reasm' /\
     reasm_holes reasm' = [] /\ reasm_buf reasm' = data) /\
  (forall reasm buf offset ret reasm' i,
     0 <= offset < 256 ->
     lowpan_reasm_update reasm buf offset = Ret (ret, reasm') ->
     in_frag (offset * 8) (offset * 8 + Z.of_nat (length buf)) (Z.of_nat i) = false ->
     reasm_buf reasm' !! i = reasm_buf reasm !! i).
Proof.
  intros Hpos Hlen Hsum Hoff Hperm. split.
  - destruct (inv_feed data sizes Hlen Hsum Hoff frags _ []
                (inv_init data sizes Hlen Hsum Hoff ctx src dst tag))
      as (r' & Hfeed & Hinv).
    { intros f Hf. by rewrite <- Hperm. }
    exists r'. split; [done |].
    eapply inv_complete with (sizes := sizes) (F := rev frags ++ []);
      try eassumption.
    intros f Hf. rewrite app_nil_r. apply list_elem_of_In, in_rev.
    rewrite rev_involutive. apply list_elem_of_In. by rewrite Hperm.
  - intros reasm buf offset ret reasm' i Ho Hupd Hout.
    apply update_ret in Hupd as [(_ & _ & ->) | (_ & _ & hs & b & _ & Hm & ->)]; [done |].
    simpl. assert (Hff : u16 (u8 offset * 8) = offset * 8).
    { rewrite u8_small by lia. apply u16_small. lia. }
    rewrite Hff in Hm. apply memcpy_at_some in Hm as (H0 & _ & _ & Hlo & _ & Hhi).
    unfold in_frag in Hout.
    destruct (Z.leb_spec (offset * 8) (Z.of_nat i)); simpl in Hout.
    + destruct (Z.ltb_spec (Z.of_nat i) (offset * 8 + Z.of_nat (length buf)));
        [discriminate |]. apply Hhi. lia.
    + apply Hlo. lia.
Qed.
Lemma u32_range x : 0 <= u32 x < 2 ^ 32.
Proof. unfold u32. apply Z.mod_pos_bound. lia. Qed.

(** [add32sat] is the sum capped at [UINT32_MAX]: it never wraps. *)
Lemma add32sat_spec a b :
  0 <= a < 2 ^ 32 -> 0 <= b < 2 ^ 32 ->
  add32sat a b = Z.min (a + b) UINT32_MAX.
Proof.
  intros Ha Hb. unfold add32sat, u32, UINT32_MAX.
  destruct (Z_lt_dec (a + b) (2 ^ 32)) as [Hs | Hs].
  - rewrite Z.mod_small by lia.
    destruct (Z.ltb_spec (a + b) a); lia.
  - replace ((a + b) mod 2 ^ 32) with (a + b - 2 ^ 32).
    + destruct (Z.ltb_spec (a + b - 2 ^ 32) a); lia.
    + apply Z.mod_unique with (q := 1); lia.
Qed.

Lemma array_set_ret {A} (l : list A) i f l' :
  array_set l i f = Ret l' ->
  0 <= i < Z.of_nat (length l) /\
  exists x, l !! Z.to_nat i = Some x /\ l' = <[Z.to_nat i := f x]> l.
Proof.
  unfold array_set. intros H.
  destruct (Z.leb_spec 0 i); simpl in H; [| discriminate].
  destruct (Z.ltb_spec i (Z.of_nat (length l))); simpl in H; [| discriminate].
  destruct (l !! Z.to_nat i) eqn:E; [| discriminate].
  injection H as <-. split; [lia |]. eauto.
Qed.

Lemma array_set_in_range {A} (l : list A) i f :
  0 <= i < Z.of_nat (length l) ->
  exists x, l !! Z.to_nat i = Some x /\ array_set l i f = Ret (<[Z.to_nat i := f x]> l).
Proof.
  intros Hi. unfold array_set.
  destruct (Z.leb_spec 0 i); [| lia].
  destruct (Z.ltb_spec i (Z.of_nat (length l))); [| lia]. simpl.
  destruct (lookup_lt_is_Some_2 l (Z.to_nat i)) as [x Hx]; [lia |].
  rewrite Hx. eauto.
Qed.

Section StorageFacts.
Variables WS_GTK_COUNT WS_LGTK_COUNT : Z.
Variable parse_byte_array : Z -> string -> option (list byte).
Variables strtoul strtoull strtoll : string -> Z.
Variables storage_offset_ms now_ms now_s : Z.
Variable ws_gtk_clear : ws_gtk -> ws_gtk.

Abbreviation load_line :=
  (supp_storage_load_line WS_GTK_COUNT parse_byte_array strtoul strtoull strtoll now_s).
Abbreviation load_lines :=
  (supp_storage_load_lines WS_GTK_COUNT parse_byte_array strtoul strtoull strtoll now_s).
Abbreviation load :=
  (supp_storage_load WS_GTK_COUNT WS_LGTK_COUNT parse_byte_array strtoul strtoull
                     strtoll storage_offset_ms now_ms now_s ws_gtk_clear).

Lemma parse_gtk_key_counters supp idx v supp' :
  parse_gtk_key parse_byte_array supp idx v = Ret supp' ->
  cfg_eui64 supp' = cfg_eui64 supp /\
  forall i, frame_counter <$> (gtks supp' !! i) = frame_counter <$> (gtks supp !! i).
Proof.
  unfold parse_gtk_key. intros H.
  destruct (array_set (gtks supp) idx (fun g => g)) eqn:E0; simpl in H; try discriminate.
  destruct (parse_byte_array 16 v) as [k |]; [| discriminate]. clear E0.
  destruct (array_set (gtks supp) idx _) eqn:E; simpl in H; try discriminate.
  injection H as <-. split; [done |]. intros i.
  apply array_set_ret in E as (_ & x & Hx & ->). simpl.
  destruct (decide (i = Z.to_nat idx)) as [-> | Hne].
  - rewrite list_lookup_insert_eq by (by eapply lookup_lt_Some). by rewrite Hx.
  - by rewrite list_lookup_insert_ne.
Qed.

Lemma load_frame_counter_ret supp idx v supp' :
  load_frame_counter strtoul supp idx v = Ret supp' ->
  cfg_eui64 supp' = cfg_eui64 supp /\
  0 <= idx /\
  gtks supp' !! Z.to_nat idx =
    (fun g => set_frame_counter g (add32sat (u32 (strtoul v)) FRAME_COUNTER_OFFSET))
      <$> gtks supp !! Z.to_nat idx /\
  is_Some (gtks supp !! Z.to_nat idx) /\
  forall i, i <> Z.to_nat idx -> gtks supp' !! i = gtks supp !! i.
Proof.
  unfold load_frame_counter. intros H.
  destruct (array_set (gtks supp) idx _) eqn:E; simpl in H; try discriminate.
  injection H as <-. apply array_set_ret in E as (Hr & x & Hx & ->). simpl.
  split; [done |]. split; [lia |]. split; [| split].
  - rewrite list_lookup_insert_eq by (by eapply lookup_lt_Some). by rewrite Hx.
  - eauto.
  - intros i Hi. by rewrite list_lookup_insert_ne.
Qed.

(** One line either leaves a frame counter as it was or, when it is a
    frame counter line for that slot, sets it from the stored value. *)
Lemma load_line_counters st info st' :
  load_line st info = Ret st' ->
  cfg_eui64 (fst st') = cfg_eui64 (fst st) /\
  forall i g', gtks (fst st') !! i = Some g' ->
    (exists g, gtks (fst st) !! i = Some g /\ frame_counter g' = frame_counter g) \/
    (frame_counter_slot WS_GTK_COUNT info = Some (Z.of_nat i) /\
     frame_counter g' = add32sat (stored_counter strtoul info) FRAME_COUNTER_OFFSET).
Proof.
  destruct st as [supp exp]. unfold supp_storage_load_line, frame_counter_slot.
  destruct (negb (line_ret info =? 0)).
  { intros [= <-]. split; [done |]. intros i g' Hg. left. eauto. }
  assert (Hsame : forall supp1 : supp_ctx,
    cfg_eui64 supp1 = cfg_eui64 supp ->
    (forall i, frame_counter <$> (gtks supp1 !! i) = frame_counter <$> (gtks supp !! i)) ->
    forall i g' (P : Prop), gtks supp1 !! i = Some g' ->
      (exists g, gtks supp !! i = Some g /\ frame_counter g' = frame_counter g) \/ P).
  { intros supp1 _ Hfc i g' P Hg. left. specialize (Hfc i). rewrite Hg in Hfc.
    destruct (gtks supp !! i) as [g |]; [| discriminate].
    exists g. split; [done |]. simpl in Hfc. congruence. }
  assert (Hfcl : forall idx supp1,
    load_frame_counter strtoul supp idx (line_value info) = Ret supp1 ->
    cfg_eui64 supp1 = cfg_eui64 supp /\
    forall i g', gtks supp1 !! i = Some g' ->
      (exists g, gtks supp !! i = Some g /\ frame_counter g' = frame_counter g) \/
      (Some idx = Some (Z.of_nat i) /\
       frame_counter g' = add32sat (stored_counter strtoul info) FRAME_COUNTER_OFFSET)).
  { intros idx supp1 H. apply load_frame_counter_ret in H as (Hc & Hpos & Hat & _ & Hoth).
    split; [done |]. intros i g' Hg.
    destruct (decide (i = Z.to_nat idx)) as [-> | Hne].
    - right. rewrite Hat in Hg. destruct (gtks supp !! Z.to_nat idx); [| discriminate].
      injection Hg as <-. split; [f_equal; lia | done].
    - left. rewrite Hoth in Hg by done. eauto. }
  destruct (storage_key_of (line_key info)); simpl.
  - destruct (parse_byte_array 8 _); [| discriminate].
    destruct (eui64_eq _ _); [| discriminate].
    intros [= <-]. split; [done |]. intros i g' Hg. left. eauto.
  - destruct (parse_byte_array 32 _); [| discriminate].
    intros [= <-]. split; [done |]. intros i g' Hg. left. eauto.
  - intros [= <-]. split; [done |]. intros i g' Hg. left. eauto.
  - destruct (parse_byte_array 48 _); [| discriminate].
    intros [= <-]. split; [done |]. intros i g' Hg. left. eauto.
  - destruct (parse_gtk_key _ _ _ _) eqn:E; simpl; try discriminate.
    intros [= <-]. apply parse_gtk_key_counters in E as [Hc Hfc].
    split; [done |]. intros i g' Hg. by eapply Hsame.
  - destruct (array_set exp _ _); simpl; try discriminate.
    intros [= <-]. split; [done |]. intros i g' Hg. left. eauto.
  - destruct (load_frame_counter _ _ _ _) eqn:E; simpl; try discriminate.
    intros [= <-]. by apply Hfcl.
  - destruct (parse_gtk_key _ _ _ _) eqn:E; simpl; try discriminate.
    intros [= <-]. apply parse_gtk_key_counters in E as [Hc Hfc].
    split; [done |]. intros i g' Hg. by eapply Hsame.
  - destruct (array_set exp _ _); simpl; try discriminate.
    intros [= <-]. split; [done |]. intros i g' Hg. left. eauto.
  - destruct (load_frame_counter _ _ _ _) eqn:E; simpl; try discriminate.
    intros [= <-]. by apply Hfcl.
  - intros [= <-]. split; [done |]. intros i g' Hg. left. eauto.
Qed.

Lemma load_lines_cfg lines : forall st st',
  load_lines st lines = Ret st' -> cfg_eui64 (fst st') = cfg_eui64 (fst st).
Proof.
  induction lines as [| info lines IH]; intros st st' H; simpl in H.
  - by injection H as <-.
  - destruct (load_line st info) as [st1 | |] eqn:E; simpl in H; try discriminate.
    apply IH in H. apply load_line_counters in E as [Hc _]. congruence.
Qed.

Lemma load_lines_app pre post st :
  load_lines st (pre ++ post) = (st1 ← load_lines st pre; load_lines st1 post).
Proof.
  revert st. induction pre as [| info pre IH]; intros st; simpl; [done |].
  destruct (load_line st info); simpl; [apply IH | done | done].
Qed.


(** A frame counter line for a slot of the array is always loaded. *)
Lemma load_line_frame_counter st info slot :
  frame_counter_slot WS_GTK_COUNT info = Some slot ->
  0 <= slot < Z.of_nat (length (gtks (fst st))) ->
  exists st' g', load_line st info = Ret st' /\
    gtks (fst st') !! Z.to_nat slot = Some g' /\
    frame_counter g' = Z.min (stored_counter strtoul info + 200000) UINT32_MAX.
Proof.
  destruct st as [supp exp]. unfold frame_counter_slot, supp_storage_load_line. simpl.
  destruct (negb (line_ret info =? 0)); [discriminate |].
  assert (Hsat : add32sat (stored_counter strtoul info) FRAME_COUNTER_OFFSET =
                 Z.min (stored_counter strtoul info + 200000) UINT32_MAX).
  { apply add32sat_spec; [apply u32_range | unfold FRAME_COUNTER_OFFSET; lia]. }
  intros Hk Hr.
  destruct (array_set_in_range (gtks supp) slot
              (fun g => set_frame_counter g
                 (add32sat (u32 (strtoul (line_value info))) FRAME_COUNTER_OFFSET)) Hr)
    as (x & Hx & Hset).
  destruct (storage_key_of (line_key info)); try discriminate;
    injection Hk as Hk; rewrite Hk; unfold load_frame_counter; rewrite Hset; simpl;
    eexists _, _; (split; [reflexivity |]); simpl;
    (rewrite list_lookup_insert_eq by (by eapply lookup_lt_Some));
    (split; [reflexivity |]); simpl; apply Hsat.
Qed.

End StorageFacts.

(** ** The ETX compute timer when no computation is due *)

(** C6 (as amended): when the epoch condition is not met the handler
    leaves the estimator as it is (counters, ETX value and timers) and calls
    [on_etx_outdated] exactly when the outdated timer is stopped and the
    callback is set. *)
Theorem ws_etx_timeout_compute_not_due ctx e :
  tx_req_cnt e < update_min_tx_req_cnt ctx ->
  isnan (etx e) = false ->
  ws_etx_timeout_compute ctx e =
    (e, if timer_stopped (timer_outdated e) && on_etx_outdated ctx
        then [OnEtxOutdated] else []).
Proof.
  intros Hcnt Hnan. unfold ws_etx_timeout_compute.
  rewrite Hnan, orb_false_r.
  destruct (Z.geb_spec (tx_req_cnt e) (update_min_tx_req_cnt ctx)); [lia |].
  simpl. by destruct (timer_stopped (timer_outdated e) && on_etx_outdated ctx).
Qed.

(** ** The order of the admission filter *)

Section CheckCandidateFacts.
Variables WS_CAND_PARENT_THRESHOLD_DB WS_CAND_PARENT_HYSTERESIS_DB : Z.

Abbreviation check_candidate :=
  (rpl_mrhof_check_candidate WS_CAND_PARENT_THRESHOLD_DB WS_CAND_PARENT_HYSTERESIS_DB).
Abbreviation rsl_is_valid :=
  (rpl_mrhof_candidate_rsl_is_valid WS_CAND_PARENT_THRESHOLD_DB
                                    WS_CAND_PARENT_HYSTERESIS_DB).

(** C3 (as amended): the result of [rpl_mrhof_check_candidate] is the
    diagnostic of the first failing condition in the order ETX unknown,
    RSL, ETX above the maximum, deny timer, rank; an unknown ETX puts the
    neighbor in the PROBE state, otherwise the RSL verdict is stored. Only
    four diagnostics are distinct. *)
Theorem rpl_mrhof_check_candidate_order ipv6 nce r new_rank rsl_ok rank_limit :
  rpl nce = Some r ->
  rpl_mrhof_rank ipv6 (Some nce) = Ret new_rank ->
  (isnan (rpl_mrhof_etx ipv6 nce) = false -> rsl_is_valid ipv6 nce = Ret rsl_ok) ->
  check_candidate ipv6 nce rank_limit =
    Ret (exclusion_diag <$>
           first_failing (exclusion_conds ipv6 nce r rsl_ok new_rank rank_limit),
         if isnan (rpl_mrhof_etx ipv6 nce)
         then mk_nce (nce_eui64 nce) IPV6_NUD_PROBE (rpl nce)
         else set_rpl nce (set_rsl_valid r rsl_ok)) /\
  exclusion_diag ExEtxUnknown = exclusion_diag ExEtxAboveMax /\
  NoDup [exclusion_diag ExEtxUnknown; exclusion_diag ExRsl;
         exclusion_diag ExDenied; exclusion_diag ExRank].
Proof.
  intros Hr Hrank Hrsl. split; [| split; [done |]].
  - unfold rpl_mrhof_check_candidate, exclusion_conds. rewrite Hr, Hrank. simpl.
    destruct (isnan (rpl_mrhof_etx ipv6 nce)) eqn:Hnan; simpl.
    + f_equal. f_equal. destruct nce as [eui nud rp]. simpl in *.
      rewrite Hr. by destruct nud.
    + rewrite Hrsl by done. simpl.
      destruct rsl_ok; simpl; [| done].
      destruct (fgt _ _); simpl; [done |].
      destruct (timer_stopped (deny_timer r)); simpl; [| done].
      by destruct (new_rank >? rank_limit).
  - repeat (apply NoDup_cons_2;
      [rewrite ?elem_of_cons, ?elem_of_nil; simpl; intuition discriminate |]).
    apply NoDup_nil_2.
Qed.
End CheckCandidateFacts.

(** ** Rounding to binary32 *)

Local Open Scope Q_scope.

Lemma pow2_pos e : 0 < pow2 e.
Proof. unfold pow2. apply Qpower_0_lt. reflexivity. Qed.

Lemma pow2_add a b : pow2 (a + b) == pow2 a * pow2 b.
Proof. unfold pow2. apply Qpower_plus. discriminate. Qed.

Lemma pow2_sub a b : pow2 (a - b) == pow2 a / pow2 b.
Proof. unfold pow2. apply Qpower_minus. discriminate. Qed.

Lemma pow2_le a b : (a <= b)%Z -> pow2 a <= pow2 b.
Proof. intros H. unfold pow2. apply Qpower_le_compat_l; [done | discriminate]. Qed.

Lemma pow2_lt a b : (a < b)%Z -> pow2 a < pow2 b.
Proof. intros H. unfold pow2. apply Qpower_lt_compat_l; [done | reflexivity]. Qed.

Lemma pow2_Z e : (0 <= e)%Z -> pow2 e == inject_Z (2 ^ e).
Proof. intros H. unfold pow2. symmetry. apply (Zpower_Qpower 2 e H). Qed.

Lemma pow2_succ e : pow2 (e + 1) == 2 * pow2 e.
Proof. rewrite pow2_add. unfold pow2 at 2. simpl. ring. Qed.

Lemma Q_num_den (q : Q) : q == inject_Z (Qnum q) / inject_Z (Z.pos (Qden q)).
Proof. destruct q as [n d]. simpl. rewrite Qmake_Qdiv. reflexivity. Qed.

(** [ilog2 q] is the binary exponent of a positive rational. *)
Lemma ilog2_spec q : 0 < q -> pow2 (ilog2 q) <= q < pow2 (ilog2 q + 1).
Proof.
  intros Hq. unfold ilog2.
  set (n := Qnum q). set (d := Z.pos (Qden q)).
  assert (Hn : (0 < n)%Z) by (destruct q as [qn qd]; unfold Qlt in Hq; simpl in *; lia).
  assert (Hd : (0 < d)%Z) by (unfold d; lia).
  destruct (Z.log2_spec n Hn) as [Hn1 Hn2].
  destruct (Z.log2_spec d Hd) as [Hd1 Hd2].
  set (a := Z.log2 n) in *. set (b := Z.log2 d) in *.
  assert (Ha : (0 <= a)%Z) by apply Z.log2_nonneg.
  assert (Hb : (0 <= b)%Z) by apply Z.log2_nonneg.
  assert (Hdq : 0 < inject_Z d) by (change 0 with (inject_Z 0); by rewrite <- Zlt_Qlt).
  assert (Hqe : q * inject_Z d == inject_Z n).
  { rewrite (Q_num_den q) at 1. fold n d. field. lra. }
  (* bounds of n and d as rationals *)
  assert (Hn1' : pow2 a <= inject_Z n) by (rewrite pow2_Z by lia; by rewrite <- Zle_Qle).
  assert (Hn2' : inject_Z n < pow2 (a + 1))
    by (rewrite pow2_Z by lia; rewrite <- Zlt_Qlt; by replace (a + 1)%Z with (Z.succ a) by lia).
  assert (Hd1' : pow2 b <= inject_Z d) by (rewrite pow2_Z by lia; by rewrite <- Zle_Qle).
  assert (Hd2' : inject_Z d < pow2 (b + 1))
    by (rewrite pow2_Z by lia; rewrite <- Zlt_Qlt; by replace (b + 1)%Z with (Z.succ b) by lia).
  assert (Hup : q < pow2 (a - b + 1)).
  { replace (a - b + 1)%Z with ((a + 1) - b)%Z by lia. rewrite pow2_sub.
    assert (Hpb := pow2_pos b).
    apply Qlt_shift_div_l; [done |].
    apply Qle_lt_trans with (q * inject_Z d); [| by rewrite Hqe].
    apply Qmult_le_l; [done | done]. }
  assert (Hlo : pow2 (a - b - 1) <= q).
  { replace (a - b - 1)%Z with (a - (b + 1))%Z by lia. rewrite pow2_sub.
    assert (Hpb := pow2_pos (b + 1)).
    apply Qle_shift_div_r; [done |].
    apply Qle_trans with (inject_Z n); [done |]. rewrite <- Hqe.
    apply Qmult_le_l; [done |]. by apply Qlt_le_weak. }
  destruct (Qle_bool (pow2 (a - b)) q) eqn:E.
  - apply Qle_bool_iff in E. split; done.
  - assert (~ pow2 (a - b) <= q) by (rewrite <- Qle_bool_iff; congruence).
    split; [done |]. replace (a - b - 1 + 1)%Z with (a - b)%Z by lia.
    by apply Qnot_le_lt.
Qed.

Lemma ilog2_unique q k : pow2 k <= q < pow2 (k + 1) -> ilog2 q = k.
Proof.
  intros [H1 H2].
  assert (Hq : 0 < q) by (eapply Qlt_le_trans; [apply pow2_pos | exact H1]).
  destruct (ilog2_spec q Hq) as [H3 H4].
  destruct (Z.lt_trichotomy (ilog2 q) k) as [H | [H | H]]; [| done |]; exfalso.
  - assert (pow2 (ilog2 q + 1) <= pow2 k) by (apply pow2_le; lia). lra.
  - assert (pow2 (k + 1) <= pow2 (ilog2 q)) by (apply pow2_le; lia). lra.
Qed.

Lemma ilog2_mono a b : 0 < a -> a <= b -> (ilog2 a <= ilog2 b)%Z.
Proof.
  intros Ha Hab. assert (Hb : 0 < b) by lra.
  destruct (ilog2_spec a Ha) as [H1 H2]. destruct (ilog2_spec b Hb) as [H3 H4].
  destruct (Z_le_gt_dec (ilog2 a) (ilog2 b)) as [H | H]; [done | exfalso].
  assert (pow2 (ilog2 b + 1) <= pow2 (ilog2 a)) by (apply pow2_le; lia). lra.
Qed.

Lemma rne_cases x :
  let f := Qfloor x in
  inject_Z f <= x < inject_Z f + 1 /\
  ((x - inject_Z f < 1 # 2 /\ rne x = f) \/
   (1 # 2 < x - inject_Z f /\ rne x = (f + 1)%Z) \/
   (x - inject_Z f == 1 # 2 /\ rne x = if Z.even f then f else (f + 1)%Z)).
Proof.
  cbv zeta. split.
  - split; [apply Qfloor_le |].
    assert (H := Qlt_floor x). rewrite inject_Z_plus in H. exact H.
  - unfold rne. destruct (x - inject_Z (Qfloor x) ?= 1 # 2) eqn:E.
    + right. right. split; [by apply Qeq_alt | done].
    + left. split; [by apply Qlt_alt | done].
    + right. left. split; [by apply Qgt_alt | done].
Qed.

Lemma rne_comp x y : x == y -> rne x = rne y.
Proof.
  intros H. unfold rne. rewrite (Qfloor_comp _ _ H).
  assert (Hc : (x - inject_Z (Qfloor y) ?= 1 # 2) = (y - inject_Z (Qfloor y) ?= 1 # 2)).
  { apply Qcompare_comp; [by rewrite H | reflexivity]. }
  by rewrite Hc.
Qed.

Lemma rne_bounds x : inject_Z (rne x) - (1 # 2) <= x <= inject_Z (rne x) + (1 # 2).
Proof.
  destruct (rne_cases x) as [[H1 H2] [[H3 ->] | [[H3 ->] | [H3 ->]]]].
  - lra.
  - rewrite inject_Z_plus. change (inject_Z 1) with 1. lra.
  - destruct (Z.even (Qfloor x)); [lra |].
    rewrite inject_Z_plus. change (inject_Z 1) with 1. lra.
Qed.

Lemma rne_Z n : rne (inject_Z n) = n.
Proof.
  unfold rne. rewrite Qfloor_Z.
  assert (H : (inject_Z n - inject_Z n ?= 1 # 2) = Lt).
  { apply (proj1 (Qlt_alt _ _)). lra. }
  by rewrite H.
Qed.

Lemma inject_Z_succ_le a b : (a < b)%Z -> inject_Z a + 1 <= inject_Z b.
Proof.
  intros H. change 1 with (inject_Z 1). rewrite <- inject_Z_plus.
  rewrite <- Zle_Qle. lia.
Qed.

Lemma rne_mono x y : x <= y -> (rne x <= rne y)%Z.
Proof.
  intros Hxy.
  assert (Hf : (Qfloor x <= Qfloor y)%Z) by (by apply Qfloor_resp_le).
  destruct (rne_cases x) as [[Hx1 Hx2] Hx]. destruct (rne_cases y) as [[Hy1 Hy2] Hy].
  destruct (Z.eq_dec (Qfloor x) (Qfloor y)) as [He | Hne].
  - rewrite <- He in *.
    destruct Hx as [[Hx3 ->] | [[Hx3 ->] | [Hx3 ->]]];
      destruct Hy as [[Hy3 ->] | [[Hy3 ->] | [Hy3 ->]]];
      try lia; try (exfalso; lra); destruct (Z.even (Qfloor x)); try lia; exfalso; lra.
  - assert (Hlt := inject_Z_succ_le (Qfloor x) (Qfloor y) ltac:(lia)).
    assert (Hrx : (rne x <= Qfloor x + 1)%Z).
    { destruct Hx as [[_ ->] | [[_ ->] | [_ ->]]]; [lia | lia |].
      destruct (Z.even (Qfloor x)); lia. }
    assert (Hry : (Qfloor y <= rne y)%Z).
    { destruct Hy as [[_ ->] | [[_ ->] | [_ ->]]]; [lia | lia |].
      destruct (Z.even (Qfloor y)); lia. }
    lia.
Qed.

Lemma Qfloor_unique x f : inject_Z f <= x < inject_Z f + 1 -> Qfloor x = f.
Proof.
  intros [H1 H2].
  assert (Ha := Qfloor_le x). assert (Hb := Qlt_floor x).
  rewrite inject_Z_plus in Hb. change (inject_Z 1) with 1 in Hb.
  destruct (Z.lt_trichotomy (Qfloor x) f) as [H | [H | H]]; [| done |]; exfalso.
  - apply inject_Z_succ_le in H. lra.
  - apply inject_Z_succ_le in H. lra.
Qed.

Lemma rne_opp x : rne (- x) = (- rne x)%Z.
Proof.
  destruct (rne_cases x) as [[Hx1 Hx2] Hx].
  set (f := Qfloor x) in *.
  destruct (Qeq_dec x (inject_Z f)) as [He | Hne].
  - assert (H1 : rne x = f) by (rewrite (rne_comp _ _ He); apply rne_Z).
    assert (H2 : - x == inject_Z (- f)) by (rewrite inject_Z_opp, He; reflexivity).
    rewrite (rne_comp _ _ H2), rne_Z. lia.
  - assert (Hgt : inject_Z f < x).
    { destruct (Qlt_le_dec (inject_Z f) x) as [H | H]; [done |].
      exfalso. apply Hne. lra. }
    assert (Hfl : Qfloor (- x) = (- f - 1)%Z).
    { apply Qfloor_unique. unfold Z.sub. rewrite inject_Z_plus, inject_Z_opp.
      change (inject_Z (- (1))) with (- (1)). lra. }
    destruct (rne_cases (- x)) as [_ Hn]. rewrite Hfl in Hn.
    unfold Z.sub in Hn. rewrite inject_Z_plus, inject_Z_opp in Hn.
    change (inject_Z (- (1))) with (- (1)) in Hn.
    assert (Hev : Z.even (- f + - (1)) = negb (Z.even f)).
    { replace (- f + - (1))%Z with (Z.pred (- f)) by lia.
      rewrite Z.even_pred, Z.odd_opp. by rewrite Z.negb_even. }
    rewrite Hev in Hn.
    destruct Hx as [[Hx3 ->] | [[Hx3 ->] | [Hx3 ->]]];
      destruct Hn as [[Hn3 ->] | [[Hn3 ->] | [Hn3 ->]]];
      try lia; try (exfalso; lra); destruct (Z.even f); simpl; try lia; exfalso; lra.
Qed.

Lemma Qabs_pos_eq q : 0 <= q -> Qabs q = q.
Proof.
  destruct q as [n d]. unfold Qle. simpl. intros H.
  unfold Qabs. f_equal. apply Z.abs_eq. lia.
Qed.

Lemma Qabs_opp_eq q : Qabs (- q) = Qabs q.
Proof. destruct q as [n d]. unfold Qabs, Qopp. simpl. f_equal. apply Z.abs_opp. Qed.

Lemma f32_exp_opp q : f32_exp (- q) = f32_exp q.
Proof. unfold f32_exp. by rewrite Qabs_opp_eq. Qed.

Lemma Qdiv_le_pos a b p : 0 < p -> a <= b -> a / p <= b / p.
Proof.
  intros Hp Hab. unfold Qdiv. apply Qmult_le_compat_r; [done |].
  apply Qinv_le_0_compat. by apply Qlt_le_weak.
Qed.

Lemma pow2_quot n e : pow2 n / pow2 e == pow2 (n - e).
Proof. symmetry. apply pow2_sub. Qed.

(** Scaled rounding stays on the side of a power of two that is a multiple
    of the unit. *)
Lemma scaled_le_pow2 q e n :
  (e <= n)%Z -> q <= pow2 n -> inject_Z (rne (q / pow2 e)) * pow2 e <= pow2 n.
Proof.
  intros Hen Hq. assert (Hp := pow2_pos e).
  assert (Hr : (rne (q / pow2 e) <= 2 ^ (n - e))%Z).
  { rewrite <- (rne_Z (2 ^ (n - e))). apply rne_mono.
    rewrite <- pow2_Z by lia. rewrite <- pow2_quot. by apply Qdiv_le_pos. }
  rewrite Zle_Qle in Hr. rewrite <- pow2_Z in Hr by lia.
  apply Qle_trans with (pow2 (n - e) * pow2 e).
  - apply Qmult_le_compat_r; [done | by apply Qlt_le_weak].
  - rewrite <- pow2_add. replace (n - e + e)%Z with n by lia. apply Qle_refl.
Qed.

Lemma scaled_ge_pow2 q e n :
  (e <= n)%Z -> pow2 n <= q -> pow2 n <= inject_Z (rne (q / pow2 e)) * pow2 e.
Proof.
  intros Hen Hq. assert (Hp := pow2_pos e).
  assert (Hr : (2 ^ (n - e) <= rne (q / pow2 e))%Z).
  { rewrite <- (rne_Z (2 ^ (n - e))) at 1. apply rne_mono.
    rewrite <- pow2_Z by lia. rewrite <- pow2_quot. by apply Qdiv_le_pos. }
  rewrite Zle_Qle in Hr. rewrite <- pow2_Z in Hr by lia.
  apply Qle_trans with (pow2 (n - e) * pow2 e).
  - rewrite <- pow2_add. replace (n - e + e)%Z with n by lia. apply Qle_refl.
  - apply Qmult_le_compat_r; [done | by apply Qlt_le_weak].
Qed.

Lemma scaled_mono a b e :
  a <= b -> inject_Z (rne (a / pow2 e)) * pow2 e <= inject_Z (rne (b / pow2 e)) * pow2 e.
Proof.
  intros Hab. assert (Hp := pow2_pos e).
  apply Qmult_le_compat_r; [| by apply Qlt_le_weak].
  rewrite <- Zle_Qle. apply rne_mono. by apply Qdiv_le_pos.
Qed.

Lemma f32_exp_pos q : 0 < q -> f32_exp q = Z.max (ilog2 q - 23) (- 149).
Proof. intros H. unfold f32_exp. rewrite Qabs_pos_eq; [done | by apply Qlt_le_weak]. Qed.

Lemma f32_val_mono_pos a b : 0 < a -> a <= b -> f32_val a <= f32_val b.
Proof.
  intros Ha Hab. assert (Hb : 0 < b) by lra.
  unfold f32_val. rewrite (f32_exp_pos a Ha), (f32_exp_pos b Hb).
  assert (Hk := ilog2_mono a b Ha Hab).
  destruct (ilog2_spec a Ha) as [Ha1 Ha2]. destruct (ilog2_spec b Hb) as [Hb1 Hb2].
  set (ka := ilog2 a) in *. set (kb := ilog2 b) in *.
  destruct (Z.eq_dec (Z.max (ka - 23) (- 149)) (Z.max (kb - 23) (- 149))) as [He | Hne].
  - rewrite He. by apply scaled_mono.
  - assert (Hkk : (ka < kb)%Z) by lia.
    assert (Heb : Z.max (kb - 23) (- 149) = (kb - 23)%Z) by lia.
    apply Qle_trans with (pow2 kb).
    + apply scaled_le_pow2; [lia |].
      assert (pow2 (ka + 1) <= pow2 kb) by (apply pow2_le; lia). lra.
    + apply scaled_ge_pow2; [lia | done].
Qed.

Lemma f32_val_opp q : f32_val (- q) == - f32_val q.
Proof.
  unfold f32_val. rewrite f32_exp_opp.
  assert (Hp := pow2_pos (f32_exp q)).
  assert (He : - q / pow2 (f32_exp q) == - (q / pow2 (f32_exp q))).
  { field. lra. }
  rewrite (rne_comp _ _ He), rne_opp, inject_Z_opp. ring.
Qed.

Lemma f32_val_zero q : q == 0 -> f32_val q == 0.
Proof.
  intros H. unfold f32_val.
  assert (Hp := pow2_pos (f32_exp q)).
  assert (He : q / pow2 (f32_exp q) == inject_Z 0).
  { change (inject_Z 0) with 0. apply Qle_antisym.
    - apply Qle_shift_div_r; [done | lra].
    - apply Qle_shift_div_l; [done | lra]. }
  rewrite (rne_comp _ _ He), rne_Z. change (inject_Z 0) with 0. ring.
Qed.

Lemma f32_val_nonneg q : 0 <= q -> 0 <= f32_val q.
Proof.
  intros H. unfold f32_val. assert (Hp := pow2_pos (f32_exp q)).
  apply Qmult_le_0_compat; [| by apply Qlt_le_weak].
  change 0 with (inject_Z 0). rewrite <- Zle_Qle.
  rewrite <- (rne_Z 0). apply rne_mono. change (inject_Z 0) with 0.
  apply Qle_shift_div_l; [done | lra].
Qed.

Lemma f32_val_nonpos q : q <= 0 -> f32_val q <= 0.
Proof.
  intros H. assert (H1 : 0 <= - q) by lra.
  apply f32_val_nonneg in H1. rewrite f32_val_opp in H1. lra.
Qed.

(** Rounding is monotone. *)
Lemma f32_val_mono a b : a <= b -> f32_val a <= f32_val b.
Proof.
  intros Hab.
  destruct (Qlt_le_dec 0 a) as [Ha | Ha]; [by apply f32_val_mono_pos |].
  destruct (Qlt_le_dec b 0) as [Hb | Hb].
  - assert (H : f32_val (- b) <= f32_val (- a)) by (apply f32_val_mono_pos; lra).
    rewrite !f32_val_opp in H. lra.
  - apply Qle_trans with 0; [by apply f32_val_nonpos | by apply f32_val_nonneg].
Qed.

(** What [f32_round] returns, in terms of [f32_val]. *)
Lemma f32_round_spec q :
  (pow2 128 <= f32_val q /\ 0 < q /\ f32_round q = FInf false) \/
  (f32_val q <= - pow2 128 /\ q < 0 /\ f32_round q = FInf true) \/
  (- pow2 128 < f32_val q < pow2 128 /\
   exists v, f32_round q = FFin v /\ v == f32_val q).
Proof.
  unfold f32_round. fold (f32_val q).
  destruct (Qeq_bool q 0) eqn:E0.
  - apply Qeq_bool_iff in E0. right. right.
    assert (Hz := f32_val_zero q E0). assert (Hp := pow2_pos 128).
    split; [lra |]. exists 0. split; [done |]. by rewrite Hz.
  - assert (Hq0 : ~ q == 0) by (rewrite <- Qeq_bool_iff; congruence).
    destruct (Qle_bool (pow2 128) (Qabs (f32_val q))) eqn:E.
    + apply Qle_bool_iff in E.
      destruct (Qle_bool 0 q) eqn:Es.
      * apply Qle_bool_iff in Es. left.
        assert (Hv := f32_val_nonneg q Es).
        rewrite Qabs_pos in E by done.
        split; [done |]. split; [| done].
        destruct (Qlt_le_dec 0 q); [done |]. exfalso. apply Hq0. lra.
      * assert (Hs : q < 0).
        { apply Qnot_le_lt. rewrite <- Qle_bool_iff. congruence. }
        right. left. assert (Hv := f32_val_nonpos q ltac:(lra)).
        rewrite Qabs_neg in E by done. split; [lra | done].
    + assert (Hlt : Qabs (f32_val q) < pow2 128).
      { apply Qnot_le_lt. rewrite <- Qle_bool_iff. congruence. }
      right. right. split.
      * apply Qabs_Qlt_condition in Hlt. done.
      * exists (Qred (f32_val q)). split; [done | apply Qred_correct].
Qed.

Lemma f32_round_not_nan q : isnan (f32_round q) = false.
Proof.
  destruct (f32_round_spec q) as [(_ & _ & ->) | [(_ & _ & ->) | (_ & v & -> & _)]]; done.
Qed.

Theorem f32_round_mono a b : a <= b -> fle (f32_round a) (f32_round b) = true.
Proof.
  intros Hab. assert (Hv := f32_val_mono a b Hab). assert (Hp := pow2_pos 128).
  destruct (f32_round_spec a) as [(Ha1 & Ha2 & ->) | [(Ha1 & Ha2 & ->) | (Ha1 & va & -> & Ha2)]];
    destruct (f32_round_spec b) as [(Hb1 & Hb2 & ->) | [(Hb1 & Hb2 & ->) | (Hb1 & vb & -> & Hb2)]];
    simpl; try done; try (exfalso; lra).
  apply Qle_bool_iff. rewrite Ha2, Hb2. done.
Qed.

(** ** Order on [float] values *)

Lemma Qle_bool_false x y : Qle_bool x y = false <-> y < x.
Proof.
  split; intros H.
  - apply Qnot_le_lt. rewrite <- Qle_bool_iff. congruence.
  - destruct (Qle_bool x y) eqn:E; [| done].
    apply Qle_bool_iff in E. exfalso. lra.
Qed.

Ltac fcmp :=
  repeat match goal with
         | x : float |- _ => destruct x as [| [] |]
         end;
  simpl in *; try done;
  rewrite ?negb_true_iff, ?negb_false_iff in *;
  rewrite ?Qle_bool_iff, ?Qle_bool_false in *;
  try lra.

Lemma flt_irrefl x : flt x x = false.
Proof. fcmp. Qed.

Lemma fle_refl x : isnan x = false -> fle x x = true.
Proof. intros H. fcmp. Qed.

Lemma fle_trans x y z : fle x y = true -> fle y z = true -> fle x z = true.
Proof. intros H1 H2. fcmp. Qed.

Lemma flt_fle_trans x y z : flt x y = true -> fle y z = true -> flt x z = true.
Proof. intros H1 H2. fcmp. Qed.

Lemma fle_flt_trans x y z : fle x y = true -> flt y z = true -> flt x z = true.
Proof. intros H1 H2. fcmp. Qed.

Lemma flt_fle x y : flt x y = true -> fle x y = true.
Proof. intros H. fcmp. Qed.

Lemma fle_not_flt x y : fle x y = true -> flt y x = false.
Proof. intros H. fcmp. Qed.

Lemma flt_not_fle x y : flt x y = true -> fle y x = false.
Proof. intros H. fcmp. Qed.

(** Without NaNs the order is total. *)
Lemma fle_false_flt x y :
  isnan x = false -> isnan y = false -> fle x y = false -> flt y x = true.
Proof. intros Hx Hy H. fcmp. Qed.

Lemma fle_nan_l x y : fle x y = true -> isnan x = false.
Proof. intros H. fcmp. Qed.

Lemma fle_nan_r x y : fle x y = true -> isnan y = false.
Proof. intros H. fcmp. Qed.

Lemma flt_nan_l x y : flt x y = true -> isnan x = false.
Proof. intros H. fcmp. Qed.

Lemma flt_nan_r x y : flt x y = true -> isnan y = false.
Proof. intros H. fcmp. Qed.

Lemma f32_of_int_not_nan z : isnan (f32_of_int z) = false.
Proof. apply f32_round_not_nan. Qed.

Lemma f32_round_opp q : f32_round (- q) = fneg (f32_round q).
Proof.
  unfold f32_round. fold (f32_val q). fold (f32_val (- q)).
  assert (Hv := f32_val_opp q).
  destruct (Qeq_bool q 0) eqn:E0.
  - apply Qeq_bool_iff in E0.
    assert (E1 : Qeq_bool (- q) 0 = true) by (apply Qeq_bool_iff; lra).
    by rewrite E1.
  - assert (Hq0 : ~ q == 0) by (rewrite <- Qeq_bool_iff; congruence).
    assert (E1 : Qeq_bool (- q) 0 = false).
    { destruct (Qeq_bool (- q) 0) eqn:E; [| done].
      apply Qeq_bool_iff in E. exfalso. apply Hq0. lra. }
    rewrite E1.
    assert (Ha : Qabs (f32_val (- q)) == Qabs (f32_val q)).
    { rewrite Hv. apply Qabs_opp. }
    assert (Hb : Qle_bool (pow2 128) (Qabs (f32_val (- q))) =
                 Qle_bool (pow2 128) (Qabs (f32_val q))).
    { destruct (Qle_bool (pow2 128) (Qabs (f32_val q))) eqn:E.
      - apply Qle_bool_iff. apply Qle_bool_iff in E. by rewrite Ha.
      - apply Qle_bool_false. apply Qle_bool_false in E. by rewrite Ha. }
    rewrite Hb. destruct (Qle_bool (pow2 128) (Qabs (f32_val q))).
    + simpl. f_equal.
      destruct (Qle_bool 0 q) eqn:Es.
      * apply Qle_bool_iff in Es.
        assert (E2 : Qle_bool 0 (- q) = false) by (apply Qle_bool_false; lra).
        by rewrite E2.
      * apply Qle_bool_false in Es.
        assert (E2 : Qle_bool 0 (- q) = true) by (apply Qle_bool_iff; lra).
        by rewrite E2.
    + simpl. f_equal. rewrite <- Qred_opp. apply Qred_complete. done.
Qed.

(** A value between two finite floats rounds to a finite float between
    them. *)
Lemma f32_round_between lo hi q vlo vhi :
  f32_round lo = FFin vlo -> f32_round hi = FFin vhi -> lo <= q -> q <= hi ->
  exists v, f32_round q = FFin v /\ vlo <= v /\ v <= vhi.
Proof.
  intros Hlo Hhi H1 H2.
  assert (M1 := f32_round_mono lo q H1). assert (M2 := f32_round_mono q hi H2).
  rewrite Hlo in M1. rewrite Hhi in M2.
  destruct (f32_round q) as [| [] | v]; simpl in *; try done.
  exists v. split; [done |]. by rewrite <- !Qle_bool_iff.
Qed.

Lemma f32_of_int_u16 z :
  (0 <= z <= 65535)%Z ->
  exists v, f32_of_int z = FFin v /\ 0 <= v /\ v <= 65535.
Proof.
  intros Hz. unfold f32_of_int.
  apply (f32_round_between (inject_Z 0) (inject_Z 65535)).
  - by vm_compute.
  - by vm_compute.
  - rewrite <- Zle_Qle. lia.
  - rewrite <- Zle_Qle. lia.
Qed.

(** Addition is monotone in its first operand. *)
Lemma fadd_mono x y t :
  fle x y = true -> isnan (fadd x t) = false -> isnan (fadd y t) = false ->
  fle (fadd x t) (fadd y t) = true.
Proof.
  intros Hxy Hx Hy.
  destruct x as [| [] | a], y as [| [] | b], t as [| [] | c]; simpl in *; try done.
  - by destruct (f32_round (b + c)) as [| [] |].
  - by destruct (f32_round (a + c)) as [| [] |].
  - apply f32_round_mono. apply Qle_bool_iff in Hxy. lra.
Qed.

(** ** Rounding error and the EWMA step *)

Lemma ilog2_abs_comp a b : a == b -> ~ b == 0 -> ilog2 (Qabs a) = ilog2 (Qabs b).
Proof.
  intros Hab Hb. apply ilog2_unique.
  assert (Hpos : 0 < Qabs b).
  { destruct (Qlt_le_dec 0 b) as [H | H].
    - rewrite Qabs_pos; lra.
    - rewrite Qabs_neg by done.
      destruct (Qlt_le_dec b 0) as [H' | H']; [lra |].
      exfalso. apply Hb. lra. }
  assert (Hs := ilog2_spec (Qabs b) Hpos). by rewrite Hab.
Qed.

Lemma f32_val_comp a b : a == b -> f32_val a == f32_val b.
Proof.
  intros Hab. destruct (Qeq_dec b 0) as [Hb | Hb].
  - rewrite (f32_val_zero b Hb). apply f32_val_zero. by rewrite Hab.
  - unfold f32_val, f32_exp. rewrite (ilog2_abs_comp a b Hab Hb).
    set (e := Z.max (ilog2 (Qabs b) - 23) (- 149)).
    assert (He : a / pow2 e == b / pow2 e) by by rewrite Hab.
    by rewrite (rne_comp _ _ He).
Qed.

Lemma f32_round_fin x v : f32_round x = FFin v -> v == f32_val x.
Proof.
  intros H.
  destruct (f32_round_spec x) as [(_ & _ & E) | [(_ & _ & E) | (_ & w & E & Hw)]];
    rewrite E in H; try done. by injection H as <-.
Qed.

Lemma pow2_m24 : pow2 (- 24) == 1 # 16777216.
Proof. reflexivity. Qed.

(** The relative error of rounding a normal number is at most [2^-24]. *)
Lemma f32_val_rel x :
  pow2 (- 126) <= x -> f32_val x <= x * (16777217 # 16777216).
Proof.
  intros Hx. assert (Hp126 := pow2_pos (- 126)). assert (Hpos : 0 < x) by lra.
  unfold f32_val. rewrite (f32_exp_pos x Hpos).
  destruct (ilog2_spec x Hpos) as [Hk1 Hk2].
  assert (Hk : (- 126 <= ilog2 x)%Z).
  { rewrite <- (ilog2_unique (pow2 (- 126)) (- 126)).
    - by apply ilog2_mono.
    - split; [apply Qle_refl | apply pow2_lt; lia]. }
  set (k := ilog2 x) in *.
  replace (Z.max (k - 23) (- 149)) with (k - 23)%Z by lia.
  set (e := (k - 23)%Z). assert (Hpe := pow2_pos e).
  destruct (rne_bounds (x / pow2 e)) as [Hr _].
  assert (Hmul : inject_Z (rne (x / pow2 e)) * pow2 e <= x + (1 # 2) * pow2 e).
  { assert (Hexp : (x / pow2 e + (1 # 2)) * pow2 e == x + (1 # 2) * pow2 e).
    { field. lra. }
    rewrite <- Hexp. apply Qmult_le_compat_r; lra. }
  assert (Hhalf : pow2 e == pow2 k * pow2 (- 23)).
  { rewrite <- pow2_add. by replace (k + - 23)%Z with e by lia. }
  assert (H23 : pow2 (- 23) == 1 # 8388608) by reflexivity.
  rewrite H23 in Hhalf.
  set (L := inject_Z (rne (x / pow2 e)) * pow2 e) in *.
  lra.
Qed.

Lemma f32_val_pow2_m100 : f32_val (pow2 (- 100)) == pow2 (- 100).
Proof. vm_compute. reflexivity. Qed.

(** [sf * (raw - cur)], rounded twice, stays between zero and the exact
    difference [x = raw - cur] when this is not tiny. *)
Lemma ewma_step_pos x sf :
  pow2 (- 100) <= x -> 1 # 8 <= sf -> sf <= 1 # 2 ->
  0 <= f32_val (sf * f32_val x) /\ f32_val (sf * f32_val x) <= x.
Proof.
  intros Hx Hs1 Hs2.
  assert (H100 : pow2 (- 100) == 1 # 1267650600228229401496703205376) by reflexivity.
  assert (H126 : pow2 (- 126) == 1 # 85070591730234615865843651857942052864) by reflexivity.
  assert (Hd1 : pow2 (- 100) <= f32_val x).
  { rewrite <- f32_val_pow2_m100. by apply f32_val_mono. }
  assert (Hd2 : f32_val x <= x * (16777217 # 16777216)).
  { apply f32_val_rel. lra. }
  set (d := f32_val x) in *.
  assert (Hy1 : (1 # 8) * d <= sf * d) by (apply Qmult_le_compat_r; lra).
  assert (Hy2 : sf * d <= (1 # 2) * d) by (apply Qmult_le_compat_r; lra).
  assert (Hp : f32_val (sf * d) <= sf * d * (16777217 # 16777216)).
  { apply f32_val_rel. lra. }
  split; [apply f32_val_nonneg; lra | lra].
Qed.

Lemma ewma_step_neg x sf :
  x <= - pow2 (- 100) -> 1 # 8 <= sf -> sf <= 1 # 2 ->
  x <= f32_val (sf * f32_val x) /\ f32_val (sf * f32_val x) <= 0.
Proof.
  intros Hx Hs1 Hs2.
  destruct (ewma_step_pos (- x) sf ltac:(lra) Hs1 Hs2) as [H1 H2].
  assert (He : sf * f32_val (- x) == - (sf * f32_val x)).
  { rewrite f32_val_opp. ring. }
  rewrite (f32_val_comp _ _ He), f32_val_opp in H1, H2. lra.
Qed.

Lemma ewma_step_small x sf :
  - pow2 (- 100) <= x -> x <= pow2 (- 100) -> 0 <= sf -> sf <= 1 ->
  - pow2 (- 100) <= f32_val (sf * f32_val x) /\
  f32_val (sf * f32_val x) <= pow2 (- 100).
Proof.
  intros Hx1 Hx2 Hs1 Hs2.
  assert (H100 := pow2_pos (- 100)).
  assert (Hv := f32_val_pow2_m100).
  assert (Hvn : f32_val (- pow2 (- 100)) == - pow2 (- 100)).
  { by rewrite f32_val_opp, Hv. }
  assert (Hd1 := f32_val_mono _ _ Hx1). assert (Hd2 := f32_val_mono _ _ Hx2).
  rewrite Hvn in Hd1. rewrite Hv in Hd2.
  set (d := f32_val x) in *.
  assert (Hy : - pow2 (- 100) <= sf * d /\ sf * d <= pow2 (- 100)).
  { destruct (Qlt_le_dec d 0) as [Hneg | Hnn].
    - assert (sf * (- d) <= 1 * (- d)) by (apply Qmult_le_compat_r; lra).
      assert (0 <= sf * (- d)) by (apply Qmult_le_0_compat; lra).
      split; lra.
    - assert (sf * d <= 1 * d) by (apply Qmult_le_compat_r; lra).
      assert (0 <= sf * d) by (apply Qmult_le_0_compat; lra).
      split; lra. }
  destruct Hy as [Hy1 Hy2].
  assert (Hp1 := f32_val_mono _ _ Hy1). assert (Hp2 := f32_val_mono _ _ Hy2).
  rewrite Hvn in Hp1. rewrite Hv in Hp2. done.
Qed.

(** One EWMA step between two values of [128, 1024] with a smoothing
    factor in [1/8, 1/2] gives a value of [128, 1024]. *)
Lemma ws_ewma_next_range cur raw sf :
  128 <= cur -> cur <= 1024 -> 128 <= raw -> raw <= 1024 ->
  1 # 8 <= sf -> sf <= 1 # 2 ->
  exists v, ws_ewma_next (FFin cur) (FFin raw) (FFin sf) = FFin v /\
            128 <= v /\ v <= 1024.
Proof.
  intros Hc1 Hc2 Hr1 Hr2 Hs1 Hs2. unfold ws_ewma_next. simpl.
  assert (H100 : pow2 (- 100) == 1 # 1267650600228229401496703205376) by reflexivity.
  (* raw - cur *)
  destruct (f32_round_between (- (896)) 896 (raw - cur) (- (896)) 896)
    as (d & Hd & Hd1 & Hd2); [by vm_compute | by vm_compute | lra | lra |].
  rewrite Hd. simpl. apply f32_round_fin in Hd.
  (* sf * (raw - cur) *)
  assert (Hy : - (896) <= sf * d /\ sf * d <= 896).
  { destruct (Qlt_le_dec d 0) as [Hneg | Hnn].
    - assert (sf * (- d) <= 1 * (- d)) by (apply Qmult_le_compat_r; lra).
      assert (0 <= sf * (- d)) by (apply Qmult_le_0_compat; lra).
      split; lra.
    - assert (sf * d <= 1 * d) by (apply Qmult_le_compat_r; lra).
      assert (0 <= sf * d) by (apply Qmult_le_0_compat; lra).
      split; lra. }
  destruct (f32_round_between (- (896)) 896 (sf * d) (- (896)) 896)
    as (p & Hp & _ & _); [by vm_compute | by vm_compute | lra | lra |].
  rewrite Hp. simpl. apply f32_round_fin in Hp.
  assert (Hpd : p == f32_val (sf * f32_val (raw - cur))).
  { rewrite Hp. apply f32_val_comp. by rewrite Hd. }
  (* ... + cur *)
  assert (Hsum : 128 - pow2 (- 100) <= p + cur /\ p + cur <= 1024 + pow2 (- 100)).
  { destruct (Qlt_le_dec (raw - cur) (- pow2 (- 100))) as [Hneg | Hnn].
    - destruct (ewma_step_neg (raw - cur) sf ltac:(lra) Hs1 Hs2) as [H1 H2].
      rewrite <- Hpd in H1, H2. split; lra.
    - destruct (Qlt_le_dec (pow2 (- 100)) (raw - cur)) as [Hpos | Hsmall].
      + destruct (ewma_step_pos (raw - cur) sf ltac:(lra) Hs1 Hs2) as [H1 H2].
        rewrite <- Hpd in H1, H2. split; lra.
      + destruct (ewma_step_small (raw - cur) sf Hnn Hsmall ltac:(lra) ltac:(lra))
          as [H1 H2].
        rewrite <- Hpd in H1, H2. split; lra. }
  destruct Hsum as [Hsum1 Hsum2].
  apply (f32_round_between (128 - pow2 (- 100)) (1024 + pow2 (- 100))); try done;
    by vm_compute.
Qed.

Local Close Scope Q_scope.

(** ** Parent selection (rpl_mrhof.c) *)

Section SelectParentFacts.
Variables TH HY : Z.

Local Abbreviation check := (rpl_mrhof_check_candidate TH HY).
Local Abbreviation adm := (admissible TH HY).
Local Abbreviation scan := (select_scan TH HY).

(** The evaluation of a candidate reads the entry and the MRHOF context,
    not the neighbor cache. *)
Lemma check_candidate_cache ipv6 l nce rl :
  check (with_cache ipv6 l) nce rl = check ipv6 nce rl.
Proof. reflexivity. Qed.

Lemma select_scan_cons ipv6 rl done nce todo pc pn :
  scan ipv6 rl done (nce :: todo) pc pn =
  match rpl nce with
  | None => scan ipv6 rl (done ++ [nce]) todo pc pn
  | Some _ =>
      path_cost ← rpl_mrhof_path_cost ipv6 nce;
      new_rank ← rpl_mrhof_rank ipv6 (Some nce);
      '(discard, nce') ← check ipv6 nce rl;
      match discard with
      | Some _ => scan ipv6 rl (done ++ [nce']) todo pc pn
      | None =>
          if fge path_cost pc
          then scan ipv6 rl (done ++ [nce']) todo pc pn
          else scan ipv6 rl (done ++ [nce']) todo path_cost (Some (length done))
      end
  end.
Proof. reflexivity. Qed.

Lemma ntohs_range x : (0 <= ntohs x <= 65535)%Z.
Proof. unfold ntohs, u16. assert (H := Z.mod_pos_bound x (2 ^ 16)). lia. Qed.

Lemma fadd_rank_not_nan x z :
  isnan x = false -> isnan (fadd x (f32_of_int (ntohs z))) = false.
Proof.
  intros Hx. destruct (f32_of_int_u16 (ntohs z) (ntohs_range z)) as (v & -> & _).
  destruct x as [| [] | q]; try done. simpl. apply f32_round_not_nan.
Qed.

(** What the three calls of the loop body give for an entry whose
    evaluation is defined. *)
Lemma evaluates_ret ipv6 nce r rl :
  rpl nce = Some r -> evaluates TH HY ipv6 nce = true ->
  exists c rank d nce',
    rpl_mrhof_path_cost ipv6 nce = Ret c /\
    rpl_mrhof_rank ipv6 (Some nce) = Ret rank /\
    check ipv6 nce rl = Ret (d, nce') /\
    nce_flags nce' = nce_flags nce /\
    (d = None -> isnan c = false).
Proof.
  intros Hr He. unfold evaluates, rpl_mrhof_check_candidate in *.
  unfold rpl_mrhof_path_cost, nce_rpl. rewrite Hr in *.
  destruct (rpl_mrhof_rank ipv6 (Some nce)) as [rank | |] eqn:Hrank; try done.
  simpl in *.
  destruct (isnan (rpl_mrhof_etx ipv6 nce)) eqn:Hnan.
  - eexists _, rank, _, _. repeat split; try done.
    destruct (nud_state nce); unfold nce_flags, nce_is_parent; simpl; by rewrite ?Hr.
  - destruct (rpl_mrhof_candidate_rsl_is_valid TH HY ipv6 nce) as [v | |]; try done.
    simpl in *.
    assert (Hf : nce_flags (set_rpl nce (set_rsl_valid r v)) = nce_flags nce).
    { unfold nce_flags, nce_is_parent. simpl. rewrite Hr.
      reflexivity. }
    assert (Hc := fadd_rank_not_nan _ (dio_rank r) Hnan).
    destruct (negb v);
      [| destruct (fgt _ _);
         [| destruct (negb _); [| destruct (rank >? rl)%Z ] ] ];
      eexists _, rank, _, _; repeat split; done.
Qed.

Lemma admissible_check ipv6 rl nce d nce' :
  check ipv6 nce rl = Ret (d, nce') ->
  adm ipv6 rl nce = match d with None => true | Some _ => false end.
Proof. intros H. unfold admissible. rewrite H. by destruct d. Qed.

Lemma path_cost_of_ret ipv6 nce c :
  rpl_mrhof_path_cost ipv6 nce = Ret c -> path_cost_of ipv6 nce = c.
Proof. intros H. unfold path_cost_of. by rewrite H. Qed.

(** The loop of [rpl_mrhof_select_parent] returns, changes no [is_parent]
    flag, and leaves in [pref_path_cost] and [pref_parent_new] the first
    admissible entry of least path cost below the initial
    [pref_path_cost], if there is one. *)
Lemma select_scan_spec ipv6 rl : forall todo done pc pn,
  isnan pc = false ->
  Forall (fun nce => is_Some (rpl nce) -> evaluates TH HY ipv6 nce = true) todo ->
  exists todo' pc' pn',
    scan ipv6 rl done todo pc pn = Ret (done ++ todo', pc', pn') /\
    map nce_flags todo' = map nce_flags todo /\
    fle pc' pc = true /\
    (forall j n, todo !! j = Some n -> is_Some (rpl n) -> adm ipv6 rl n = true ->
       fle pc' (path_cost_of ipv6 n) = true) /\
    ((pn' = pn /\ pc' = pc) \/
     exists k n, pn' = Some (length done + k)%nat /\ todo !! k = Some n /\
       is_Some (rpl n) /\ adm ipv6 rl n = true /\ path_cost_of ipv6 n = pc' /\
       flt pc' pc = true /\
       forall j nj, (j < k)%nat -> todo !! j = Some nj -> is_Some (rpl nj) ->
         adm ipv6 rl nj = true -> flt pc' (path_cost_of ipv6 nj) = true).
Proof.
  induction todo as [| nce todo IH]; intros done pc pn Hpc Hev.
  - exists [], pc, pn. simpl. rewrite app_nil_r.
    repeat split; [by apply fle_refl | | by left].
    intros j n Hj. by rewrite lookup_nil in Hj.
  - rewrite select_scan_cons. inversion Hev as [| ? ? Hnce Htl]; subst.
    (* an entry that is skipped *)
    assert (Hskip : forall nce',
      nce_flags nce' = nce_flags nce ->
      (is_Some (rpl nce) -> adm ipv6 rl nce = true ->
         fle pc (path_cost_of ipv6 nce) = true) ->
      exists todo' pc' pn',
        scan ipv6 rl (done ++ [nce']) todo pc pn = Ret (done ++ todo', pc', pn') /\
        map nce_flags todo' = map nce_flags (nce :: todo) /\
        fle pc' pc = true /\
        (forall j n, (nce :: todo) !! j = Some n -> is_Some (rpl n) ->
           adm ipv6 rl n = true -> fle pc' (path_cost_of ipv6 n) = true) /\
        ((pn' = pn /\ pc' = pc) \/
         exists k n, pn' = Some (length done + k)%nat /\ (nce :: todo) !! k = Some n /\
           is_Some (rpl n) /\ adm ipv6 rl n = true /\ path_cost_of ipv6 n = pc' /\
           flt pc' pc = true /\
           forall j nj, (j < k)%nat -> (nce :: todo) !! j = Some nj -> is_Some (rpl nj) ->
             adm ipv6 rl nj = true -> flt pc' (path_cost_of ipv6 nj) = true)).
    { intros nce' Hfl Hge.
      destruct (IH (done ++ [nce']) pc pn Hpc Htl)
        as (todo' & pc' & pn' & Hs & Hm & Hle & Hall & Hbest).
      exists (nce' :: todo'), pc', pn'.
      rewrite <- app_assoc in Hs. simpl in Hs.
      split; [done |]. split; [simpl; by rewrite Hfl, Hm |]. split; [done |].
      split.
      - intros [| j] n Hj Hn Ha; simpl in Hj.
        + injection Hj as <-. eapply fle_trans; [exact Hle | by apply Hge].
        + by eapply Hall.
      - destruct Hbest as [Hsame | (k & n & -> & Hk & Hn & Ha & Hc & Hlt & Hbefore)].
        + by left.
        + right. exists (S k), n. rewrite length_app in *. simpl.
          split; [f_equal; lia |]. repeat split; try done.
          intros [| j] nj Hjk Hj Hnj Haj; simpl in Hj.
          * injection Hj as <-. eapply flt_fle_trans; [exact Hlt | by apply Hge].
          * apply (Hbefore j nj); [lia | done..]. }
    destruct (rpl nce) as [r |] eqn:Hr.
    + destruct (evaluates_ret ipv6 nce r rl Hr (Hnce ltac:(eauto)))
        as (c & rank & d & nce' & Hcost & Hrank & Hchk & Hfl & Hnan).
      rewrite Hcost, Hrank, Hchk. simpl.
      assert (Hadm := admissible_check _ _ _ _ _ Hchk).
      assert (Hpco := path_cost_of_ret _ _ _ Hcost).
      destruct d as [reason |].
      * apply Hskip; [done |]. intros _ Ha. congruence.
      * specialize (Hnan eq_refl). unfold fge. destruct (fle pc c) eqn:Hge.
        -- apply Hskip; [done |]. intros _ _. by rewrite Hpco.
        -- assert (Hlt : flt c pc = true) by by apply fle_false_flt.
           destruct (IH (done ++ [nce']) c (Some (length done)) Hnan Htl)
             as (todo' & pc' & pn' & Hs & Hm & Hle & Hall & Hbest).
           exists (nce' :: todo'), pc', pn'.
           rewrite <- app_assoc in Hs. simpl in Hs.
           split; [done |]. split; [simpl; by rewrite Hfl, Hm |].
           split; [eapply fle_trans; [exact Hle | by apply flt_fle] |].
           split.
           ++ intros [| j] n Hj Hn Ha; simpl in Hj.
              ** injection Hj as <-. by rewrite Hpco.
              ** by eapply Hall.
           ++ right.
              destruct Hbest as [[-> ->] | (k & n & -> & Hk & Hn & Ha & Hc & Hlt' & Hbefore)].
              ** exists 0%nat, nce. rewrite Nat.add_0_r.
                 repeat split; try done; try (rewrite Hr; by eexists).
                 intros j nj Hj. lia.
              ** exists (S k), n. rewrite length_app. simpl.
                 split; [f_equal; lia |]. repeat split; try done.
                 --- eapply flt_fle_trans; [exact Hlt' | by apply flt_fle].
                 --- intros [| j] nj Hjk Hj Hnj Haj; simpl in Hj.
                     +++ injection Hj as <-. by rewrite Hpco.
                     +++ apply (Hbefore j nj); [lia | done..].
    + apply Hskip; [done |]. intros [? ?]. done.
Qed.
End SelectParentFacts.

(** ** The preferred parent and the [is_parent] flags *)

Lemma find_index_Some {A} (p : A -> bool) l i :
  find_index p l = Some i ->
  exists n, l !! i = Some n /\ p n = true /\
    forall j nj, (j < i)%nat -> l !! j = Some nj -> p nj = false.
Proof.
  revert i. induction l as [| x l IH]; intros i H; simpl in H; [done |].
  destruct (p x) eqn:Hp.
  - injection H as <-. exists x. repeat split; [done |]. intros j nj Hj. lia.
  - destruct (find_index p l) as [i' |] eqn:Hf; [| done]. simpl in H.
    injection H as <-. destruct (IH i' eq_refl) as (n & Hn & Hpn & Hb).
    exists n. repeat split; [done.. |].
    intros [| j] nj Hj Hl; simpl in Hl.
    + by injection Hl as <-.
    + apply (Hb j); [lia | done].
Qed.

Lemma find_index_None {A} (p : A -> bool) l :
  find_index p l = None -> forall j n, l !! j = Some n -> p n = false.
Proof.
  induction l as [| x l IH]; intros H j n Hj; [by rewrite lookup_nil in Hj |].
  simpl in H. destruct (p x) eqn:Hp; [done |].
  destruct (find_index p l) eqn:Hf; [done |].
  destruct j as [| j]; simpl in Hj.
  - by injection Hj as <-.
  - by apply (IH eq_refl j).
Qed.

Lemma parent_count_cons n l :
  parent_count (n :: l) =
  ((if nce_is_parent n then 1 else 0) + parent_count l)%nat.
Proof. unfold parent_count. simpl. by destruct (nce_is_parent n). Qed.

Lemma parent_count_flags l1 : forall l2,
  map nce_is_parent l1 = map nce_is_parent l2 -> parent_count l1 = parent_count l2.
Proof.
  induction l1 as [| x l1 IH]; intros [| y l2] H; simpl in H; try done.
  injection H as Hx Hl. rewrite !parent_count_cons, Hx. f_equal. by apply IH.
Qed.

Lemma parent_count_none l :
  (forall j n, l !! j = Some n -> nce_is_parent n = false) -> parent_count l = 0%nat.
Proof.
  induction l as [| x l IH]; intros H; [done |].
  rewrite parent_count_cons, (H 0%nat x eq_refl). simpl.
  apply IH. intros j n Hj. by apply (H (S j)).
Qed.

Lemma parent_count_one l : forall b,
  (b < length l)%nat ->
  (forall j n, l !! j = Some n -> nce_is_parent n = bool_decide (j = b)) ->
  parent_count l = 1%nat.
Proof.
  induction l as [| x l IH]; intros b Hb H; simpl in Hb; [lia |].
  rewrite parent_count_cons, (H 0%nat x eq_refl).
  destruct b as [| b].
  - simpl. f_equal. apply parent_count_none.
    intros j n Hj. by rewrite (H (S j) n Hj).
  - simpl. apply (IH b); [lia |].
    intros j n Hj. rewrite (H (S j) n Hj).
    apply bool_decide_ext. lia.
Qed.

(** With at most one flag set, the flagged entry is the only one. *)
Lemma parent_count_unique l : forall i n,
  (parent_count l <= 1)%nat -> l !! i = Some n -> nce_is_parent n = true ->
  forall j nj, l !! j = Some nj -> nce_is_parent nj = bool_decide (j = i).
Proof.
  induction l as [| x l IH]; intros i n Hc Hi Hn j nj Hj; [by rewrite lookup_nil in Hi |].
  rewrite parent_count_cons in Hc.
  destruct i as [| i], j as [| j]; simpl in Hi, Hj.
  - injection Hi as ->. injection Hj as ->. by rewrite Hn.
  - injection Hi as ->. rewrite Hn in Hc.
    destruct (nce_is_parent nj) eqn:Hnj; [| done].
    exfalso.
    assert (Hpos : (1 <= parent_count l)%nat).
    { clear -Hj Hnj. revert j Hj. induction l as [| y l IHl]; intros j Hj;
        [by rewrite lookup_nil in Hj |].
      rewrite parent_count_cons. destruct j as [| j]; simpl in Hj.
      - injection Hj as ->. rewrite Hnj. lia.
      - specialize (IHl j Hj). lia. }
    lia.
  - injection Hj as ->.
    destruct (nce_is_parent nj) eqn:Hnj; [| done].
    exfalso.
    assert (Hpos : (1 <= parent_count l)%nat).
    { clear -Hi Hn. revert i Hi. induction l as [| y l IHl]; intros i Hi;
        [by rewrite lookup_nil in Hi |].
      rewrite parent_count_cons. destruct i as [| i]; simpl in Hi.
      - injection Hi as ->. rewrite Hn. lia.
      - specialize (IHl i Hi). lia. }
    lia.
  - rewrite (IH i n) with (j := j) (nj := nj); try done.
    + apply bool_decide_ext. lia.
    + destruct (nce_is_parent x); lia.
Qed.

Lemma flags_lookup l' l j n' :
  map nce_flags l' = map nce_flags l -> l' !! j = Some n' ->
  exists n, l !! j = Some n /\ nce_flags n' = nce_flags n.
Proof.
  intros Hm Hj.
  assert (H : map nce_flags l' !! j = Some (nce_flags n')).
  { change (map nce_flags l') with (nce_flags <$> l'). by rewrite list_lookup_fmap, Hj. }
  rewrite Hm in H. change (map nce_flags l) with (nce_flags <$> l) in H.
  rewrite list_lookup_fmap in H.
  destruct (l !! j) as [n |]; [| done]. simpl in H. exists n. split; [done |]. congruence.
Qed.

Lemma flags_parent n' n : nce_flags n' = nce_flags n -> nce_is_parent n' = nce_is_parent n.
Proof. unfold nce_flags. congruence. Qed.

Lemma flags_rpl n' n : nce_flags n' = nce_flags n -> is_Some (rpl n) -> is_Some (rpl n').
Proof.
  unfold nce_flags. intros H Hn. injection H as _ H.
  apply (bool_decide_unpack _). rewrite H. by apply bool_decide_pack.
Qed.

Lemma flags_map_parent l' l :
  map nce_flags l' = map nce_flags l -> map nce_is_parent l' = map nce_is_parent l.
Proof.
  revert l. induction l' as [| x l' IH]; intros [| y l] H; simpl in H; try done.
  injection H as Hx Hp Hl. simpl. f_equal; [done |]. apply IH.
  clear -Hl. done.
Qed.

(** Writing the [is_parent] flag of entry [i]. *)
Lemma set_parent_flag_lookup l i v n :
  l !! i = Some n -> is_Some (rpl n) ->
  forall j m, set_parent_flag l i v !! j = Some m ->
    exists m0, l !! j = Some m0 /\
      nce_is_parent m = (if decide (j = i) then v else nce_is_parent m0) /\
      (is_Some (rpl m0) -> is_Some (rpl m)).
Proof.
  intros Hi [r Hr] j m Hj. unfold set_parent_flag in Hj. rewrite Hi, Hr in Hj.
  destruct (decide (j = i)) as [-> | Hne].
  - rewrite list_lookup_insert_eq in Hj by (by eapply lookup_lt_Some).
    injection Hj as <-. exists n. repeat split; [done |]. intros _. by eexists.
  - rewrite list_lookup_insert_ne in Hj by done. by exists m.
Qed.

Lemma set_parent_flag_length l i v : length (set_parent_flag l i v) = length l.
Proof.
  unfold set_parent_flag. destruct (l !! i) as [n |]; [| done].
  destruct (rpl n); [| done]. apply length_insert.
Qed.

Lemma find_index_flags l1 : forall l2,
  map nce_is_parent l1 = map nce_is_parent l2 ->
  find_index nce_is_parent l1 = find_index nce_is_parent l2.
Proof.
  induction l1 as [| x l1 IH]; intros [| y l2] H; simpl in H; try done.
  injection H as Hx Hl. simpl. rewrite Hx, (IH l2 Hl). done.
Qed.

Lemma flags_length l' l : map nce_flags l' = map nce_flags l -> length l' = length l.
Proof. intros H. by rewrite <- (length_map nce_flags l'), H, length_map. Qed.

(** Clearing the flag of the preferred parent leaves no flag set. *)
Lemma clear_parent_flag l :
  (parent_count l <= 1)%nat ->
  let l1 := match find_index nce_is_parent l with
            | Some i => set_parent_flag l i false
            | None => l
            end in
  length l1 = length l /\
  (forall j m, l1 !! j = Some m -> nce_is_parent m = false) /\
  (forall j m0, l !! j = Some m0 -> is_Some (rpl m0) ->
     exists m, l1 !! j = Some m /\ is_Some (rpl m)).
Proof.
  intros Hc. destruct (find_index nce_is_parent l) as [i |] eqn:Hf; cbv zeta.
  - destruct (find_index_Some _ _ _ Hf) as (n & Hi & Hn & _).
    assert (Hrpl : is_Some (rpl n)).
    { unfold nce_is_parent in Hn. destruct (rpl n); [by eexists | done]. }
    split; [apply set_parent_flag_length |]. split.
    + intros j m Hj.
      destruct (set_parent_flag_lookup l i false n Hi Hrpl j m Hj) as (m0 & Hm0 & -> & _).
      destruct (decide (j = i)) as [-> | Hne]; [done |].
      rewrite (parent_count_unique l i n Hc Hi Hn j m0 Hm0).
      by apply bool_decide_eq_false.
    + intros j m0 Hj Hm0.
      assert (Hlt : (j < length (set_parent_flag l i false))%nat).
      { rewrite set_parent_flag_length. by eapply lookup_lt_Some. }
      apply lookup_lt_is_Some in Hlt as [m Hm]. exists m. split; [done |].
      destruct (set_parent_flag_lookup l i false n Hi Hrpl j m Hm) as (m1 & Hm1 & _ & Hr).
      apply Hr. congruence.
  - split; [done |]. split.
    + by apply find_index_None.
    + intros j m0 Hj Hm0. by exists m0.
Qed.

(** Setting the flag of one entry when no flag is set. *)
Lemma set_parent_flag_only l b n :
  (forall j m, l !! j = Some m -> nce_is_parent m = false) ->
  l !! b = Some n -> is_Some (rpl n) ->
  forall j m, set_parent_flag l b true !! j = Some m -> nce_is_parent m = bool_decide (j = b).
Proof.
  intros Hnone Hb Hn j m Hj.
  destruct (set_parent_flag_lookup l b true n Hb Hn j m Hj) as (m0 & Hm0 & -> & _).
  destruct (decide (j = b)) as [-> | Hne].
  - symmetry. by apply bool_decide_eq_true.
  - rewrite (Hnone j m0 Hm0). symmetry. by apply bool_decide_eq_false.
Qed.

Lemma flt_nan_false x y : isnan y = true -> flt x y = false.
Proof. intros H. fcmp. Qed.

Section SelectParentRun.
Variables TH HY : Z.

Local Abbreviation adm := (admissible TH HY).
Local Abbreviation best := (best_candidate TH HY).

Lemma select_scan_run ipv6 rl :
  isnan (max_path_cost (mrhof ipv6)) = false ->
  cache_evaluates TH HY ipv6 ->
  exists cache' pc' pn',
    select_scan TH HY ipv6 rl [] (neigh_cache ipv6) (max_path_cost (mrhof ipv6)) None
      = Ret (cache', pc', pn') /\
    map nce_flags cache' = map nce_flags (neigh_cache ipv6) /\
    ((pn' = None /\
      forall j n, neigh_cache ipv6 !! j = Some n -> is_Some (rpl n) ->
        adm ipv6 rl n = true ->
        fle (max_path_cost (mrhof ipv6)) (path_cost_of ipv6 n) = true) \/
     exists b, pn' = Some b /\ best ipv6 rl b pc').
Proof.
  intros Hmax Hev.
  destruct (select_scan_spec TH HY ipv6 rl (neigh_cache ipv6) [] _ None Hmax Hev)
    as (todo' & pc' & pn' & Hs & Hm & Hle & Hall & Hbest).
  exists todo', pc', pn'. split; [done |]. split; [done |].
  destruct Hbest as [[-> ->] | (k & n & -> & Hk & Hn & Ha & Hc & Hlt & Hbefore)].
  - left. done.
  - right. exists k. split; [done |]. exists n. repeat split; done.
Qed.

Lemma best_candidate_unique ipv6 rl a c b c' :
  best ipv6 rl a c -> best ipv6 rl b c' -> a = b /\ c = c'.
Proof.
  intros (na & Ha & Hra & Haa & Hca & Hma & Halla & Hbefa)
         (nb & Hb & Hrb & Hab & Hcb & Hmb & Hallb & Hbefb).
  destruct (lt_eq_lt_dec a b) as [[Hlt | ->] | Hlt].
  - exfalso. assert (H1 := Hbefb a na Hlt Ha Hra Haa).
    assert (H2 := Halla b nb Hb Hrb Hab). rewrite Hca in H1. rewrite Hcb in H2.
    apply flt_not_fle in H1. congruence.
  - split; [done |]. congruence.
  - exfalso. assert (H1 := Hbefa b nb Hlt Hb Hrb Hab).
    assert (H2 := Hallb a na Ha Hra Haa). rewrite Hcb in H1. rewrite Hca in H2.
    apply flt_not_fle in H1. congruence.
Qed.

Lemma select_parent_unfold ipv6 cur rl cache pc pn :
  select_cur_min_path_cost ipv6 (rpl_neigh_pref_parent ipv6) = Ret cur ->
  select_rank_limit ipv6 (rpl_neigh_pref_parent ipv6) = Ret rl ->
  select_scan TH HY ipv6 rl [] (neigh_cache ipv6) (max_path_cost (mrhof ipv6)) None
    = Ret (cache, pc, pn) ->
  rpl_mrhof_select_parent TH HY ipv6 =
  let pref_parent_cur := rpl_neigh_pref_parent ipv6 in
  let m := mrhof ipv6 in
  if bool_decide (pn = pref_parent_cur) && flt cur (max_path_cost m)
  then Ret (pref_parent_cur, with_cache ipv6 cache)
  else if flt cur (max_path_cost m) && flt pc (max_path_cost m) &&
          fgt (fadd pc (parent_switch_threshold m)) cur
  then
    match pref_parent_cur with
    | None => Abort "BUG_ON(!pref_parent_cur)"
    | Some _ => Ret (pref_parent_cur, with_cache ipv6 cache)
    end
  else
    let cache1 :=
      match pref_parent_cur with
      | Some i => set_parent_flag cache i false
      | None => cache
      end in
    let cache2 :=
      match pn with
      | Some i => set_parent_flag cache1 i true
      | None => cache1
      end in
    Ret (pn, with_cache ipv6 cache2).
Proof.
  intros H1 H2 H3. unfold rpl_mrhof_select_parent. rewrite H1, H2. simpl.
  rewrite H3. reflexivity.
Qed.

Lemma cur_min_none ipv6 cur :
  rpl_neigh_pref_parent ipv6 = None ->
  select_cur_min_path_cost ipv6 None = Ret cur ->
  flt cur (max_path_cost (mrhof ipv6)) = false.
Proof. intros _ H. simpl in H. injection H as <-. apply flt_irrefl. Qed.

(** C1, amended. [rpl_mrhof_select_parent] returns and keeps at most one
    [is_parent] flag set. When an admissible candidate has a path cost
    below [max_path_cost] that is lower than the current parent's
    ([cur_min_path_cost]: [max_path_cost] when there is no parent or it is
    denied) by at least [parent_switch_threshold], the function returns the
    minimum-path-cost admissible candidate, and afterwards that neighbor
    and no other has [is_parent] set. *)
Theorem rpl_mrhof_select_parent_switch ipv6 cur_cost rl :
  isnan (max_path_cost (mrhof ipv6)) = false ->
  cache_evaluates TH HY ipv6 ->
  (parent_count (neigh_cache ipv6) <= 1)%nat ->
  select_cur_min_path_cost ipv6 (rpl_neigh_pref_parent ipv6) = Ret cur_cost ->
  select_rank_limit ipv6 (rpl_neigh_pref_parent ipv6) = Ret rl ->
  exists res ipv6',
    rpl_mrhof_select_parent TH HY ipv6 = Ret (res, ipv6') /\
    (parent_count (neigh_cache ipv6') <= 1)%nat /\
    forall a nce,
      neigh_cache ipv6 !! a = Some nce -> is_Some (rpl nce) ->
      adm ipv6 rl nce = true ->
      flt (path_cost_of ipv6 nce) (max_path_cost (mrhof ipv6)) = true ->
      fle (fadd (path_cost_of ipv6 nce) (parent_switch_threshold (mrhof ipv6)))
          cur_cost = true ->
      exists b c,
        res = Some b /\ best ipv6 rl b c /\
        (forall i n, neigh_cache ipv6' !! i = Some n ->
           nce_is_parent n = bool_decide (i = b)) /\
        parent_count (neigh_cache ipv6') = 1%nat.
Proof.
  intros Hmax Hev Hcount Hcur Hrl.
  destruct (select_scan_run ipv6 rl Hmax Hev) as (cache' & pc & pn & Hscan & Hflags & Hres).
  rewrite (select_parent_unfold ipv6 cur_cost rl cache' pc pn Hcur Hrl Hscan). cbv zeta.
  assert (Hpar := flags_map_parent _ _ Hflags).
  assert (Hcount' : (parent_count cache' <= 1)%nat)
    by by rewrite (parent_count_flags _ _ Hpar).
  assert (Hfind : rpl_neigh_pref_parent ipv6 = find_index nce_is_parent cache').
  { unfold rpl_neigh_pref_parent. symmetry. by apply find_index_flags. }
  (* the candidate found by the scan, when the hypothesis of the switch holds *)
  assert (Hswitch : forall a nce,
    neigh_cache ipv6 !! a = Some nce -> is_Some (rpl nce) -> adm ipv6 rl nce = true ->
    flt (path_cost_of ipv6 nce) (max_path_cost (mrhof ipv6)) = true ->
    fle (fadd (path_cost_of ipv6 nce) (parent_switch_threshold (mrhof ipv6)))
        cur_cost = true ->
    exists b nb, pn = Some b /\ best ipv6 rl b pc /\
      cache' !! b = Some nb /\ is_Some (rpl nb) /\
      fgt (fadd pc (parent_switch_threshold (mrhof ipv6))) cur_cost = false).
  { intros a nce Ha Hra Haa Hlt Hthr.
    destruct Hres as [[-> Hnone] | (b & -> & Hb)].
    - exfalso. specialize (Hnone a nce Ha Hra Haa).
      apply flt_not_fle in Hlt. congruence.
    - assert (Hb' := Hb).
      destruct Hb' as (nb & Hnb & Hrb & Hab & Hcb & Hmb & Hallb & Hbefb).
      assert (Hlen := flags_length _ _ Hflags).
      assert (Hlt' : (b < length cache')%nat).
      { rewrite Hlen. by eapply lookup_lt_Some. }
      apply lookup_lt_is_Some in Hlt' as [nb' Hnb'].
      destruct (flags_lookup _ _ _ _ Hflags Hnb') as (nb0 & Hnb0 & Hfl).
      assert (nb0 = nb) by congruence. subst nb0.
      exists b, nb'. split; [done |].
      split; [done |]. split; [done |].
      split; [by eapply flags_rpl |].
      unfold fgt.
      destruct (isnan (fadd pc (parent_switch_threshold (mrhof ipv6)))) eqn:Hn;
        [by apply flt_nan_false |].
      apply fle_not_flt. eapply fle_trans; [| exact Hthr].
      apply fadd_mono; [| done | by eapply fle_nan_l].
      by apply (Hallb a nce). }
  destruct (bool_decide (pn = rpl_neigh_pref_parent ipv6) &&
            flt cur_cost (max_path_cost (mrhof ipv6))) eqn:Hc1.
  - (* the best candidate is the current parent *)
    apply andb_true_iff in Hc1 as [Heq Hc1]. apply bool_decide_eq_true in Heq.
    eexists _, _. split; [done |]. split; [done |]. simpl.
    intros a nce Ha Hra Haa Hlt Hthr.
    destruct (Hswitch a nce Ha Hra Haa Hlt Hthr) as (b & nb & -> & Hb & Hnb & Hrb & _).
    exists b, pc. rewrite <- Heq. split; [done |]. split; [done |].
    rewrite <- Heq in Hfind. symmetry in Hfind.
    destruct (find_index_Some _ _ _ Hfind) as (n & Hn & Hpn & _).
    assert (Hpt := parent_count_unique cache' b n Hcount' Hn Hpn).
    split; [done |]. apply (parent_count_one cache' b); [| done].
    by eapply lookup_lt_Some.
  - destruct (flt cur_cost (max_path_cost (mrhof ipv6)) &&
              flt pc (max_path_cost (mrhof ipv6)) &&
              fgt (fadd pc (parent_switch_threshold (mrhof ipv6))) cur_cost) eqn:Hc2.
    + (* hysteresis: the current parent is kept *)
      apply andb_true_iff in Hc2 as [Hc2 Hgt]. apply andb_true_iff in Hc2 as [Hcm Hpm].
      destruct (rpl_neigh_pref_parent ipv6) as [i |] eqn:Hp.
      * eexists _, _. split; [done |]. split; [done |].
        intros a nce Ha Hra Haa Hlt Hthr.
        destruct (Hswitch a nce Ha Hra Haa Hlt Hthr) as (b & nb & _ & _ & _ & _ & Hf).
        congruence.
      * exfalso. rewrite (cur_min_none ipv6 cur_cost Hp Hcur) in Hcm. done.
    + (* the switch *)
      rewrite Hfind.
      destruct (clear_parent_flag cache' Hcount') as (Hlen1 & Hnone & Hkeep).
      set (cache1 := match find_index nce_is_parent cache' with
                     | Some i => set_parent_flag cache' i false
                     | None => cache'
                     end) in *.
      eexists _, _. split; [done |]. simpl. split.
      * destruct pn as [b |].
        -- destruct (cache1 !! b) as [n1 |] eqn:Hb1.
           ++ destruct (rpl n1) as [r1 |] eqn:Hr1.
              ** rewrite (parent_count_one _ b); [lia | |].
                 --- rewrite set_parent_flag_length. by eapply lookup_lt_Some.
                 --- apply (set_parent_flag_only cache1 b n1); [done.. | by eexists].
              ** unfold set_parent_flag. rewrite Hb1, Hr1.
                 rewrite parent_count_none by done. lia.
           ++ unfold set_parent_flag. rewrite Hb1. rewrite parent_count_none by done. lia.
        -- rewrite parent_count_none by done. lia.
      * intros a nce Ha Hra Haa Hlt Hthr.
        destruct (Hswitch a nce Ha Hra Haa Hlt Hthr) as (b & nb & -> & Hb & Hnb & Hrb & _).
        destruct (Hkeep b nb Hnb Hrb) as (n1 & Hb1 & Hr1).
        exists b, pc. split; [done |]. split; [done |].
        assert (Hpt := set_parent_flag_only cache1 b n1 Hnone Hb1 Hr1).
        split; [done |]. apply (parent_count_one _ b); [| done].
        rewrite set_parent_flag_length. by eapply lookup_lt_Some.
Qed.

(** C2. When the minimum-path-cost admissible candidate A is not the
    current preferred parent B, both path costs are below [max_path_cost]
    and A's cost plus [parent_switch_threshold] is above B's (the
    comparison of the code, in binary32), [rpl_mrhof_select_parent]
    returns B and changes no [is_parent] flag. *)
Theorem rpl_mrhof_select_parent_hysteresis ipv6 a b cA cB rl :
  isnan (max_path_cost (mrhof ipv6)) = false ->
  cache_evaluates TH HY ipv6 ->
  rpl_neigh_pref_parent ipv6 = Some b ->
  select_cur_min_path_cost ipv6 (Some b) = Ret cB ->
  select_rank_limit ipv6 (Some b) = Ret rl ->
  best ipv6 rl a cA ->
  a <> b ->
  flt cB (max_path_cost (mrhof ipv6)) = true ->
  fgt (fadd cA (parent_switch_threshold (mrhof ipv6))) cB = true ->
  exists ipv6',
    rpl_mrhof_select_parent TH HY ipv6 = Ret (Some b, ipv6') /\
    mrhof ipv6' = mrhof ipv6 /\
    map nce_is_parent (neigh_cache ipv6') = map nce_is_parent (neigh_cache ipv6).
Proof.
  intros Hmax Hev Hp Hcur Hrl Hbest Hne HcB Hgt.
  destruct (select_scan_run ipv6 rl Hmax Hev) as (cache' & pc & pn & Hscan & Hflags & Hres).
  rewrite <- Hp in Hcur, Hrl.
  rewrite (select_parent_unfold ipv6 cB rl cache' pc pn Hcur Hrl Hscan). cbv zeta.
  assert (Hpar := flags_map_parent _ _ Hflags).
  assert (Hcm : flt cA (max_path_cost (mrhof ipv6)) = true).
  { by destruct Hbest as (? & ? & ? & ? & ? & ? & ?). }
  destruct Hres as [[-> Hnone] | (b' & -> & Hb')].
  - exfalso. destruct Hbest as (na & Ha & Hra & Haa & Hca & Hma & _).
    specialize (Hnone a na Ha Hra Haa). rewrite Hca in Hnone.
    apply flt_not_fle in Hma. congruence.
  - destruct (best_candidate_unique ipv6 rl a cA b' pc Hbest Hb') as [<- <-].
    rewrite Hp.
    assert (Hd : bool_decide (Some a = Some b) = false).
    { apply bool_decide_eq_false. congruence. }
    rewrite Hd, HcB, Hcm, Hgt. simpl.
    eexists. split; [done |]. split; done.
Qed.
End SelectParentRun.

(** ** The ETX estimator (ws_etx.c) *)

Lemma f32_of_int_count z :
  1 <= z -> z <= INT_MAX ->
  exists v, f32_of_int z = FFin v /\ (1 <= v)%Q /\ (v <= 2147483648)%Q.
Proof.
  intros H1 H2. unfold f32_of_int.
  apply (f32_round_between (inject_Z 1) (inject_Z INT_MAX)).
  - by vm_compute.
  - by vm_compute.
  - rewrite <- Zle_Qle. lia.
  - rewrite <- Zle_Qle. lia.
Qed.

(** The raw value of a computation with at least one acknowledgement. *)
Lemma etx_raw_range tx ack :
  1 <= ack -> ack <= tx -> tx <= INT_MAX ->
  etx_in_range
    (MIN_f (fmul (fdiv (f32_of_int tx) (f32_of_int ack)) (f32_of_int 128))
           (f32_of_int WS_ETX_MAX)).
Proof.
  intros H1 H2 H3.
  destruct (f32_of_int_count tx ltac:(lia) H3) as (va & Ea & Ha1 & Ha2).
  destruct (f32_of_int_count ack H1 ltac:(lia)) as (vb & Eb & Hb1 & Hb2).
  assert (Hba : (vb <= va)%Q).
  { assert (M := f32_round_mono (inject_Z ack) (inject_Z tx)).
    unfold f32_of_int in Ea, Eb. rewrite Ea, Eb in M. simpl in M.
    apply Qle_bool_iff, M. rewrite <- Zle_Qle. lia. }
  rewrite Ea, Eb. simpl.
  assert (Hnz : Qeq_bool vb 0 = false).
  { destruct (Qeq_bool vb 0) eqn:E; [| done]. apply Qeq_bool_iff in E. exfalso. lra. }
  rewrite Hnz.
  destruct (f32_round_between 1 2147483648 (va / vb) 1 2147483648)
    as (vr & Er & Hr1 & Hr2); [by vm_compute | by vm_compute | | |].
  { apply Qle_shift_div_l; lra. }
  { apply Qle_shift_div_r; lra. }
  rewrite Er.
  replace (f32_of_int 128) with (FFin 128) by (vm_compute; reflexivity).
  replace (f32_of_int WS_ETX_MAX) with (FFin 1024) by (vm_compute; reflexivity).
  simpl.
  destruct (f32_round_between 128 274877906944 (vr * 128) 128 274877906944)
    as (vm & Em & Hm1 & Hm2); [by vm_compute | by vm_compute | lra | lra |].
  rewrite Em. unfold MIN_f. simpl.
  destruct (Qle_bool 1024 vm) eqn:E; simpl.
  - exists 1024%Q. split; [done |]. split; lra.
  - apply Qle_bool_false in E. exists vm. split; [done |]. split; lra.
Qed.

(** The smoothing factors [1/2] to [1/8] as binary32 computes them. *)
Lemma etx_smoothing_range c :
  2 <= c -> c <= 8 ->
  exists sf, fdiv (f32_of_int 1) (f32_of_int c) = FFin sf /\
             (1 # 8 <= sf)%Q /\ (sf <= 1 # 2)%Q.
Proof.
  intros H1 H2.
  assert (Hc : c = 2 \/ c = 3 \/ c = 4 \/ c = 5 \/ c = 6 \/ c = 7 \/ c = 8) by lia.
  destruct Hc as [-> | [-> | [-> | [-> | [-> | [-> | ->]]]]]];
    eexists; (split; [vm_compute; reflexivity | split; by vm_compute]).
Qed.

Lemma ws_etx_timeout_compute_due ctx e :
  etx_epoch ctx e = true ->
  fst (ws_etx_timeout_compute ctx e) =
  let raw :=
    if negb (ack_cnt e =? 0)
    then MIN_f (fmul (fdiv (f32_of_int (tx_cnt e)) (f32_of_int (ack_cnt e)))
                     (f32_of_int 128))
               (f32_of_int WS_ETX_MAX)
    else f32_of_int WS_ETX_MAX in
  let compute_cnt' :=
    if compute_cnt e <? 8 then compute_cnt e + 1 else compute_cnt e in
  mk_etx (ws_ewma_next (etx e) raw (fdiv (f32_of_int 1) (f32_of_int compute_cnt')))
         0 0 0 compute_cnt'
         (timer_start_rel (update_min_delay_ms ctx))
         (timer_start_rel (refresh_period_ms ctx)).
Proof.
  intros Hep. unfold ws_etx_timeout_compute. unfold etx_epoch in Hep.
  rewrite Hep. reflexivity.
Qed.

(** A computation leaves a value of the range, whatever the counters of
    the epoch. *)
Lemma ws_etx_timeout_compute_range ctx e computed :
  etx_inv e computed -> etx_epoch ctx e = true ->
  etx_inv (fst (ws_etx_timeout_compute ctx e)) true.
Proof.
  intros (Ha1 & Ha2 & Ht & Hc) Hep.
  rewrite (ws_etx_timeout_compute_due ctx e Hep). cbv zeta.
  set (raw := if negb (ack_cnt e =? 0) then _ else _).
  set (c' := if compute_cnt e <? 8 then compute_cnt e + 1 else compute_cnt e).
  unfold etx_inv. cbn [etx tx_cnt ack_cnt compute_cnt].
  split; [lia |]. split; [lia |]. split; [done |].
  assert (Hraw : etx_in_range raw).
  { subst raw. destruct (ack_cnt e =? 0) eqn:E; cbn [negb].
    - exists 1024%Q. split; [by vm_compute |]. split; by vm_compute.
    - apply etx_raw_range; lia. }
  destruct Hraw as (qr & Hqr & Hr1 & Hr2). rewrite Hqr.
  destruct computed.
  - destruct Hc as ((qc & Hq & Hc1 & Hc2) & Hn1 & Hn2). rewrite Hq.
    assert (Hc' : 2 <= c' /\ c' <= 8).
    { subst c'. destruct (Z.ltb_spec (compute_cnt e) 8); lia. }
    destruct (etx_smoothing_range c' (proj1 Hc') (proj2 Hc')) as (sf & Hsf & Hs1 & Hs2).
    rewrite Hsf. split; [| lia].
    destruct (ws_ewma_next_range qc qr sf Hc1 Hc2 Hr1 Hr2 Hs1 Hs2) as (v & Hv & Hv').
    rewrite Hv. by exists v.
  - destruct Hc as [Hq Hn]. rewrite Hq. subst c'. rewrite Hn.
    cbn [ws_ewma_next isnan]. split; [| done].
    by exists qr.
Qed.

Lemma etx_step_inv ctx e computed ev e' :
  etx_inv e computed -> etx_event_ok ev -> etx_step ctx e ev = Ret e' ->
  etx_inv e' (etx_computed ctx e computed ev).
Proof.
  intros Hinv Hok Hstep. destruct ev as [tx ack | | |]; simpl in *.
  - unfold ws_etx_update in Hstep.
    destruct (int_in_range (tx_req_cnt e + 1) && int_in_range (tx_cnt e + tx) &&
              int_in_range (ack_cnt e + (if ack then 1 else 0))) eqn:E; [| done].
    injection Hstep as <-. destruct Hinv as (Ha1 & Ha2 & Ht & Hc).
    apply andb_true_iff in E as [E _]. apply andb_true_iff in E as [_ E].
    unfold int_in_range in E. apply andb_true_iff in E as [_ E]. apply Z.leb_le in E.
    unfold etx_inv. simpl. repeat split; try done; destruct ack; lia.
  - injection Hstep as <-.
    assert (Hinv' : etx_inv (stop_compute e) computed) by done.
    destruct (etx_epoch ctx e) eqn:Hep.
    + rewrite orb_true_r. by apply (ws_etx_timeout_compute_range ctx _ computed).
    + rewrite orb_false_r. unfold ws_etx_timeout_compute.
      change (tx_req_cnt (stop_compute e)) with (tx_req_cnt e).
      change (etx (stop_compute e)) with (etx e).
      unfold etx_epoch in Hep. rewrite Hep. simpl.
      by destruct (timer_stopped (timer_outdated e) && on_etx_outdated ctx).
  - injection Hstep as <-. done.
  - injection Hstep as <-. unfold etx_inv. simpl. repeat split; done.
Qed.

Lemma etx_run_inv ctx : forall evs e computed e' computed',
  etx_inv e computed -> Forall etx_event_ok evs ->
  etx_run ctx (e, computed) evs = Ret (e', computed') ->
  etx_inv e' computed'.
Proof.
  induction evs as [| ev evs IH]; intros e computed e' computed' Hinv Hok Hrun.
  - simpl in Hrun. by injection Hrun as <- <-.
  - inversion Hok as [| ? ? Hev Hevs]; subst. simpl in Hrun.
    destruct (etx_step ctx e ev) as [e1 | |] eqn:Hstep; try done. simpl in Hrun.
    apply (IH e1 (etx_computed ctx e computed ev)); [| done..].
    by apply (etx_step_inv ctx e computed ev).
Qed.

(** C4, amended. Along every run of TX confirmations that each count the
    acknowledged transmission, timer firings and resets, starting from an
    initialised estimator, [etx] is NaN as long as no computation has
    occurred since the last (re)initialisation and lies in [[128, 1024]]
    afterwards. *)
Theorem ws_etx_range ctx e0 evs e computed :
  Forall etx_event_ok evs ->
  etx_run ctx (ws_etx_init e0, false) evs = Ret (e, computed) ->
  if computed then etx_in_range (etx e) else etx e = FNaN.
Proof.
  intros Hok Hrun.
  assert (Hinit : etx_inv (ws_etx_init e0) false).
  { unfold etx_inv. simpl. repeat split; done. }
  assert (Hinv := etx_run_inv ctx evs _ _ _ _ Hinit Hok Hrun).
  destruct Hinv as (_ & _ & _ & Hc). destruct computed; by destruct Hc.
Qed.

(** ** Instances *)

Lemma lowpan_reasm_update_zero_length_witness :
  exists reasm',
    lowpan_reasm_update ex_reasm24 [] 1 = Ret (0, reasm') /\
    reasm_buf reasm' = reasm_buf ex_reasm24 /\
    (forall i, missing (reasm_holes reasm') i = missing (reasm_holes ex_reasm24) i) /\
    (reasm_holes reasm' = [] -> reasm_holes ex_reasm24 = []).
Proof.
  apply (lowpan_reasm_update_zero_length ex_reasm24 1).
  - apply reach_new.
  - lia.
  - vm_compute. discriminate.
Defined.

Lemma lowpan_reasm_update_rejects_witness :
  lowpan_reasm_update ex_reasm24 [x01; x02; x03; x04] 0 = Ret (- EINVAL, ex_reasm24).
Proof.
  apply (proj1 (lowpan_reasm_update_rejects (fun _ => true) (fun p _ _ => p)
                  (fun b _ => (0, b)) ex_reasm24 [x01; x02; x03; x04] 0
                  ltac:(lia) ltac:(vm_compute; reflexivity))).
  right. split; vm_compute; discriminate.
Defined.

Lemma lowpan_reasm_roundtrip_witness :
  exists reasm',
    reasm_feed (lowpan_reasm_init ex_frag_ctx 1 2 7 (Z.of_nat (length ex_dgram40)))
               ex_frags_213 = Some reasm' /\
    reasm_holes reasm' = [] /\ reasm_buf reasm' = ex_dgram40.
Proof.
  apply (lowpan_reasm_roundtrip ex_frag_ctx 1 2 7 ex_dgram40 [2; 2]%nat ex_frags_213).
  - vm_compute. lia.
  - vm_compute. reflexivity.
  - vm_compute. lia.
  - vm_compute. lia.
  - apply perm_swap.
Defined.

(** The hole of an empty datagram is never removed: its only fragment, of
    length zero, leaves the hole list as it is. *)
Lemma lowpan_reasm_roundtrip_empty :
  ~ (exists reasm',
       reasm_feed (lowpan_reasm_init ex_frag_ctx 1 2 7 0) (dgram_split 0 [] [])
         = Some reasm' /\
       reasm_holes reasm' = []).
Proof.
  intros (reasm' & Hfeed & Hholes). vm_compute in Hfeed.
  injection Hfeed as <-. discriminate Hholes.
Qed.



Lemma ws_etx_timeout_compute_not_due_witness :
  ws_etx_timeout_compute ex_etx_ctx ex_etx_stale = (ex_etx_stale, [OnEtxOutdated]).
Proof.
  apply (ws_etx_timeout_compute_not_due ex_etx_ctx ex_etx_stale).
  - vm_compute. reflexivity.
  - reflexivity.
Defined.

(** While the outdated timer is running the handler returns without
    calling [on_etx_outdated]. *)
Lemma ws_etx_timeout_compute_silent :
  ~ (forall ctx e,
       tx_req_cnt e < update_min_tx_req_cnt ctx ->
       isnan (etx e) = false ->
       snd (ws_etx_timeout_compute ctx e) = [OnEtxOutdated]).
Proof.
  intros H. specialize (H ex_etx_ctx ex_etx_fresh). vm_compute in H.
  specialize (H eq_refl eq_refl). discriminate H.
Qed.

Lemma rpl_mrhof_check_candidate_order_witness :
  rpl_mrhof_check_candidate 10 3 ex_ipv6_lossy (ex_nb 1 1000 false) 65535 =
    Ret (Some "etx"%string, ex_nb 1 1000 false).
Proof.
  apply (proj1 (rpl_mrhof_check_candidate_order 10 3 ex_ipv6_lossy (ex_nb 1 1000 false)
                  (mk_rpl 1000 128 0 false true None) 1600 true 65535
                  eq_refl ltac:(vm_compute; reflexivity)
                  ltac:(intros _; vm_compute; reflexivity))).
Defined.

(** An unknown ETX and an ETX above [max_link_metric] are reported with the
    same string. *)
Lemma rpl_mrhof_check_candidate_same_diag :
  ~ (forall x y, x <> y -> exclusion_diag x <> exclusion_diag y) /\
  (exists nce', rpl_mrhof_check_candidate 10 3 ex_ipv6_unknown (ex_nb 1 1000 false) 65535
                = Ret (Some "etx"%string, nce')) /\
  isnan (rpl_mrhof_etx ex_ipv6_unknown (ex_nb 1 1000 false)) = true /\
  (exists nce', rpl_mrhof_check_candidate 10 3 ex_ipv6_lossy (ex_nb 1 1000 false) 65535
                = Ret (Some "etx"%string, nce')) /\
  isnan (rpl_mrhof_etx ex_ipv6_lossy (ex_nb 1 1000 false)) = false.
Proof.
  split; [| split; [| split; [| split]]].
  - intros H. apply (H ExEtxUnknown ExEtxAboveMax); [discriminate | reflexivity].
  - eexists. vm_compute. reflexivity.
  - reflexivity.
  - eexists. vm_compute. reflexivity.
  - reflexivity.
Qed.

Lemma rpl_mrhof_select_parent_switch_witness :
  exists res ipv6',
    rpl_mrhof_select_parent 10 3 ex_ipv6_switch = Ret (res, ipv6') /\
    (parent_count (neigh_cache ipv6') <= 1)%nat /\
    forall a nce,
      neigh_cache ex_ipv6_switch !! a = Some nce -> is_Some (rpl nce) ->
      admissible 10 3 ex_ipv6_switch 65535 nce = true ->
      flt (path_cost_of ex_ipv6_switch nce) (max_path_cost (mrhof ex_ipv6_switch)) = true ->
      fle (fadd (path_cost_of ex_ipv6_switch nce)
                (parent_switch_threshold (mrhof ex_ipv6_switch))) (FFin 2256) = true ->
      exists b c,
        res = Some b /\ best_candidate 10 3 ex_ipv6_switch 65535 b c /\
        (forall i n, neigh_cache ipv6' !! i = Some n ->
           nce_is_parent n = bool_decide (i = b)) /\
        parent_count (neigh_cache ipv6') = 1%nat.
Proof.
  apply (rpl_mrhof_select_parent_switch 10 3 ex_ipv6_switch (FFin 2256) 65535).
  - reflexivity.
  - repeat (constructor; [intros _; vm_compute; reflexivity |]). constructor.
  - vm_compute. lia.
  - vm_compute. reflexivity.
  - vm_compute. reflexivity.
Defined.

(** A candidate whose path cost is not below [max_path_cost] is never
    selected: the current parent, 7128 above it, is dropped and no parent
    is left. *)
Lemma rpl_mrhof_select_parent_far_candidate :
  rpl_neigh_pref_parent ex_ipv6_far = Some 0%nat /\
  select_cur_min_path_cost ex_ipv6_far (Some 0%nat) = Ret (FFin 40256) /\
  select_rank_limit ex_ipv6_far (Some 0%nat) = Ret 65535 /\
  admissible 10 3 ex_ipv6_far 65535 (ex_nb 2 33000 false) = true /\
  path_cost_of ex_ipv6_far (ex_nb 2 33000 false) = FFin 33128 /\
  fle (fadd (FFin 33128) (parent_switch_threshold (mrhof ex_ipv6_far))) (FFin 40256) = true /\
  exists ipv6',
    rpl_mrhof_select_parent 10 3 ex_ipv6_far = Ret (None, ipv6') /\
    parent_count (neigh_cache ipv6') = 0%nat.
Proof.
  repeat split; try (vm_compute; reflexivity).
  eexists. split; vm_compute; reflexivity.
Qed.

Lemma rpl_mrhof_select_parent_hysteresis_witness :
  exists ipv6',
    rpl_mrhof_select_parent 10 3 ex_ipv6_close = Ret (Some 0%nat, ipv6') /\
    mrhof ipv6' = mrhof ex_ipv6_close /\
    map nce_is_parent (neigh_cache ipv6') = map nce_is_parent (neigh_cache ex_ipv6_close).
Proof.
  apply (rpl_mrhof_select_parent_hysteresis 10 3 ex_ipv6_close 1%nat 0%nat
           (FFin 1128) (FFin 1228) 65535).
  - reflexivity.
  - repeat (constructor; [intros _; vm_compute; reflexivity |]). constructor.
  - reflexivity.
  - vm_compute. reflexivity.
  - vm_compute. reflexivity.
  - exists (ex_nb 2 1000 false).
    split; [reflexivity |]. split; [by eexists |].
    split; [vm_compute; reflexivity |]. split; [vm_compute; reflexivity |].
    split; [reflexivity |].
    split.
    + intros [| [| j]] nj Hj _ _; simpl in Hj; try done;
        injection Hj as <-; vm_compute; reflexivity.
    + intros [| [| j]] nj Hlt Hj _ _; simpl in Hj; try done; try lia.
      injection Hj as <-. vm_compute. reflexivity.
  - lia.
  - reflexivity.
  - vm_compute. reflexivity.
Defined.

Lemma ws_etx_range_witness : etx_in_range (etx (fst ex_etx_run)).
Proof.
  apply (ws_etx_range ex_etx_ctx ex_etx_stale ex_etx_events (fst ex_etx_run) true).
  - repeat (constructor; [simpl; try lia; exact I |]). constructor.
  - vm_compute. reflexivity.
Defined.

(** An acknowledged frame reported with no transmission gives a raw value
    of zero, below the range. *)
Lemma ws_etx_range_zero_tx :
  exists e,
    etx_run ex_etx_ctx (ws_etx_init ex_etx_stale, false) [EvUpdate 0 true; EvComputeTimer]
      = Ret (e, true) /\
    etx e = FFin 0 /\ ~ etx_in_range (etx e).
Proof.
  eexists. split; [vm_compute; reflexivity |]. split; [reflexivity |].
  intros (q & Hq & Hq1 & _). simpl in Hq. injection Hq as <-. by vm_compute in Hq1.
Qed.
